(** * waterz backend: bucket queue, histogram quantile provider and the
      iterative region merging engine

    A shallow embedding of [BinQueue.hpp], [HistogramQuantileProvider.hpp]
    and [IterativeRegionMerging.hpp].  A score ([ScoreType], [Precision]) is
    the rational number it denotes, and the product that the bucket queue
    computes in [ScoreType] is the exact product rounded to [ScoreType]; the
    [int] arithmetic of the quantile scan wraps around at 32 bits; the
    indices of bins and buckets are integers; [std::map] is a [gmap], arrays
    are lists and the edge maps of the region graph are total maps from edge
    ids. *)

From Stdlib Require Import ZArith QArith Qround Qpower Qabs Lia Lqa List Sorted.
From stdpp Require Import gmap list sorting.

Local Open Scope Z_scope.

(** * Part I: the embedding *)

(** The C++ conversion [(int)x] of a floating point value: truncation
    towards zero. *)
Definition Qtruncate (x : Q) : Z := Z.quot (Qnum x) (Zpos (Qden x)).

(** ** The arithmetic of [ScoreType]

    A score is modelled by the rational number it denotes.  The result of
    an arithmetic operation of [ScoreType] is the exact result rounded to
    [ScoreType]: not at all for an exact type, to the nearest number with
    24 or 53 significant bits (ties to even) for [float] and [double]
    (infinities, NaN and the bounds of the exponent are left out). *)

Definition exactScore (x : Q) : Q := x.

(** The binade of a positive number: [floor(log2 x)]. *)
Definition binade (x : Q) : Z :=
  if Qle_bool 1 x then Z.log2 (Qfloor x)
  else - Z.log2_up (Qceiling (/ x)).

(** The nearest integer, the even one of two nearest. *)
Definition roundHalfEven (q : Q) : Z :=
  let m := Qfloor q in
  match (2 * (q - inject_Z m) ?= 1)%Q with
  | Lt => m
  | Gt => m + 1
  | Eq => if Z.even m then m else m + 1
  end.

(** Rounding to [prec] significant bits: [e] is the exponent of the last
    bit that is kept. *)
Definition roundBinary (prec : Z) (x : Q) : Q :=
  if Qeq_bool x 0 then 0%Q
  else
    let e := binade (Qabs x) - (prec - 1) in
    (inject_Z (Z.sgn (Qnum x) * roundHalfEven (Qabs x * 2 ^ (- e))) * 2 ^ e)%Q.

Definition roundFloat : Q -> Q := roundBinary 24.
Definition roundDouble : Q -> Q := roundBinary 53.

(** ** BinQueue.hpp *)

Module BinQueue.

(** Outcome of an operation that may throw [BinQueueOutOfBoundsException]. *)
Inductive result (A : Type) : Type :=
| Ok (a : A)
| OutOfBounds (i n : Z).
Arguments Ok {A} a.
Arguments OutOfBounds {A} i n.

Record BinQueue (T : Type) : Type := mkBinQueue {
  _bins : list (list T);   (* std::queue<T> _bins[N], front of a queue first *)
  _minBin : Z              (* smallest non-empty bin, or -1 *)
}.
Arguments mkBinQueue {T} _ _.
Arguments _bins {T} _.
Arguments _minBin {T} _.

Section WithN.

Context {T : Type}.
Variable N : Z.

(** The rounding of the template parameter [ScoreType]. *)
Variable roundScore : Q -> Q.

(** [_bins[i]] *)
Definition bin (bins : list (list T)) (i : Z) : list T :=
  default [] (bins !! Z.to_nat i).

(** The constructor: [N] empty bins, [_minBin(-1)]. *)
Definition empty_queue : BinQueue T :=
  mkBinQueue (replicate (Z.to_nat N) []) (-1).

(** [(int)(score*(N-1))]: the product is computed in [ScoreType] ([N-1]
    converts exactly), then truncated.  A product beyond the range of
    [int], whose conversion C++ leaves undefined, keeps its truncation: it
    is outside [0,N). *)
Definition scoreToIndex (score : Q) : result Z :=
  let i := Qtruncate (roundScore (score * inject_Z (N - 1))%Q) in
  if (i <? 0) || (i >=? N) then OutOfBounds i N else Ok i.

Definition push (element : T) (score : Q) (q : BinQueue T) : result (BinQueue T) :=
  match scoreToIndex score with
  | OutOfBounds i n => OutOfBounds i n
  | Ok i =>
      Ok (mkBinQueue
            (alter (fun b => b ++ [element]) (Z.to_nat i) (_bins q))
            (if _minBin q =? -1 then i else Z.min i (_minBin q)))
  end.

Definition empty (q : BinQueue T) : bool := _minBin q =? -1.

(** [top] and [pop] have the precondition that the queue is not empty;
    reading [_bins[-1]] or the front of an empty bin is undefined in the
    source and is [None] here. *)
Definition top (q : BinQueue T) : option T :=
  if _minBin q <? 0 then None else head (bin (_bins q) (_minBin q)).

(** The [for (;_minBin < N; _minBin++)] scan of [pop]: [fuel] is the number
    of indices left below [N]. *)
Fixpoint nextNonEmpty (fuel : nat) (i : Z) (bins : list (list T)) : Z :=
  match fuel with
  | O => -1
  | S fuel' =>
      match bin bins i with
      | [] => nextNonEmpty fuel' (i + 1) bins
      | _ :: _ => i
      end
  end.

Definition pop (q : BinQueue T) : option (BinQueue T) :=
  if _minBin q <? 0 then None else
  match bin (_bins q) (_minBin q) with
  | [] => None
  | _ :: rest =>
      let bins' := <[Z.to_nat (_minBin q) := rest]> (_bins q) in
      Some (mkBinQueue bins'
              (match rest with
               | [] => nextNonEmpty (Z.to_nat (N - _minBin q)) (_minBin q) bins'
               | _ :: _ => _minBin q
               end))
  end.

Definition size (q : BinQueue T) : nat :=
  if empty q then O
  else list_sum (map (@length T) (drop (Z.to_nat (_minBin q)) (_bins q))).

(** [while (!q.empty()) { out.push_back(q.top()); q.pop(); }]; the loop
    runs [size()] rounds at most. *)
Fixpoint popRounds (fuel : nat) (q : BinQueue T) : list T :=
  match fuel with
  | O => []
  | S fuel' =>
      if empty q then []
      else match top q, pop q with
           | Some x, Some q' => x :: popRounds fuel' q'
           | _, _ => []
           end
  end.

Definition popAll (q : BinQueue T) : list T := popRounds (size q) q.

End WithN.

(** Push a sequence of elements, each under the score it carries, stopping
    at the first exception. *)
Fixpoint pushAll {T : Type} (N : Z) (roundScore : Q -> Q) (l : list (T * Q))
    (q : BinQueue (T * Q)) : result (BinQueue (T * Q)) :=
  match l with
  | [] => Ok q
  | x :: l' =>
      match push N roundScore x (snd x) q with
      | Ok q' => pushAll N roundScore l' q'
      | OutOfBounds i n => OutOfBounds i n
      end
  end.

(** The bucket a score is discretized to: the index that [scoreToIndex]
    computes. *)
Definition bucketOf (N : Z) (roundScore : Q -> Q) (score : Q) : Z :=
  Qtruncate (roundScore (score * inject_Z (N - 1))%Q).

End BinQueue.

(** ** HistogramQuantileProvider.hpp *)

Module HistogramQuantileProvider.

Abbreviation EdgeIdType := nat.

(** The arithmetic of [int]: 32 bits, two's complement.  A signed
    overflow, which C++ leaves undefined, wraps around. *)
Definition INT_MAX : Z := 2147483647.

Definition wrap32 (z : Z) : Z := (z + 2147483648) mod 4294967296 - 2147483648.

(** Modelled from the spec: [Histogram.hpp] is not among the sources.  A
    histogram is a fixed-size array of counts over the discretized affinity
    bins; [sum()] is its total count, [inc(bin)] increments one counter,
    [+=] adds bin-wise and [clear()] zeroes every counter.  The array is a
    map from bin index to count of which the bins [0 .. Bins-1] are the
    histogram; a bin index outside this range is undefined behaviour in the
    source and is excluded where it matters ([binExists]). *)
Definition Histogram := nat -> nat.

Section WithBins.

(** Template parameters [Q] (here [Qpct], the percentile) and [Bins]. *)
Variable Qpct : Z.
Variable Bins : Z.

(** [discretize<int>(affinity, Bins)] and [undiscretize<Precision>(bin,
    Bins)] of [discretize.hpp], which is not among the sources. *)
Variable discretize : Q -> Z -> Z.
Variable undiscretize : Z -> Z -> Q.

Definition hist_clear : Histogram := fun _ => O.

Definition hist_inc (h : Histogram) (bin : Z) : Histogram :=
  fun i => if decide (i = Z.to_nat bin) then S (h i) else h i.

Definition hist_add (h other : Histogram) : Histogram :=
  fun i => (h i + other i)%nat.

Definition hist_sum (h : Histogram) : nat :=
  sum_list (map h (seq 0 (Z.to_nat Bins))).

(** The provider holds one histogram per edge of the region graph
    ([_histograms(regionGraph)]).  An edge id beyond the map is undefined
    behaviour in the source; here such a read yields an empty histogram and
    such a write is dropped. *)
Record Provider : Type := mkProvider { _histograms : list Histogram }.

Definition hist_at (p : Provider) (e : EdgeIdType) : Histogram :=
  default hist_clear (_histograms p !! e).

Definition addAffinity (p : Provider) (e : EdgeIdType) (affinity : Q) : Provider :=
  let bin := discretize affinity Bins in
  mkProvider (<[e := hist_inc (hist_at p e) bin]> (_histograms p)).

Definition notifyEdgeMerge (p : Provider) (from to : EdgeIdType) : Provider :=
  let p1 := mkProvider (<[to := hist_add (hist_at p to) (hist_at p from)]> (_histograms p)) in
  mkProvider (<[from := hist_clear]> (_histograms p1)).

(** The bin scan of [operator[]]: [fuel] bins are left, [bin] is the loop
    counter and [sum] the running sum, an [int]; the result is the value of
    [bin] when the loop is left.  The counts of a histogram are read as
    [int]s. *)
Fixpoint scanBins (fuel : nat) (h : Histogram) (pivot : Z) (bin sum : Z) : Z :=
  match fuel with
  | O => bin
  | S fuel' =>
      let sum' := wrap32 (sum + Z.of_nat (h (Z.to_nat bin))) in
      if sum' >=? pivot then bin
      else scanBins fuel' h pivot (bin + 1) sum'
  end.

(** [int pivot = Q*_histograms[e].sum()/100 + 1]: the product is an [int],
    the division truncates. *)
Definition pivot (h : Histogram) : Z :=
  Z.quot (wrap32 (Qpct * Z.of_nat (hist_sum h))) 100 + 1.

Definition quantileBin (h : Histogram) : Z :=
  scanBins (Z.to_nat Bins) h (pivot h) 0 0.

(** The run of [operator[]] on [h] stays within the range of [int]: the
    number of samples and its product with [Q] are [int]s. *)
Definition fitsInt (h : Histogram) : Prop :=
  Z.of_nat (hist_sum h) <= INT_MAX /\
  - INT_MAX - 1 <= Qpct * Z.of_nat (hist_sum h) <= INT_MAX.

(** [operator[]] *)
Definition score (p : Provider) (e : EdgeIdType) : Q :=
  undiscretize (quantileBin (hist_at p e)) Bins.

(** The calls made on a provider while the graph is built and merged. *)
Inductive call : Type :=
| AddAffinity (e : EdgeIdType) (affinity : Q)
| NotifyEdgeMerge (from to : EdgeIdType).

Definition run_call (p : Provider) (c : call) : Provider :=
  match c with
  | AddAffinity e affinity => addAffinity p e affinity
  | NotifyEdgeMerge from to => notifyEdgeMerge p from to
  end.

Definition run_calls (p : Provider) (cs : list call) : Provider :=
  foldl run_call p cs.

(** Total bin count summed over all edge histograms. *)
Definition totalCount (p : Provider) : nat :=
  sum_list (map hist_sum (_histograms p)).

Definition isAdd (c : call) : bool :=
  match c with AddAffinity _ _ => true | NotifyEdgeMerge _ _ => false end.

Definition countAdds (cs : list call) : nat :=
  length (List.filter isAdd cs).

(** The provider of a graph with [n] edges: one empty histogram per edge. *)
Definition newProvider (n : nat) : Provider := mkProvider (replicate n hist_clear).

(** A call the source is defined on, for a provider of [n] edges: the edge
    ids exist, an added affinity is discretized to one of the [Bins] bins,
    and an edge merge names two different edges. *)
Definition edgeExists (p : Provider) (e : EdgeIdType) : bool :=
  (e <? length (_histograms p))%nat.

Definition binExists (bin : Z) : bool := (0 <=? bin) && (bin <? Bins).

Definition validCall (n : nat) (c : call) : bool :=
  match c with
  | AddAffinity e affinity =>
      (e <? n)%nat && binExists (discretize affinity Bins)
  | NotifyEdgeMerge from to =>
      (from <? n)%nat && (to <? n)%nat && negb (from =? to)%nat
  end.

End WithBins.

(** Modelled from the spec: [discretize.hpp] is not among the sources.  A
    value in [0,1] is discretized into one of [levels] equal buckets, the
    value 1 falling into the last one, and a bucket is undiscretized to a
    representative value inside it (here its midpoint). *)
Definition uniformDiscretize (value : Q) (levels : Z) : Z :=
  Z.min (Qtruncate (value * inject_Z levels)) (levels - 1).

Definition uniformUndiscretize (bin levels : Z) : Q :=
  ((inject_Z bin + (1 # 2)) / inject_Z levels)%Q.

End HistogramQuantileProvider.

(** ** IterativeRegionMerging.hpp *)

Module IterativeRegionMerging.

Abbreviation NodeIdType := nat.
Abbreviation EdgeIdType := nat.

(** Modelled from the spec: [RegionGraph.hpp] is not among the sources.
    The engine is written against the capabilities of the region graph
    collaborator: edge count, endpoint lookup by edge id, incident-edge
    enumeration per node, opposite-endpoint lookup, edge lookup between two
    nodes (with [None] for the [NoEdge] sentinel), edge relocation and edge
    removal. *)
Class RegionGraph (G : Type) : Type := {
  numEdges : G -> nat;
  edge_u : G -> EdgeIdType -> NodeIdType;
  edge_v : G -> EdgeIdType -> NodeIdType;
  incEdges : G -> NodeIdType -> list EdgeIdType;
  getOpposite : G -> NodeIdType -> EdgeIdType -> NodeIdType;
  findEdge : G -> NodeIdType -> NodeIdType -> option EdgeIdType;
  moveEdge : G -> EdgeIdType -> NodeIdType -> NodeIdType -> G;
  removeEdge : G -> EdgeIdType -> G
}.

(** The template parameter [EdgeScoringFunction]: a callable that scores an
    edge (and may change its own state doing so), a node-merge notification
    and an edge-merge notification. *)
Class EdgeScoringFunction (F : Type) : Type := {
  scoreOf : F -> EdgeIdType -> Q * F;
  notifyNodeMerge : F -> NodeIdType -> NodeIdType -> F;
  notifyEdgeMerge : F -> EdgeIdType -> EdgeIdType -> F
}.

(** [RegionGraphType::EdgeMap<V>]: a value for every edge id. *)
Definition EdgeMap (V : Type) : Type := EdgeIdType -> V.

Definition set_at {V : Type} (m : EdgeMap V) (e : EdgeIdType) (v : V) : EdgeMap V :=
  fun x => if decide (x = e) then v else m x.

(** The two [assert]s of the source (taken as enabled: a failed assertion
    aborts the call), and the ways a call can end.  [OutOfFuel] is a loop
    cut short by the bound on its rounds; [mergeUntil] never ends so
    (see [mergeUntil_terminates]). *)
Inductive failure : Type :=
| MonotonicityViolated     (* assert(newScore >= score) *)
| MoveEdgeAssertion.       (* assert(findEdge(a, neighbor) == neighborEdge) *)

Inductive outcome (A : Type) : Type :=
| Done (a : A)
| Failed (why : failure)
| OutOfFuel.
Arguments Done {A} a.
Arguments Failed {A} why.
Arguments OutOfFuel {A}.

Definition bind {A B : Type} (x : outcome A) (k : A -> outcome B) : outcome B :=
  match x with
  | Done a => k a
  | Failed why => Failed why
  | OutOfFuel => OutOfFuel
  end.

Definition Qgt_bool (x y : Q) : bool := negb (Qle_bool x y).

(** *** The union-find forest [_rootPaths] *)

Definition isRoot (rootPaths : gmap NodeIdType NodeIdType) (id : NodeIdType) : bool :=
  bool_decide (rootPaths !! id = None).

(** [while (!isRoot(root)) root = _rootPaths.at(root);] with at most [fuel]
    parent links followed. *)
Fixpoint walkToRoot (fuel : nat) (rootPaths : gmap NodeIdType NodeIdType)
    (root : NodeIdType) : option NodeIdType :=
  match rootPaths !! root with
  | None => Some root
  | Some parent =>
      match fuel with
      | O => None
      | S fuel' => walkToRoot fuel' rootPaths parent
      end
  end.

(** [while (id != root) { next = _rootPaths.at(id); _rootPaths[id] = root;
    id = next; }] *)
Fixpoint compressPath (fuel : nat) (rootPaths : gmap NodeIdType NodeIdType)
    (id root : NodeIdType) : option (gmap NodeIdType NodeIdType) :=
  if decide (id = root) then Some rootPaths
  else match fuel with
       | O => None
       | S fuel' =>
           match rootPaths !! id with
           | None => None
           | Some next => compressPath fuel' (<[id := root]> rootPaths) next root
           end
       end.

(** [getRoot] returns the root and leaves the forest compressed.  [None]
    stands for a call that does not return: the parent links from [id] run
    into a cycle (each loop is given as many rounds as the map has
    entries, which is enough in a forest). *)
Definition getRoot (rootPaths : gmap NodeIdType NodeIdType) (id : NodeIdType)
    : option (NodeIdType * gmap NodeIdType NodeIdType) :=
  match rootPaths !! id with
  | None => Some (id, rootPaths)
  | Some parent =>
      match walkToRoot (size rootPaths) rootPaths parent with
      | None => None
      | Some root =>
          if decide (parent = root) then Some (root, rootPaths)
          else match compressPath (size rootPaths) rootPaths id root with
               | None => None
               | Some rootPaths' => Some (root, rootPaths')
               end
      end
  end.

(** [extractSegmentation] on the flat sequence [segmentation.data()]. *)
Fixpoint extractSegmentation (rootPaths : gmap NodeIdType NodeIdType)
    (segmentation : list NodeIdType)
    : option (gmap NodeIdType NodeIdType * list NodeIdType) :=
  match segmentation with
  | [] => Some (rootPaths, [])
  | id :: rest =>
      match getRoot rootPaths id with
      | None => None
      | Some (root, rootPaths1) =>
          match extractSegmentation rootPaths1 rest with
          | None => None
          | Some (rootPaths2, rest') => Some (rootPaths2, root :: rest')
          end
      end
  end.

(** [pathTo m x r k]: following the parent links from [x] ends, after [k]
    links, at the root [r]. *)
Inductive pathTo (m : gmap NodeIdType NodeIdType)
    : NodeIdType -> NodeIdType -> nat -> Prop :=
| path_root x : m !! x = None -> pathTo m x x O
| path_step x p r k : m !! x = Some p -> pathTo m p r k -> pathTo m x r (S k).

(** The invariant of [_rootPaths]: following parent links from any node
    terminates at a root. *)
Definition wfForest (m : gmap NodeIdType NodeIdType) : Prop :=
  forall x, exists r k, pathTo m x r k.

(** [b] is a root and [a] belongs to another tree: the situation in which
    the engine absorbs region [b] into region [a]. *)
Definition distinctRegions (m : gmap NodeIdType NodeIdType) (a b : NodeIdType) : bool :=
  isRoot m b &&
  match walkToRoot (size m) m a with
  | Some ra => negb (ra =? b)%nat
  | None => false
  end.

(** *** The edge queue

    [std::priority_queue<EdgeIdType, std::vector<EdgeIdType>, EdgeCompare>]
    is the standard library's; it is taken by its contract: [top] is an
    element that the comparator orders before no other element of the
    queue, [pop] removes it, [push] adds an element. *)

Definition EdgeCompare (edgeScores : EdgeMap Q) (a b : EdgeIdType) : bool :=
  if Qeq_bool (edgeScores a) (edgeScores b) then (b <? a)%nat
  else Qgt_bool (edgeScores a) (edgeScores b).

Definition queue_top_from (edgeScores : EdgeMap Q) (first : EdgeIdType)
    (rest : list EdgeIdType) : EdgeIdType :=
  fold_left (fun best x => if EdgeCompare edgeScores best x then x else best)
            rest first.

Definition queue_top (edgeScores : EdgeMap Q) (queue : list EdgeIdType)
    : option EdgeIdType :=
  match queue with
  | [] => None
  | first :: rest => Some (queue_top_from edgeScores first rest)
  end.

Fixpoint remove_first (x : EdgeIdType) (queue : list EdgeIdType) : list EdgeIdType :=
  match queue with
  | [] => []
  | y :: rest => if decide (x = y) then rest else y :: remove_first x rest
  end.

Definition queue_pop (edgeScores : EdgeMap Q) (queue : list EdgeIdType)
    : list EdgeIdType :=
  match queue_top edgeScores queue with
  | None => queue
  | Some t => remove_first t queue
  end.

Definition queue_push (e : EdgeIdType) (queue : list EdgeIdType) : list EdgeIdType :=
  queue ++ [e].

(** The order in which the queue hands out its elements when it is popped
    until empty: [while (size() > 0) { out.push_back(top()); pop(); }], at
    most [fuel] rounds. *)
Fixpoint popOrder (edgeScores : EdgeMap Q) (fuel : nat) (queue : list EdgeIdType)
    : list EdgeIdType :=
  match fuel with
  | O => []
  | S fuel' =>
      match queue_top edgeScores queue with
      | None => []
      | Some t => t :: popOrder edgeScores fuel' (queue_pop edgeScores queue)
      end
  end.

(** *** The engine *)

Record Engine (G : Type) : Type := mkEngine {
  _regionGraph : G;
  _edgeScores : EdgeMap Q;
  _stale : EdgeMap bool;
  _deleted : EdgeMap bool;
  _edgeQueue : list EdgeIdType;
  _rootPaths : gmap NodeIdType NodeIdType;
  _mergedUntil : Q
}.
Arguments mkEngine {G} _ _ _ _ _ _ _.
Arguments _regionGraph {G} _.
Arguments _edgeScores {G} _.
Arguments _stale {G} _.
Arguments _deleted {G} _.
Arguments _edgeQueue {G} _.
Arguments _rootPaths {G} _.
Arguments _mergedUntil {G} _.

Section Engine.

Context {G F : Type} `{RegionGraph G} `{EdgeScoringFunction F}.

(** The constructor; the edge maps start value-initialised. *)
Definition create (initialRegionGraph : G) : Engine G :=
  mkEngine initialRegionGraph (fun _ => 0%Q) (fun _ => false) (fun _ => false)
           [] ∅ 0%Q.

Definition set_regionGraph (s : Engine G) (g : G) : Engine G :=
  mkEngine g (_edgeScores s) (_stale s) (_deleted s) (_edgeQueue s)
           (_rootPaths s) (_mergedUntil s).

Definition set_edgeScore (s : Engine G) (e : EdgeIdType) (x : Q) : Engine G :=
  mkEngine (_regionGraph s) (set_at (_edgeScores s) e x) (_stale s) (_deleted s)
           (_edgeQueue s) (_rootPaths s) (_mergedUntil s).

Definition set_stale (s : Engine G) (e : EdgeIdType) (x : bool) : Engine G :=
  mkEngine (_regionGraph s) (_edgeScores s) (set_at (_stale s) e x) (_deleted s)
           (_edgeQueue s) (_rootPaths s) (_mergedUntil s).

Definition set_deleted (s : Engine G) (e : EdgeIdType) (x : bool) : Engine G :=
  mkEngine (_regionGraph s) (_edgeScores s) (_stale s) (set_at (_deleted s) e x)
           (_edgeQueue s) (_rootPaths s) (_mergedUntil s).

Definition set_edgeQueue (s : Engine G) (q : list EdgeIdType) : Engine G :=
  mkEngine (_regionGraph s) (_edgeScores s) (_stale s) (_deleted s) q
           (_rootPaths s) (_mergedUntil s).

Definition set_rootPaths (s : Engine G) (m : gmap NodeIdType NodeIdType) : Engine G :=
  mkEngine (_regionGraph s) (_edgeScores s) (_stale s) (_deleted s)
           (_edgeQueue s) m (_mergedUntil s).

Definition set_mergedUntil (s : Engine G) (t : Q) : Engine G :=
  mkEngine (_regionGraph s) (_edgeScores s) (_stale s) (_deleted s)
           (_edgeQueue s) (_rootPaths s) t.

Definition scoreEdge (e : EdgeIdType) (s : Engine G) (f : F) : Q * Engine G * F :=
  let '(score, f') := scoreOf f e in
  (score, set_edgeQueue (set_edgeScore s e score) (queue_push e (_edgeQueue s)), f').

(** The body of the loop of [mergeRegions] over the edges incident to [b],
    for one [neighborEdge]. *)
Definition updateIncidentEdge (e : EdgeIdType) (a b : NodeIdType)
    (neighborEdge : EdgeIdType) (sf : Engine G * F) : outcome (Engine G * F) :=
  let '(s, f) := sf in
  if decide (neighborEdge = e) then Done (s, f)
  else
    let g := _regionGraph s in
    let neighbor := getOpposite g b neighborEdge in
    match findEdge g a neighbor with
    | None =>
        let g' := moveEdge g neighborEdge a neighbor in
        if decide (findEdge g' a neighbor = Some neighborEdge)
        then Done (set_stale (set_regionGraph s g') neighborEdge true, f)
        else Failed MoveEdgeAssertion
    | Some aNeighborEdge =>
        if Qgt_bool (_edgeScores s neighborEdge) (_edgeScores s aNeighborEdge)
        then
          Done (set_deleted s neighborEdge true,
                notifyEdgeMerge f neighborEdge aNeighborEdge)
        else
          let f' := notifyEdgeMerge f aNeighborEdge neighborEdge in
          let g' := moveEdge (removeEdge g aNeighborEdge) neighborEdge a neighbor in
          if decide (findEdge g' a neighbor = Some neighborEdge)
          then Done (set_deleted
                       (set_stale (set_regionGraph s g') neighborEdge true)
                       aNeighborEdge true, f')
          else Failed MoveEdgeAssertion
    end.

Definition mergeRegions (e : EdgeIdType) (sf : Engine G * F) : outcome (Engine G * F) :=
  let '(s, f) := sf in
  let g := _regionGraph s in
  let a := edge_u g e in
  let b := edge_v g e in
  let f1 := notifyNodeMerge f b a in
  let s1 := set_rootPaths s (<[b := a]> (_rootPaths s)) in
  let s2 := fold_left (fun s' neighborEdge => set_stale s' neighborEdge true)
                      (incEdges g a) s1 in
  let neighborEdges := incEdges g b in
  fold_left (fun acc neighborEdge => bind acc (updateIncidentEdge e a b neighborEdge))
            neighborEdges (Done (s2, f1)).

(** The [while (_edgeQueue.size() > 0)] loop of [mergeUntil], at most
    [fuel] rounds. *)
Fixpoint mergeLoop (fuel : nat) (threshold : Q) (sf : Engine G * F)
    : outcome (Engine G * F) :=
  match fuel with
  | O => OutOfFuel
  | S fuel' =>
      let '(s, f) := sf in
      match queue_top (_edgeScores s) (_edgeQueue s) with
      | None => Done (s, f)
      | Some next =>
          let score := _edgeScores s next in
          if Qle_bool threshold score then Done (s, f)
          else
            let s1 := set_edgeQueue s (queue_pop (_edgeScores s) (_edgeQueue s)) in
            if _deleted s1 next then mergeLoop fuel' threshold (s1, f)
            else if _stale s1 next then
              let '(newScore, s2, f2) := scoreEdge next s1 f in
              let s3 := set_stale s2 next false in
              if Qle_bool score newScore then mergeLoop fuel' threshold (s3, f2)
              else Failed MonotonicityViolated
            else
              match mergeRegions next (s1, f) with
              | Done sf' => mergeLoop fuel' threshold sf'
              | Failed why => Failed why
              | OutOfFuel => OutOfFuel
              end
      end
  end.

(** A number of rounds that the loop never exceeds (see
    [mergeLoop_terminates]): every round pops an entry, and only a stale
    entry is pushed back, with its flag cleared. *)
Definition loopFuel (s : Engine G) : nat :=
  let n := length (_edgeQueue s) in S (n * S n + n).

(** The seed phase: [for (e = 0; e < edges().size(); e++) scoreEdge(e)]. *)
Definition scoreAllEdges (sf : Engine G * F) : Engine G * F :=
  fold_left (fun '(s, f) e => let '(_, s', f') := scoreEdge e s f in (s', f'))
            (seq 0 (numEdges (_regionGraph (fst sf)))) sf.

Definition mergeUntil (threshold : Q) (sf : Engine G * F) : outcome (Engine G * F) :=
  let '(s, f) := sf in
  if Qle_bool threshold (_mergedUntil s) then Done (s, f)
  else
    let sf1 := if Qeq_bool (_mergedUntil s) 0 then scoreAllEdges (s, f) else (s, f) in
    match mergeLoop (loopFuel (fst sf1)) threshold sf1 with
    | Done (s2, f2) => Done (set_mergedUntil s2 threshold, f2)
    | Failed why => Failed why
    | OutOfFuel => OutOfFuel
    end.

(** What happens to the engine after a merge: further regions are merged
    (each time a root into a node of another tree), and segmentations are
    extracted, which compresses paths. *)
Inductive engineStep : Engine G * F -> Engine G * F -> Prop :=
| step_merge s f e sf' :
    distinctRegions (_rootPaths s) (edge_u (_regionGraph s) e)
                    (edge_v (_regionGraph s) e) = true ->
    mergeRegions e (s, f) = Done sf' ->
    engineStep (s, f) sf'
| step_extract s f segmentation m' segmentation' :
    extractSegmentation (_rootPaths s) segmentation = Some (m', segmentation') ->
    engineStep (s, f) (set_rootPaths s m', f).

(** Successive calls of [mergeUntil] with the given thresholds. *)
Definition mergeUntilAll (thresholds : list Q) (sf : Engine G * F)
    : outcome (Engine G * F) :=
  fold_left (fun acc t => bind acc (mergeUntil t)) thresholds (Done sf).

End Engine.

Arguments mergeRegions : simpl never.
Arguments updateIncidentEdge : simpl never.
Arguments scoreEdge : simpl never.

End IterativeRegionMerging.

(** ** Collaborators of the engine *)

Module Collaborators.

Import IterativeRegionMerging.

(** Modelled from the spec: [RegionGraph.hpp] is not among the sources.  A
    region graph with stable dense edge ids: the endpoints of every edge,
    and for every node the list of its incident edges.  Removing an edge
    takes it out of the incidence lists of its endpoints; relocating an edge
    removes it, gives it the new endpoints and appends it to their
    incidence lists. *)
Record ListGraph : Type := mkListGraph {
  lg_edges : list (NodeIdType * NodeIdType);
  lg_inc : NodeIdType -> list EdgeIdType
}.

Definition lg_edge (g : ListGraph) (e : EdgeIdType) : NodeIdType * NodeIdType :=
  nth e (lg_edges g) (O, O).

Definition lg_getOpposite (g : ListGraph) (n : NodeIdType) (e : EdgeIdType) : NodeIdType :=
  if decide (fst (lg_edge g e) = n) then snd (lg_edge g e) else fst (lg_edge g e).

Definition lg_findEdge (g : ListGraph) (u v : NodeIdType) : option EdgeIdType :=
  List.find (fun e => bool_decide (lg_getOpposite g u e = v)) (lg_inc g u).

Definition lg_removeEdge (g : ListGraph) (e : EdgeIdType) : ListGraph :=
  let '(u, v) := lg_edge g e in
  mkListGraph (lg_edges g)
    (fun n => if decide (n = u \/ n = v)
              then List.filter (fun x => negb (bool_decide (x = e))) (lg_inc g n)
              else lg_inc g n).

Definition lg_moveEdge (g : ListGraph) (e : EdgeIdType) (u v : NodeIdType) : ListGraph :=
  let g1 := lg_removeEdge g e in
  mkListGraph (<[e := (u, v)]> (lg_edges g1))
    (fun n => lg_inc g1 n ++ (if decide (n = u) then [e] else [])
                          ++ (if decide (n = v) then [e] else [])).

#[export] Instance ListGraph_RegionGraph : RegionGraph ListGraph := {
  numEdges g := length (lg_edges g);
  edge_u g e := fst (lg_edge g e);
  edge_v g e := snd (lg_edge g e);
  incEdges := lg_inc;
  getOpposite := lg_getOpposite;
  findEdge := lg_findEdge;
  moveEdge := lg_moveEdge;
  removeEdge := lg_removeEdge
}.

(** The graph with the given edges, edge [i] being the [i]-th pair. *)
Definition graph_of_edges (edges : list (NodeIdType * NodeIdType)) : ListGraph :=
  mkListGraph edges
    (fun n => List.filter
                (fun e => let '(u, v) := nth e edges (O, O) in
                          bool_decide (u = n) || bool_decide (v = n))
                (seq 0 (length edges))).

(** A scoring function that scores every edge from a fixed table and keeps
    a log of the edge-merge notifications it receives. *)
Record TableScoring : Type := mkTableScoring {
  ts_table : EdgeIdType -> Q;
  ts_edgeMerges : list (EdgeIdType * EdgeIdType)
}.

#[export] Instance TableScoring_EdgeScoringFunction : EdgeScoringFunction TableScoring := {
  scoreOf f e := (ts_table f e, f);
  notifyNodeMerge f _ _ := f;
  notifyEdgeMerge f from to :=
    mkTableScoring (ts_table f) (ts_edgeMerges f ++ [(from, to)])
}.

Section ProviderScoring.

Variables (Qpct Bins : Z) (undiscretize : Z -> Z -> Q).

(** Modelled from the spec: [StatisticsProvider.hpp], the base class of the
    provider, is not among the sources.  This is the histogram quantile
    provider as the scoring function of the engine: the provider defines no
    node-merge handler of its own and keeps statistics per edge only, so a
    node merge leaves it unchanged. *)
Definition Provider_EdgeScoringFunction
    : EdgeScoringFunction HistogramQuantileProvider.Provider := {|
  scoreOf p e := (HistogramQuantileProvider.score Qpct Bins undiscretize p e, p);
  notifyNodeMerge p _ _ := p;
  notifyEdgeMerge := HistogramQuantileProvider.notifyEdgeMerge
|}.

End ProviderScoring.

(** Small graphs and score tables to run the engine on: a triangle whose
    two outer edges have the same score, and the chain 1-2-3-4. *)
Definition triangle : ListGraph := graph_of_edges [(1, 2); (1, 3); (2, 3)]%nat.

Definition triangleScores : TableScoring :=
  mkTableScoring (fun e => if decide (e = O) then (1 # 10)%Q else (1 # 2)%Q) [].

Definition chain : ListGraph := graph_of_edges [(1, 2); (2, 3); (3, 4)]%nat.

Definition chainScores : TableScoring :=
  mkTableScoring (fun e => match e with
                           | O => (1 # 10)%Q
                           | S O => (3 # 10)%Q
                           | _ => (2 # 10)%Q
                           end) [].

End Collaborators.

(** * Part II: properties *)

Lemma Qtruncate_nonneg (x : Q) : (0 <= x)%Q -> Qtruncate x = Qfloor x.
Proof.
  destruct x as [p d]. unfold Qle, Qtruncate, Qfloor. simpl. intros Hp.
  apply Z.quot_div_nonneg; lia.
Qed.

Lemma Qtruncate_neg_iff (x : Q) : Qtruncate x < 0 <-> (x <= inject_Z (-1))%Q.
Proof.
  destruct x as [p d]. unfold Qle, Qtruncate. simpl.
  pose proof (Z.quot_rem' p (Zpos d)) as E.
  destruct (Z_lt_le_dec p 0) as [Hp | Hp].
  - pose proof (Z.rem_bound_pos_neg p (Zpos d) ltac:(lia) ltac:(lia)). nia.
  - pose proof (Z.rem_bound_pos p (Zpos d) ltac:(lia) ltac:(lia)). nia.
Qed.

Lemma Qtruncate_ge_iff (x : Q) (n : Z) :
  0 < n -> n <= Qtruncate x <-> (inject_Z n <= x)%Q.
Proof.
  intros Hn. destruct x as [p d]. unfold Qle, Qtruncate. simpl.
  pose proof (Z.quot_rem' p (Zpos d)) as E.
  destruct (Z_lt_le_dec p 0) as [Hp | Hp].
  - pose proof (Z.rem_bound_pos_neg p (Zpos d) ltac:(lia) ltac:(lia)). nia.
  - pose proof (Z.rem_bound_pos p (Zpos d) ltac:(lia) ltac:(lia)). nia.
Qed.

Lemma Qtruncate_mono (x y : Q) : (x <= y)%Q -> Qtruncate x <= Qtruncate y.
Proof.
  intros Hxy. destruct (Z_lt_le_dec (Qtruncate y) (Qtruncate x)) as [Hlt | Hle];
    [exfalso | exact Hle].
  destruct (Z_lt_le_dec 0 (Qtruncate x)) as [Hpos | Hneg].
  - pose proof (proj1 (Qtruncate_ge_iff x (Qtruncate x) Hpos) ltac:(lia)) as Hx.
    pose proof (proj2 (Qtruncate_ge_iff y (Qtruncate x) Hpos)
                  (Qle_trans _ _ _ Hx Hxy)).
    lia.
  - destruct x as [p d], y as [p' d']. unfold Qle, Qtruncate in *. simpl in *.
    pose proof (Z.quot_rem' p (Zpos d)) as E.
    pose proof (Z.quot_rem' p' (Zpos d')) as E'.
    destruct (Z_lt_le_dec p 0) as [Hp | Hp].
    + pose proof (Z.rem_bound_pos_neg p (Zpos d) ltac:(lia) ltac:(lia)).
      destruct (Z_lt_le_dec p' 0) as [Hp' | Hp'].
      * pose proof (Z.rem_bound_pos_neg p' (Zpos d') ltac:(lia) ltac:(lia)). nia.
      * pose proof (Z.rem_bound_pos p' (Zpos d') ltac:(lia) ltac:(lia)). nia.
    + pose proof (Z.rem_bound_pos p (Zpos d) ltac:(lia) ltac:(lia)).
      destruct (Z_lt_le_dec p' 0) as [Hp' | Hp'].
      * pose proof (Z.rem_bound_pos_neg p' (Zpos d') ltac:(lia) ltac:(lia)). nia.
      * pose proof (Z.rem_bound_pos p' (Zpos d') ltac:(lia) ltac:(lia)). nia.
Qed.

(** ** The rounding of [float] and [double]

    Rounding to the nearest number of [prec] significant bits is monotone
    and leaves the integers below [2^prec] alone. *)

Module RoundingFacts.

Local Open Scope Q_scope.

Lemma two_pow_pos (e : Z) : 0 < 2 ^ e.
Proof. apply Qpower_0_lt. reflexivity. Qed.

Lemma inject_pow2 (n : Z) : (0 <= n)%Z -> inject_Z (2 ^ n) == 2 ^ n.
Proof. intros Hn. apply (Zpower_Qpower 2 n Hn). Qed.

Lemma two_pow_plus (n m : Z) : 2 ^ (n + m) == 2 ^ n * 2 ^ m.
Proof. apply Qpower_plus. discriminate. Qed.

Lemma two_pow_split (k n m : Z) : k = (n + m)%Z -> 2 ^ k == 2 ^ n * 2 ^ m.
Proof. intros ->. apply two_pow_plus. Qed.

Lemma two_pow_cancel (e : Z) : 2 ^ (- e) * 2 ^ e == 1.
Proof. rewrite <- two_pow_plus. replace (- e + e)%Z with 0%Z by lia. reflexivity. Qed.

Lemma binade_spec (x : Q) : 0 < x -> 2 ^ binade x <= x < 2 ^ (binade x + 1).
Proof.
  intros Hx. unfold binade. destruct (Qle_bool 1 x) eqn:H1.
  - apply Qle_bool_iff in H1.
    assert (Hn : (1 <= Qfloor x)%Z).
    { change 1%Z with (Qfloor 1). by apply Qfloor_resp_le. }
    destruct (Z.log2_spec (Qfloor x) ltac:(lia)) as [Hlo Hhi].
    pose proof (Z.log2_nonneg (Qfloor x)) as Hk.
    split.
    + rewrite <- inject_pow2 by lia. eapply Qle_trans; [|apply Qfloor_le].
      by rewrite <- Zle_Qle.
    + eapply Qlt_le_trans; [apply Qlt_floor|].
      rewrite <- inject_pow2 by lia. rewrite <- Zle_Qle.
      unfold Z.succ in Hhi. lia.
  - assert (Hlt : x < 1).
    { apply Qnot_le_lt. intros Hle. apply Qle_bool_iff in Hle. congruence. }
    assert (Hy : 1 < / x).
    { rewrite <- (Qinv_involutive x) in Hlt.
      apply (Qinv_lt_contravar 1 (/ x)) ; [reflexivity | by apply Qinv_lt_0_compat |].
      exact Hlt. }
    set (c := Qceiling (/ x)).
    assert (Hc : (1 < c)%Z).
    { rewrite Zlt_Qlt. eapply Qlt_le_trans; [exact Hy | apply Qle_ceiling]. }
    destruct (Z.log2_up_spec c Hc) as [Hlo Hhi].
    pose proof (Z.log2_up_pos c Hc) as Hj.
    set (j := Z.log2_up c) in *. unfold Z.pred in Hlo.
    replace (j + -1)%Z with (j - 1)%Z in Hlo by lia.
    assert (Hyx : / / x == x) by apply Qinv_involutive.
    split.
    + rewrite Qpower_opp.
      destruct (Qlt_le_dec x (/ 2 ^ j)) as [Hbad | Hok]; [exfalso | exact Hok].
      rewrite <- Hyx in Hbad.
      apply (Qinv_lt_contravar (2 ^ j) (/ x)) in Hbad;
        [| apply two_pow_pos | by apply Qinv_lt_0_compat].
      pose proof (Qle_ceiling (/ x)) as Hceil. fold c in Hceil.
      assert (inject_Z c <= 2 ^ j).
      { rewrite <- inject_pow2 by lia. by rewrite <- Zle_Qle. }
      lra.
    + replace (- j + 1)%Z with (- (j - 1))%Z by lia. rewrite Qpower_opp.
      rewrite <- Hyx at 1.
      apply (Qinv_lt_contravar (2 ^ (j - 1)) (/ x));
        [apply two_pow_pos | by apply Qinv_lt_0_compat |].
      pose proof (Qceiling_lt (/ x)) as Hceil. fold c in Hceil.
      assert (2 ^ (j - 1) <= inject_Z (c - 1)).
      { rewrite <- inject_pow2 by lia. rewrite <- Zle_Qle. lia. }
      lra.
Qed.

Lemma binade_mono (x y : Q) : 0 < x -> x <= y -> (binade x <= binade y)%Z.
Proof.
  intros Hx Hxy.
  destruct (binade_spec x Hx) as [Hlo _].
  destruct (binade_spec y ltac:(lra)) as [_ Hhi].
  assert (Hlt : 2 ^ binade x < 2 ^ (binade y + 1)) by lra.
  apply Qpower_lt_compat_l_inv in Hlt; [lia | reflexivity].
Qed.

Lemma roundHalfEven_bounds (q : Q) :
  (Qfloor q <= roundHalfEven q <= Qfloor q + 1)%Z.
Proof.
  unfold roundHalfEven. destruct (_ ?= _); [destruct (Z.even _)| |]; lia.
Qed.

Lemma roundHalfEven_mono (q q' : Q) :
  q <= q' -> (roundHalfEven q <= roundHalfEven q')%Z.
Proof.
  intros Hq. pose proof (Qfloor_resp_le _ _ Hq) as Hm.
  destruct (Z_lt_le_dec (Qfloor q) (Qfloor q')) as [Hlt | Hge].
  - pose proof (roundHalfEven_bounds q). pose proof (roundHalfEven_bounds q'). lia.
  - assert (Heq : Qfloor q' = Qfloor q) by lia.
    unfold roundHalfEven. rewrite Heq.
    destruct (Qcompare_spec (2 * (q - inject_Z (Qfloor q))) 1) as [H1 | H1 | H1];
      destruct (Qcompare_spec (2 * (q' - inject_Z (Qfloor q))) 1) as [H2 | H2 | H2];
      try (destruct (Z.even (Qfloor q))); try lia; try lra.
Qed.

Lemma roundHalfEven_comp (q q' : Q) : q == q' -> roundHalfEven q = roundHalfEven q'.
Proof.
  intros Hq. apply Z.le_antisymm; apply roundHalfEven_mono; rewrite Hq; apply Qle_refl.
Qed.

Lemma roundHalfEven_Z (z : Z) : roundHalfEven (inject_Z z) = z.
Proof.
  unfold roundHalfEven. rewrite Qfloor_Z.
  replace (2 * (inject_Z z - inject_Z z) ?= 1) with Lt; [done|].
  symmetry. apply Qlt_alt.
  assert (H : 2 * (inject_Z z - inject_Z z) == 0) by ring.
  rewrite H. reflexivity.
Qed.

Section WithPrec.

Variable prec : Z.
Hypothesis prec_pos : (1 <= prec)%Z.

(** The rounding of a positive number. *)
Definition roundPos (x : Q) : Q :=
  let e := (binade x - (prec - 1))%Z in
  inject_Z (roundHalfEven (x * 2 ^ (- e))) * 2 ^ e.

Lemma mantissa_bounds (x : Q) :
  0 < x ->
  let e := (binade x - (prec - 1))%Z in
  2 ^ (prec - 1) <= x * 2 ^ (- e) < 2 ^ prec.
Proof.
  intros Hx e. destruct (binade_spec x Hx) as [Hlo Hhi].
  pose proof (two_pow_pos (- e)) as Hpos.
  split.
  - rewrite (two_pow_split (prec - 1) (binade x) (- e)) by (unfold e; lia).
    by apply Qmult_le_r.
  - rewrite (two_pow_split prec (binade x + 1) (- e)) by (unfold e; lia).
    by apply Qmult_lt_r.
Qed.

Lemma roundHalfEven_mantissa (x : Q) :
  0 < x ->
  let e := (binade x - (prec - 1))%Z in
  (2 ^ (prec - 1) <= roundHalfEven (x * 2 ^ (- e)) <= 2 ^ prec)%Z.
Proof.
  intros Hx e. destruct (mantissa_bounds x Hx) as [Hlo Hhi]. fold e in Hlo, Hhi.
  split.
  - rewrite <- (roundHalfEven_Z (2 ^ (prec - 1))). apply roundHalfEven_mono.
    by rewrite inject_pow2 by lia.
  - rewrite <- (roundHalfEven_Z (2 ^ prec)). apply roundHalfEven_mono.
    rewrite inject_pow2 by lia. lra.
Qed.

Lemma roundPos_bounds (x : Q) :
  0 < x -> 2 ^ binade x <= roundPos x <= 2 ^ (binade x + 1).
Proof.
  intros Hx. unfold roundPos. set (e := (binade x - (prec - 1))%Z).
  destruct (roundHalfEven_mantissa x Hx) as [Hlo Hhi]. fold e in Hlo, Hhi.
  pose proof (two_pow_pos e) as Hpos.
  split.
  - rewrite (two_pow_split (binade x) (prec - 1) e) by (unfold e; lia).
    apply Qmult_le_r; [done|].
    rewrite <- (inject_pow2 (prec - 1)) by lia. by rewrite <- Zle_Qle.
  - rewrite (two_pow_split (binade x + 1) prec e) by (unfold e; lia).
    apply Qmult_le_r; [done|].
    rewrite <- (inject_pow2 prec) by lia. by rewrite <- Zle_Qle.
Qed.

Lemma roundPos_pos (x : Q) : 0 < x -> 0 < roundPos x.
Proof.
  intros Hx. destruct (roundPos_bounds x Hx) as [Hlo _].
  pose proof (two_pow_pos (binade x)). lra.
Qed.

Lemma roundPos_mono (x y : Q) : 0 < x -> x <= y -> roundPos x <= roundPos y.
Proof.
  intros Hx Hxy. assert (Hy : 0 < y) by lra.
  pose proof (binade_mono x y Hx Hxy) as Hk.
  destruct (Z_lt_le_dec (binade x) (binade y)) as [Hlt | Hge].
  - destruct (roundPos_bounds x Hx) as [_ Hhi].
    destruct (roundPos_bounds y Hy) as [Hlo _].
    assert (2 ^ (binade x + 1) <= 2 ^ binade y).
    { apply Qpower_le_compat_l; [lia | discriminate]. }
    lra.
  - assert (Heq : binade y = binade x) by lia.
    unfold roundPos. rewrite Heq. set (e := (binade x - (prec - 1))%Z).
    apply Qmult_le_r; [apply two_pow_pos|].
    rewrite <- Zle_Qle. apply roundHalfEven_mono.
    apply Qmult_le_r; [apply two_pow_pos | exact Hxy].
Qed.

Lemma roundBinary_zero (x : Q) : x == 0 -> roundBinary prec x = 0.
Proof.
  intros Hx. unfold roundBinary. by rewrite (proj2 (Qeq_bool_iff x 0) Hx).
Qed.

Lemma roundBinary_pos (x : Q) : 0 < x -> roundBinary prec x == roundPos x.
Proof.
  intros Hx. unfold roundBinary.
  replace (Qeq_bool x 0) with false.
  2:{ symmetry. apply not_true_iff_false. rewrite Qeq_bool_iff. lra. }
  destruct x as [[|n|n] d]; [by compute in Hx | | by compute in Hx].
  unfold roundPos. simpl Qabs. simpl Qnum. simpl Z.sgn.
  cbv zeta. rewrite Z.mul_1_l. reflexivity.
Qed.

Lemma roundBinary_neg (x : Q) : x < 0 -> roundBinary prec x == - roundPos (- x).
Proof.
  intros Hx. unfold roundBinary.
  replace (Qeq_bool x 0) with false.
  2:{ symmetry. apply not_true_iff_false. rewrite Qeq_bool_iff. lra. }
  destruct x as [[|n|n] d]; [by compute in Hx | by compute in Hx |].
  unfold roundPos. simpl Qabs. simpl Qnum. simpl Z.sgn. simpl Qopp. cbv zeta.
  set (m := roundHalfEven _). set (e := (_ - _)%Z).
  replace (-1 * m)%Z with (- m)%Z by lia. rewrite inject_Z_opp. ring.
Qed.

Lemma roundBinary_mono (x y : Q) :
  x <= y -> roundBinary prec x <= roundBinary prec y.
Proof.
  intros Hxy.
  destruct (Q_dec x 0) as [[Hx | Hx] | Hx]; destruct (Q_dec y 0) as [[Hy | Hy] | Hy];
    try lra.
  - rewrite (roundBinary_neg x Hx), (roundBinary_neg y Hy).
    assert (roundPos (- y) <= roundPos (- x)); [|lra].
    apply roundPos_mono; lra.
  - rewrite (roundBinary_neg x Hx), (roundBinary_pos y Hy).
    pose proof (roundPos_pos (- x) ltac:(lra)). pose proof (roundPos_pos y Hy). lra.
  - rewrite (roundBinary_neg x Hx), (roundBinary_zero y Hy).
    pose proof (roundPos_pos (- x) ltac:(lra)). lra.
  - rewrite (roundBinary_pos x Hx), (roundBinary_pos y Hy). by apply roundPos_mono.
  - rewrite (roundBinary_zero x Hx), (roundBinary_pos y Hy).
    pose proof (roundPos_pos y Hy). lra.
  - rewrite (roundBinary_zero x Hx), (roundBinary_zero y Hy). lra.
Qed.

Lemma roundPos_Z (z : Z) :
  (0 < z < 2 ^ prec)%Z -> roundPos (inject_Z z) == inject_Z z.
Proof.
  intros [Hz Hmax].
  assert (Hk : binade (inject_Z z) = Z.log2 z).
  { unfold binade. replace (Qle_bool 1 (inject_Z z)) with true.
    - by rewrite Qfloor_Z.
    - symmetry. apply Qle_bool_iff. change 1 with (inject_Z 1).
      rewrite <- Zle_Qle. lia. }
  unfold roundPos. rewrite Hk.
  assert (Hlog : (Z.log2 z < prec)%Z) by (by apply Z.log2_lt_pow2).
  set (e := (Z.log2 z - (prec - 1))%Z).
  assert (He : (0 <= - e)%Z) by (unfold e; lia).
  rewrite (roundHalfEven_comp _ (inject_Z (z * 2 ^ (- e)))).
  2:{ rewrite inject_Z_mult, inject_pow2 by lia. reflexivity. }
  rewrite roundHalfEven_Z, inject_Z_mult, inject_pow2 by lia.
  rewrite <- Qmult_assoc, two_pow_cancel. ring.
Qed.

Lemma roundBinary_Z (z : Z) :
  (- 2 ^ prec < z < 2 ^ prec)%Z -> roundBinary prec (inject_Z z) == inject_Z z.
Proof.
  intros Hz. destruct (Z.lt_trichotomy z 0) as [Hneg | [-> | Hpos]].
  - rewrite roundBinary_neg by (change 0 with (inject_Z 0); by rewrite <- Zlt_Qlt).
    rewrite <- inject_Z_opp, roundPos_Z by lia. rewrite inject_Z_opp. ring.
  - reflexivity.
  - rewrite roundBinary_pos by (change 0 with (inject_Z 0); by rewrite <- Zlt_Qlt).
    apply roundPos_Z. lia.
Qed.

End WithPrec.

End RoundingFacts.

(** ** Bucket queue *)

Module BinQueueFacts.

Import BinQueue.

Section WithN.

Context {T : Type}.
Variable N : Z.
Hypothesis N_pos : 0 < N.
Variable roundScore : Q -> Q.

Lemma scoreToIndex_Ok (score : Q) (i : Z) :
  scoreToIndex N roundScore score = Ok i <->
  i = bucketOf N roundScore score /\ 0 <= i < N.
Proof.
  unfold scoreToIndex, bucketOf. rewrite Z.geb_leb.
  destruct (Z.ltb_spec (Qtruncate (roundScore (score * inject_Z (N - 1)))) 0);
    destruct (Z.leb_spec N (Qtruncate (roundScore (score * inject_Z (N - 1)))));
    simpl; split; try discriminate; try (intros [-> ?]; lia).
  - intros [= <-]. split; [reflexivity | lia].
  - intros [-> _]. reflexivity.
Qed.

Lemma scoreToIndex_fails (score : Q) :
  (exists i n, scoreToIndex N roundScore score = OutOfBounds i n) <->
  (bucketOf N roundScore score < 0 \/ N <= bucketOf N roundScore score).
Proof.
  unfold scoreToIndex, bucketOf. rewrite Z.geb_leb.
  destruct (Z.ltb_spec (Qtruncate (roundScore (score * inject_Z (N - 1)))) 0);
    destruct (Z.leb_spec N (Qtruncate (roundScore (score * inject_Z (N - 1)))));
    simpl; split; try (intros _; eauto; lia); try (intros (? & ? & [=])); try lia.
Qed.

(** The representation invariant of the queue: [N] bins, and [_minBin] is
    [-1] when every bin is empty and the smallest index of a non-empty bin
    otherwise. *)
Definition emptyBelow (bins : list (list T)) (k : nat) : Prop :=
  forall j b, (j < k)%nat -> bins !! j = Some b -> b = [].

Definition minBinOk (bins : list (list T)) (m : Z) : Prop :=
  (m = -1 /\ emptyBelow bins (length bins)) \/
  (0 <= m < N /\ bin bins m <> [] /\ emptyBelow bins (Z.to_nat m)).

Definition wfQueue (q : BinQueue T) : Prop :=
  length (_bins q) = Z.to_nat N /\ minBinOk (_bins q) (_minBin q).

Lemma emptyBelow_concat (bins : list (list T)) (k : nat) :
  emptyBelow bins k -> concat (take k bins) = [].
Proof.
  revert k. induction bins as [|b bins IH]; intros k Hk.
  - by rewrite take_nil.
  - destruct k as [|k]; [done|]. simpl.
    rewrite (Hk O b) by (simpl; first [lia | done]). simpl.
    apply IH. intros j b' Hj Hb'. apply (Hk (S j) b'); [lia | done].
Qed.

Lemma emptyBelow_all (bins : list (list T)) :
  emptyBelow bins (length bins) -> concat bins = [].
Proof.
  intros Hk. apply emptyBelow_concat in Hk. by rewrite firstn_all in Hk.
Qed.

Lemma wfQueue_empty_queue : wfQueue (empty_queue N).
Proof.
  split; simpl.
  - by rewrite length_replicate.
  - left. split; [done|]. intros j b _ Hb.
    apply lookup_replicate in Hb. tauto.
Qed.

Lemma bin_lookup (bins : list (list T)) (i : Z) (b : list T) :
  bins !! Z.to_nat i = Some b -> bin bins i = b.
Proof. unfold bin. by intros ->. Qed.

Lemma bin_nonempty_lookup (bins : list (list T)) (i : Z) :
  bin bins i <> [] -> bins !! Z.to_nat i = Some (bin bins i).
Proof.
  unfold bin. destruct (bins !! Z.to_nat i); simpl; [done | congruence].
Qed.

Lemma push_wfQueue (x : T) (score : Q) (q q' : BinQueue T) :
  wfQueue q -> push N roundScore x score q = Ok q' -> wfQueue q'.
Proof.
  intros [Hlen Hmin]. unfold push.
  destruct (scoreToIndex N roundScore score) as [i|] eqn:Hi; [|discriminate].
  apply scoreToIndex_Ok in Hi as [_ Hi]. intros [= <-].
  assert (Hlook : exists b, _bins q !! Z.to_nat i = Some b).
  { apply lookup_lt_is_Some. lia. }
  destruct Hlook as [b Hb].
  assert (Hnew : bin (alter (fun b => b ++ [x]) (Z.to_nat i) (_bins q)) i <> []).
  { unfold bin. rewrite list_lookup_alter_eq, Hb. simpl. by destruct b. }
  split; simpl; [by rewrite length_alter|].
  right. destruct Hmin as [[-> Hall] | (Hm & Hne & Hlow)]; simpl.
  - split; [lia|]. split; [done|].
    intros j b' Hj Hb'. rewrite list_lookup_alter_ne in Hb' by lia.
    apply (Hall j b'); [|done]. apply lookup_lt_Some in Hb'. lia.
  - replace (_minBin q =? -1) with false by (symmetry; apply Z.eqb_neq; lia).
    destruct (Z.min_spec i (_minBin q)) as [[Hlt ->] | [Hle ->]].
    + split; [lia|]. split; [done|].
      intros j b' Hj Hb'. rewrite list_lookup_alter_ne in Hb' by lia.
      apply (Hlow j b'); [lia | done].
    + split; [lia|]. split.
      * destruct (decide (i = _minBin q)) as [<-|Hneq]; [done|].
        unfold bin. rewrite list_lookup_alter_ne by lia. exact Hne.
      * intros j b' Hj Hb'. rewrite list_lookup_alter_ne in Hb' by lia.
        apply (Hlow j b'); [lia | done].
Qed.

Lemma nextNonEmpty_ok (bins : list (list T)) (fuel : nat) (i : Z) :
  length bins = Z.to_nat N -> Z.of_nat fuel = N - i -> 0 <= i ->
  emptyBelow bins (Z.to_nat i) ->
  minBinOk bins (nextNonEmpty fuel i bins).
Proof.
  intros Hlen. revert i. induction fuel as [|fuel IH]; intros i Hfuel Hi Hlow; simpl.
  - left. split; [done|]. replace (length bins) with (Z.to_nat i) by lia. done.
  - destruct (bin bins i) as [|y ys] eqn:Hb.
    + apply IH; [lia | lia |].
      intros j b Hj Hjb.
      destruct (decide (j = Z.to_nat i)) as [->|Hne].
      * apply bin_lookup in Hjb. congruence.
      * apply (Hlow j b); [lia | done].
    + right. split; [lia|]. split; [congruence | done].
Qed.

(** On a non-empty well-formed queue [top] and [pop] succeed: the front of
    the concatenated bins is returned and removed. *)
Lemma top_pop_wfQueue (q : BinQueue T) :
  wfQueue q -> empty q = false ->
  exists x q', top q = Some x /\ pop N q = Some q' /\ wfQueue q' /\
               concat (_bins q) = x :: concat (_bins q').
Proof.
  intros [Hlen Hmin] Hne. unfold empty in Hne. apply Z.eqb_neq in Hne.
  destruct Hmin as [[? _] | (Hm & Hb & Hlow)]; [lia|].
  unfold top, pop.
  replace (_minBin q <? 0) with false by (symmetry; apply Z.ltb_ge; lia).
  pose proof (bin_nonempty_lookup _ _ Hb) as Hlook.
  destruct (bin (_bins q) (_minBin q)) as [|x rest] eqn:Ebin; [done|].
  set (bins' := <[Z.to_nat (_minBin q) := rest]> (_bins q)).
  assert (Hlen' : length bins' = Z.to_nat N) by (unfold bins'; by rewrite length_insert).
  assert (Hlow' : emptyBelow bins' (Z.to_nat (_minBin q))).
  { intros j b Hj Hjb. unfold bins' in Hjb.
    rewrite list_lookup_insert_ne in Hjb by lia. by apply (Hlow j b). }
  assert (Hbin' : bin bins' (_minBin q) = rest).
  { apply bin_lookup. unfold bins'. apply list_lookup_insert_eq. lia. }
  eexists x, _. split; [done|]. split; [reflexivity|]. split.
  - split; simpl; [done|]. fold bins'. destruct rest as [|y ys].
    + apply nextNonEmpty_ok; [done | lia | lia | done].
    + right. split; [lia|]. split; [|done]. rewrite Hbin'. done.
  - simpl. fold bins'. unfold bins'.
    rewrite insert_take_drop by lia.
    rewrite <- (take_drop_middle _ _ _ Hlook) at 1.
    rewrite !concat_app. simpl.
    rewrite (emptyBelow_concat _ _ Hlow). reflexivity.
Qed.

Lemma popRounds_concat (fuel : nat) (q : BinQueue T) :
  wfQueue q -> (length (concat (_bins q)) <= fuel)%nat ->
  popRounds N fuel q = concat (_bins q).
Proof.
  revert q. induction fuel as [|fuel IH]; intros q Hwf Hlen; simpl.
  - destruct (concat (_bins q)); [done | simpl in Hlen; lia].
  - destruct (empty q) eqn:He.
    + unfold empty in He. apply Z.eqb_eq in He.
      destruct Hwf as [_ [[_ Hall] | (Hm & _)]]; [|lia].
      by rewrite emptyBelow_all.
    + destruct (top_pop_wfQueue q Hwf He) as (x & q' & -> & -> & Hwf' & Hc).
      rewrite Hc in *. simpl in Hlen. f_equal. apply IH; [done | lia].
Qed.

Lemma size_concat (q : BinQueue T) :
  wfQueue q -> size q = length (concat (_bins q)).
Proof.
  intros [Hlen Hmin]. unfold size, empty.
  destruct Hmin as [[-> Hall] | (Hm & _ & Hlow)].
  - simpl. by rewrite emptyBelow_all.
  - replace (_minBin q =? -1) with false by (symmetry; apply Z.eqb_neq; lia).
    rewrite <- length_concat.
    rewrite <- (take_drop (Z.to_nat (_minBin q)) (_bins q)) at 2.
    rewrite concat_app, (emptyBelow_concat _ _ Hlow). reflexivity.
Qed.

Lemma popAll_concat (q : BinQueue T) :
  wfQueue q -> popAll N q = concat (_bins q).
Proof.
  intros Hwf. unfold popAll. apply popRounds_concat; [done|].
  by rewrite size_concat.
Qed.

End WithN.

(** *** The bucket of a score

    What is used of the rounding of [ScoreType]: a larger exact result
    is not rounded to a smaller number, and the integers from [-1] to [N]
    are numbers of [ScoreType]. *)

Section RoundedScores.

Variable N : Z.
Hypothesis N_pos : 0 < N.
Variable roundScore : Q -> Q.
Hypothesis round_mono :
  forall x y : Q, (x <= y)%Q -> (roundScore x <= roundScore y)%Q.
Hypothesis round_int :
  forall z : Z, -1 <= z <= N -> (roundScore (inject_Z z) == inject_Z z)%Q.

Lemma scaled_unit_interval (score : Q) :
  (0 <= score)%Q -> (score <= 1)%Q ->
  (inject_Z 0 <= score * inject_Z (N - 1) <= inject_Z (N - 1))%Q.
Proof.
  intros H0 H1.
  assert (Hn : (0 <= inject_Z (N - 1))%Q).
  { change 0%Q with (inject_Z 0). rewrite <- Zle_Qle. lia. }
  split.
  - change (inject_Z 0) with 0%Q. by apply Qmult_le_0_compat.
  - rewrite <- (Qmult_1_l (inject_Z (N - 1))) at 2.
    by apply Qmult_le_compat_r.
Qed.

Lemma round_between (x : Q) (lo hi : Z) :
  -1 <= lo <= N -> -1 <= hi <= N ->
  (inject_Z lo <= x <= inject_Z hi)%Q ->
  (inject_Z lo <= roundScore x <= inject_Z hi)%Q.
Proof.
  intros Hlo Hhi [H1 H2]. split.
  - rewrite <- (round_int lo Hlo). by apply round_mono.
  - rewrite <- (round_int hi Hhi). by apply round_mono.
Qed.

Lemma bucketOf_unit_interval (score : Q) :
  (0 <= score)%Q -> (score <= 1)%Q ->
  0 <= bucketOf N roundScore score <= N - 1.
Proof.
  intros H0 H1.
  destruct (round_between _ 0 (N - 1) ltac:(lia) ltac:(lia)
              (scaled_unit_interval score H0 H1)) as [Hlo Hhi].
  unfold bucketOf. rewrite (Qtruncate_nonneg _ Hlo). split.
  - change 0 with (Qfloor (inject_Z 0)). by apply Qfloor_resp_le.
  - apply Qfloor_resp_le in Hhi. by rewrite Qfloor_Z in Hhi.
Qed.

(** When the product is a number of [ScoreType], the bucket is its floor. *)
Lemma bucketOf_exact (score : Q) :
  (0 <= score)%Q ->
  (roundScore (score * inject_Z (N - 1)) == score * inject_Z (N - 1))%Q ->
  bucketOf N roundScore score = Qfloor (score * inject_Z (N - 1)).
Proof.
  intros H0 Hexact.
  assert (Hx : (0 <= score * inject_Z (N - 1))%Q).
  { apply Qmult_le_0_compat; [done|].
    change 0%Q with (inject_Z 0). rewrite <- Zle_Qle. lia. }
  unfold bucketOf. rewrite Qtruncate_nonneg by (by rewrite Hexact).
  by rewrite Hexact.
Qed.

Lemma bucketOf_mono (score1 score2 : Q) :
  (score1 <= score2)%Q ->
  bucketOf N roundScore score1 <= bucketOf N roundScore score2.
Proof.
  intros Hle. unfold bucketOf. apply Qtruncate_mono, round_mono.
  apply Qmult_le_compat_r; [done|].
  change 0%Q with (inject_Z 0). rewrite <- Zle_Qle. lia.
Qed.

Lemma bucketOf_outside (score : Q) :
  (score * inject_Z (N - 1) <= inject_Z (-1) \/
   inject_Z N <= score * inject_Z (N - 1))%Q ->
  bucketOf N roundScore score < 0 \/ N <= bucketOf N roundScore score.
Proof.
  unfold bucketOf. intros [Hlow | Hhigh]; [left | right].
  - apply Qtruncate_neg_iff. rewrite <- (round_int (-1)) by lia.
    by apply round_mono.
  - apply (Qtruncate_ge_iff _ N N_pos). rewrite <- (round_int N) by lia.
    by apply round_mono.
Qed.

End RoundedScores.

(** *** Bucket sort: the order in which a filled queue is emptied *)

Section BucketOrder.

Context {T : Type}.
Variable N : Z.
Hypothesis N_pos : 0 < N.
Variable roundScore : Q -> Q.

Local Abbreviation elt := (T * Q)%type.

Definition bucketOfElt (p : elt) : Z := bucketOf N roundScore (snd p).

(** The elements of [l] that fall into bucket [i], in the order of [l]. *)
Definition bucket (l : list elt) (i : nat) : list elt :=
  filter (fun p => bucketOfElt p = Z.of_nat i) l.

Definition buckets (l : list elt) : list (list elt) :=
  bucket l <$> seq 0 (Z.to_nat N).

Definition firstBuckets (l : list elt) (n : nat) : list elt :=
  concat (bucket l <$> seq 0 n).

Lemma firstBuckets_S (l : list elt) (n : nat) :
  firstBuckets l (S n) = firstBuckets l n ++ bucket l n.
Proof.
  unfold firstBuckets. rewrite seq_S, fmap_app, concat_app. simpl.
  by rewrite app_nil_r.
Qed.

Lemma elem_of_firstBuckets (l : list elt) (n : nat) (p : elt) :
  p ∈ firstBuckets l n <-> p ∈ l /\ 0 <= bucketOfElt p < Z.of_nat n.
Proof.
  induction n as [|n IH].
  - unfold firstBuckets. simpl. rewrite elem_of_nil. lia.
  - rewrite firstBuckets_S, elem_of_app, IH. unfold bucket.
    rewrite list_elem_of_filter. split.
    + intros [[? ?] | [? ?]]; split; first [done | lia].
    + intros [? ?].
      destruct (decide (bucketOfElt p = Z.of_nat n)); [right | left]; split;
        first [done | lia].
Qed.

Lemma bucket_sorted (l : list elt) (n : nat) :
  StronglySorted (fun p1 p2 => bucketOfElt p1 <= bucketOfElt p2) (bucket l n).
Proof.
  unfold bucket. induction l as [|p l IH].
  - constructor.
  - rewrite filter_cons. case_decide as Hp; [|done].
    constructor; [done|]. apply Forall_forall. intros p' Hp'.
    apply list_elem_of_filter in Hp' as [Hp' _]. lia.
Qed.

Lemma firstBuckets_sorted (l : list elt) (n : nat) :
  StronglySorted (fun p1 p2 => bucketOfElt p1 <= bucketOfElt p2) (firstBuckets l n).
Proof.
  induction n as [|n IH].
  - constructor.
  - rewrite firstBuckets_S. apply StronglySorted_app_2; [| done | apply bucket_sorted].
    intros p1 p2 H1 H2. apply elem_of_firstBuckets in H1 as [_ H1].
    apply list_elem_of_filter in H2 as [H2 _]. lia.
Qed.

Lemma bucket_bucket (l : list elt) (i j : nat) :
  bucket (bucket l j) i = if decide (i = j) then bucket l i else [].
Proof.
  unfold bucket. induction l as [|p l IH].
  - by case_decide.
  - rewrite !filter_cons.
    destruct (decide (bucketOfElt p = Z.of_nat j)) as [Hj|Hj].
    + rewrite filter_cons, IH.
      repeat case_decide; first [done | lia | by f_equal].
    + rewrite IH. repeat case_decide; first [done | lia].
Qed.

Lemma bucket_app (l1 l2 : list elt) (i : nat) :
  bucket (l1 ++ l2) i = bucket l1 i ++ bucket l2 i.
Proof. unfold bucket. apply filter_app. Qed.

Lemma bucket_firstBuckets (l : list elt) (n i : nat) :
  bucket (firstBuckets l n) i = if decide (i < n)%nat then bucket l i else [].
Proof.
  induction n as [|n IH].
  - case_decide; [lia | done].
  - rewrite firstBuckets_S, bucket_app, IH, bucket_bucket.
    repeat case_decide; rewrite ?app_nil_r; first [done | lia].
Qed.

Lemma firstBuckets_Permutation (l : list elt) (n : nat) :
  firstBuckets l n ≡ₚ filter (fun p => 0 <= bucketOfElt p < Z.of_nat n) l.
Proof.
  induction n as [|n IH].
  - unfold firstBuckets. simpl. induction l as [|p l IHl]; [done|].
    rewrite filter_cons. case_decide; [lia | done].
  - rewrite firstBuckets_S, IH. unfold bucket. clear IH.
    induction l as [|p l IHl]; [done|].
    rewrite !filter_cons.
    repeat case_decide; try lia; simpl; rewrite <- ?IHl; try done.
    by rewrite Permutation_middle.
Qed.

Lemma filter_Forall_id {A : Type} (P : A -> Prop) `{!forall x, Decision (P x)}
    (l : list A) :
  Forall P l -> filter P l = l.
Proof.
  induction 1 as [|x l Hx Hl IH]; [done|].
  rewrite filter_cons. case_decide; [by f_equal | done].
Qed.

Definition inRange (p : elt) : Prop := 0 <= bucketOfElt p < N.

Lemma alter_buckets (l : list elt) (x : elt) :
  inRange x ->
  alter (fun b => b ++ [x]) (Z.to_nat (bucketOfElt x)) (buckets l) = buckets (l ++ [x]).
Proof.
  intros Hx. unfold inRange in Hx. apply list_eq. intros j.
  unfold buckets. rewrite list_lookup_alter, !list_lookup_fmap.
  destruct (decide (j < Z.to_nat N)%nat) as [Hj|Hj].
  - rewrite !lookup_seq_lt by lia. simpl.
    rewrite bucket_app. change (bucket [x] j) with (filter (fun p => bucketOfElt p = Z.of_nat j) [x]).
    rewrite filter_cons, filter_nil.
    repeat case_decide; subst; rewrite ?lookup_seq_lt by lia; simpl;
      rewrite ?app_nil_r; try done; try lia.
  - case_decide; [lia|]. by rewrite !lookup_seq_ge by lia.
Qed.

Lemma pushAll_buckets (l l0 : list elt) (q0 : BinQueue elt) :
  wfQueue N q0 -> _bins q0 = buckets l0 -> Forall inRange l ->
  exists q, pushAll N roundScore l q0 = Ok q /\ wfQueue N q /\
            _bins q = buckets (l0 ++ l).
Proof.
  revert l0 q0. induction l as [|x l IH]; intros l0 q0 Hwf Hb Hl; simpl.
  - exists q0. by rewrite app_nil_r.
  - apply Forall_cons in Hl as [Hx Hl].
    assert (Hi : scoreToIndex N roundScore (snd x) = Ok (bucketOfElt x)).
    { apply scoreToIndex_Ok. split; [done | exact Hx]. }
    destruct (push N roundScore x (snd x) q0) as [q1|] eqn:Hpush.
    + pose proof (push_wfQueue N N_pos roundScore _ _ _ _ Hwf Hpush) as Hwf1.
      unfold push in Hpush. rewrite Hi in Hpush. injection Hpush as <-.
      destruct (IH (l0 ++ [x]) _ Hwf1) as (q & Hq & Hwfq & Hbq); [|done|].
      * simpl. rewrite Hb. by apply alter_buckets.
      * exists q. by rewrite <- app_assoc in Hbq.
    + unfold push in Hpush. by rewrite Hi in Hpush.
Qed.

Lemma buckets_empty : _bins (empty_queue N) = buckets ([] : list elt).
Proof.
  simpl. apply list_eq. intros j. unfold buckets.
  rewrite list_lookup_fmap.
  destruct (decide (j < Z.to_nat N)%nat) as [Hj|Hj].
  - rewrite lookup_seq_lt by lia. simpl.
    apply lookup_replicate. split; [done | lia].
  - rewrite lookup_seq_ge by lia. simpl.
    apply lookup_ge_None. rewrite length_replicate. lia.
Qed.

Lemma StronglySorted_weaken {A : Type} (R R' : A -> A -> Prop) (l : list A) :
  (forall x y, R x y -> R' x y) -> StronglySorted R l -> StronglySorted R' l.
Proof.
  intros HR. induction 1 as [|x l _ IH Hall]; constructor; [exact IH|].
  eapply Forall_impl; [exact Hall|]. intros y. apply HR.
Qed.

Hypothesis round_mono :
  forall x y : Q, (x <= y)%Q -> (roundScore x <= roundScore y)%Q.
Hypothesis round_int :
  forall z : Z, -1 <= z <= N -> (roundScore (inject_Z z) == inject_Z z)%Q.

(** C5: when a sequence of elements with scores in [0,1) is pushed onto
    an empty queue, every push succeeds, and popping the queue until it is
    empty yields all of them in non-decreasing order of their bucket index
    [(int)(score*(N-1))], hence in non-decreasing order of their scores but
    for the elements of one bucket; the elements of one bucket come out in
    the order of their pushes.  [ScoreType] may round the product in any
    way that is monotone and leaves the integers up to [N] alone. *)
Theorem popAll_bucket_order (l : list elt) :
  Forall (fun p => (0 <= snd p)%Q /\ (snd p < 1)%Q) l ->
  exists q,
    pushAll N roundScore l (empty_queue N) = Ok q /\
    popAll N q ≡ₚ l /\
    StronglySorted (fun p1 p2 => bucketOf N roundScore (snd p1)
                                 <= bucketOf N roundScore (snd p2))
                   (popAll N q) /\
    StronglySorted (fun p1 p2 => (snd p1 <= snd p2)%Q \/
                                 bucketOf N roundScore (snd p1)
                                 = bucketOf N roundScore (snd p2))
                   (popAll N q) /\
    forall i : Z,
      filter (fun p => bucketOf N roundScore (snd p) = i) (popAll N q) =
      filter (fun p => bucketOf N roundScore (snd p) = i) l.
Proof.
  intros Hl.
  assert (Hrange : Forall inRange l).
  { eapply Forall_impl; [exact Hl|]. intros p [H0 H1]. unfold inRange, bucketOfElt.
    pose proof (bucketOf_unit_interval N N_pos roundScore round_mono round_int
                  (snd p) H0 (Qlt_le_weak _ _ H1)).
    lia. }
  destruct (pushAll_buckets l [] (empty_queue N)) as (q & Hq & Hwf & Hb);
    [apply wfQueue_empty_queue | apply buckets_empty | exact Hrange |].
  simpl in Hb. exists q. split; [exact Hq|].
  rewrite (popAll_concat N N_pos q Hwf), Hb.
  change (concat (buckets l)) with (firstBuckets l (Z.to_nat N)).
  assert (Hperm : firstBuckets l (Z.to_nat N) ≡ₚ l).
  { rewrite firstBuckets_Permutation.
    rewrite filter_Forall_id; [done|].
    eapply Forall_impl; [exact Hrange|]. unfold inRange. intros p Hp. lia. }
  split; [exact Hperm|]. split; [apply firstBuckets_sorted|]. split.
  { eapply StronglySorted_weaken; [|apply firstBuckets_sorted].
    unfold bucketOfElt. intros p1 p2 Hb12.
    destruct (Qlt_le_dec (snd p2) (snd p1)) as [Hlt | Hle]; [right | by left].
    pose proof (bucketOf_mono N N_pos roundScore round_mono _ _ (Qlt_le_weak _ _ Hlt)).
    lia. }
  intros i. destruct (decide (0 <= i < N)) as [Hi|Hi].
  - replace i with (Z.of_nat (Z.to_nat i)) by lia.
    change (bucket (firstBuckets l (Z.to_nat N)) (Z.to_nat i) = bucket l (Z.to_nat i)).
    rewrite bucket_firstBuckets. case_decide; [done | lia].
  - assert (Hnone : forall l' : list elt, Forall inRange l' ->
                    filter (fun p => bucketOf N roundScore (snd p) = i) l' = []).
    { intros l'. induction 1 as [|p l' Hp _ IH]; [done|].
      rewrite filter_cons. case_decide as Hpi; [|exact IH].
      unfold inRange, bucketOfElt in Hp. lia. }
    rewrite (Hnone l Hrange). apply Hnone.
    apply Forall_forall. intros p Hp. rewrite Hperm in Hp.
    by apply (proj1 (Forall_forall _ _) Hrange).
Qed.

End BucketOrder.

Section PushRange.

Context {T : Type}.
Variable N : Z.
Hypothesis N_pos : 0 < N.
Variable roundScore : Q -> Q.
Hypothesis round_mono :
  forall x y : Q, (x <= y)%Q -> (roundScore x <= roundScore y)%Q.
Hypothesis round_int :
  forall z : Z, -1 <= z <= N -> (roundScore (inject_Z z) == inject_Z z)%Q.

(** C3, as the code has it: [push(element, score)] fails with the range
    error exactly when the index [i = (int)(score*(N-1))], with the product
    rounded in [ScoreType], lies outside [0,N).  Every push with [score] in
    the closed interval [0,1] succeeds and appends the element to bucket
    [i], which is [floor(score*(N-1))] when the product is a number of
    [ScoreType]; every push with [score*(N-1) <= -1] or [score*(N-1) >= N]
    fails.  [ScoreType] may round in any way that is monotone and leaves
    the integers from [-1] to [N] alone. *)
Theorem push_range_error (element : T) (score : Q) (q : BinQueue T) :
  let i := bucketOf N roundScore score in
  ((exists j n, push N roundScore element score q = OutOfBounds j n) <->
   (i < 0 \/ N <= i)) /\
  ((0 <= score)%Q -> (score <= 1)%Q ->
   0 <= i <= N - 1 /\
   push N roundScore element score q =
   Ok (mkBinQueue (alter (fun b => b ++ [element]) (Z.to_nat i) (_bins q))
                  (if _minBin q =? -1 then i else Z.min i (_minBin q))) /\
   ((roundScore (score * inject_Z (N - 1)) == score * inject_Z (N - 1))%Q ->
    i = Qfloor (score * inject_Z (N - 1)))) /\
  ((score * inject_Z (N - 1) <= inject_Z (-1) \/
    inject_Z N <= score * inject_Z (N - 1))%Q ->
   exists j n, push N roundScore element score q = OutOfBounds j n).
Proof.
  intros i.
  assert (Hfails : (exists j n, push N roundScore element score q = OutOfBounds j n)
                   <-> (i < 0 \/ N <= i)).
  { unfold i. rewrite <- (scoreToIndex_fails N roundScore). unfold push.
    destruct (scoreToIndex N roundScore score) as [j|j n]; split.
    - intros (? & ? & [=]).
    - intros (? & ? & [=]).
    - intros _. eauto.
    - intros _. eauto. }
  split; [exact Hfails|]. split.
  - intros H0 H1.
    pose proof (bucketOf_unit_interval N N_pos roundScore round_mono round_int
                  score H0 H1) as Hrange.
    fold i in Hrange. split; [exact Hrange|]. split.
    + unfold push.
      replace (scoreToIndex N roundScore score) with (@Ok Z i); [reflexivity|].
      symmetry. apply scoreToIndex_Ok. split; [reflexivity | lia].
    + intros Hexact. by apply (bucketOf_exact N N_pos).
  - intros Hout. apply Hfails.
    by apply (bucketOf_outside N N_pos roundScore round_mono round_int).
Qed.

End PushRange.

(** The arithmetic of an exact [ScoreType], of [float] and of [double]
    rounds as the theorems above require, for up to [2^24] buckets. *)
Lemma exactScore_mono (x y : Q) : (x <= y)%Q -> (exactScore x <= exactScore y)%Q.
Proof. done. Qed.

Lemma exactScore_int (z : Z) : (exactScore (inject_Z z) == inject_Z z)%Q.
Proof. reflexivity. Qed.

Lemma roundFloat_mono (x y : Q) : (x <= y)%Q -> (roundFloat x <= roundFloat y)%Q.
Proof. apply (RoundingFacts.roundBinary_mono 24). lia. Qed.

Lemma roundFloat_int (N z : Z) :
  N < 16777216 -> -1 <= z <= N -> (roundFloat (inject_Z z) == inject_Z z)%Q.
Proof.
  intros HN Hz. apply (RoundingFacts.roundBinary_Z 24).
  change (2 ^ 24) with 16777216. lia.
Qed.

Lemma roundDouble_mono (x y : Q) : (x <= y)%Q -> (roundDouble x <= roundDouble y)%Q.
Proof. apply (RoundingFacts.roundBinary_mono 53). lia. Qed.

Lemma roundDouble_int (N z : Z) :
  N < 16777216 -> -1 <= z <= N -> (roundDouble (inject_Z z) == inject_Z z)%Q.
Proof.
  intros HN Hz. apply (RoundingFacts.roundBinary_Z 53).
  change (2 ^ 53) with 9007199254740992. lia.
Qed.

(** C3, as stated, fails for the score 1, which is outside [0,1): the push
    succeeds (into the last bucket), here with the arithmetic of [float]. *)
Lemma push_score_one_counterexample :
  ~ ((exists i n, push 256 roundFloat tt 1%Q (empty_queue 256) = OutOfBounds i n) <->
     ~ ((0 <= 1)%Q /\ (1 < 1)%Q)).
Proof.
  intros [_ Hfail]. destruct Hfail as (i & n & Hpush).
  - intros [_ Hlt]. revert Hlt. apply Qlt_irrefl.
  - vm_compute in Hpush. discriminate.
Qed.

(** With the arithmetic of [float] the bucket of a score in [0,1) need not
    be [floor(score*(N-1))]: for eleven buckets the [float] nearest to 0.7
    is below 0.7, and its product with 10 is rounded to 7. *)
Lemma float_bucket_above_floor :
  let score := roundFloat (7 # 10) in
  (score < 7 # 10)%Q /\
  bucketOf 11 roundFloat score = 7 /\
  Qfloor (score * inject_Z (11 - 1)) = 6.
Proof. vm_compute. repeat split. Qed.

Lemma push_range_error_witness :
  let i := bucketOf 256 roundFloat (1 # 2) in
  ((exists j n, push 256 roundFloat tt (1 # 2) (empty_queue 256) = OutOfBounds j n) <->
   (i < 0 \/ 256 <= i)) /\
  ((0 <= 1 # 2)%Q -> (1 # 2 <= 1)%Q ->
   0 <= i <= 256 - 1 /\
   push 256 roundFloat tt (1 # 2) (empty_queue 256) =
   Ok (mkBinQueue (alter (fun b => b ++ [tt]) (Z.to_nat i) (_bins (empty_queue 256)))
                  (if _minBin (empty_queue 256 : BinQueue unit) =? -1
                   then i else Z.min i (_minBin (empty_queue 256 : BinQueue unit)))) /\
   ((roundFloat ((1 # 2) * inject_Z (256 - 1)) == (1 # 2) * inject_Z (256 - 1))%Q ->
    i = Qfloor ((1 # 2) * inject_Z (256 - 1)))) /\
  (((1 # 2) * inject_Z (256 - 1) <= inject_Z (-1) \/
    inject_Z 256 <= (1 # 2) * inject_Z (256 - 1))%Q ->
   exists j n, push 256 roundFloat tt (1 # 2) (empty_queue 256) = OutOfBounds j n).
Proof.
  apply (push_range_error 256 ltac:(lia) roundFloat roundFloat_mono
           (fun z => roundFloat_int 256 z ltac:(lia)) tt (1 # 2)%Q (empty_queue 256)).
Defined.

(** Inside a bucket the scores themselves are not ordered: two scores of
    one bucket pushed in decreasing order are popped in the order of the
    pushes, the larger score first. *)
Lemma scores_unordered_inside_bucket :
  exists q,
    pushAll 256 roundFloat [(1%nat, (2 # 1000)%Q); (2%nat, (1 # 1000)%Q)]
            (empty_queue 256) = Ok q /\
    ~ StronglySorted (fun p1 p2 => (snd p1 <= snd p2)%Q) (popAll 256 q).
Proof.
  eexists. split; [vm_compute; reflexivity|].
  vm_compute. intros Hs. apply StronglySorted_inv in Hs as [_ Hall].
  apply Forall_inv in Hall. vm_compute in Hall. apply Hall. reflexivity.
Qed.

Lemma popAll_bucket_order_witness :
  exists q,
    pushAll 256 roundFloat [(1%nat, (2 # 1000)%Q); (2%nat, (1 # 1000)%Q)]
            (empty_queue 256) = Ok q /\
    popAll 256 q ≡ₚ [(1%nat, (2 # 1000)%Q); (2%nat, (1 # 1000)%Q)] /\
    StronglySorted (fun p1 p2 => bucketOf 256 roundFloat (snd p1)
                                 <= bucketOf 256 roundFloat (snd p2))
                   (popAll 256 q) /\
    StronglySorted (fun p1 p2 => (snd p1 <= snd p2)%Q \/
                                 bucketOf 256 roundFloat (snd p1)
                                 = bucketOf 256 roundFloat (snd p2))
                   (popAll 256 q) /\
    forall i : Z,
      filter (fun p => bucketOf 256 roundFloat (snd p) = i) (popAll 256 q) =
      filter (fun p => bucketOf 256 roundFloat (snd p) = i)
             [(1%nat, (2 # 1000)%Q); (2%nat, (1 # 1000)%Q)].
Proof.
  apply (popAll_bucket_order 256 ltac:(lia) roundFloat roundFloat_mono
           (fun z => roundFloat_int 256 z ltac:(lia))).
  repeat constructor; simpl; discriminate.
Defined.

End BinQueueFacts.

(** ** Histogram quantile provider *)

Module ProviderFacts.

Import HistogramQuantileProvider.

Section WithBins.

Variables (Qpct Bins : Z).
Variable discretize : Q -> Z -> Z.
Variable undiscretize : Z -> Z -> Q.
Hypothesis Bins_nonneg : 0 <= Bins.

(** *** Sums of histograms *)

Lemma sum_map_ext (f g : nat -> nat) (l : list nat) :
  (forall i, i ∈ l -> f i = g i) -> sum_list (map f l) = sum_list (map g l).
Proof.
  induction l as [|i l IH]; intros Hfg; simpl; [done|].
  rewrite (Hfg i) by (left; done). rewrite IH; [done|].
  intros j Hj. apply Hfg. by right.
Qed.

Lemma sum_map_zero (f : nat -> nat) (l : list nat) :
  sum_list (map f l) = O -> forall i, i ∈ l -> f i = O.
Proof.
  induction l as [|j l IH]; simpl; intros Hs i Hi.
  - by apply elem_of_nil in Hi.
  - apply elem_of_cons in Hi as [-> | Hi]; [lia|]. apply IH; [lia | done].
Qed.

Lemma hist_sum_clear : hist_sum Bins hist_clear = O.
Proof.
  unfold hist_sum, hist_clear. induction (seq 0 (Z.to_nat Bins)); simpl; done.
Qed.

Lemma hist_sum_add (h other : Histogram) :
  hist_sum Bins (hist_add h other) = (hist_sum Bins h + hist_sum Bins other)%nat.
Proof.
  unfold hist_sum, hist_add. induction (seq 0 (Z.to_nat Bins)) as [|i l IH]; simpl; lia.
Qed.

Lemma sum_map_inc (h : Histogram) (k a n : nat) :
  sum_list (map (fun i => if decide (i = k) then S (h i) else h i) (seq a n)) =
  (sum_list (map h (seq a n)) + if decide (a <= k < a + n)%nat then 1 else 0)%nat.
Proof.
  revert a. induction n as [|n IH]; intros a; simpl.
  - case_decide; lia.
  - rewrite IH. repeat case_decide; lia.
Qed.

Lemma hist_sum_inc (h : Histogram) (bin : Z) :
  binExists Bins bin = true ->
  hist_sum Bins (hist_inc h bin) = S (hist_sum Bins h).
Proof.
  unfold binExists. intros Hbin. apply andb_true_iff in Hbin as [H0 H1].
  apply Z.leb_le in H0. apply Z.ltb_lt in H1.
  unfold hist_sum, hist_inc. rewrite sum_map_inc. case_decide; lia.
Qed.

(** *** The total count *)

Lemma totalCount_insert (hs : list Histogram) (e : nat) (h h' : Histogram) :
  hs !! e = Some h ->
  (sum_list (map (hist_sum Bins) (<[e := h']> hs)) + hist_sum Bins h =
   sum_list (map (hist_sum Bins) hs) + hist_sum Bins h')%nat.
Proof.
  revert e. induction hs as [|h0 hs IH]; intros e He; [done|].
  destruct e as [|e]; simpl in *.
  - injection He as ->. lia.
  - specialize (IH e He). lia.
Qed.

Lemma hist_at_lookup (p : Provider) (e : nat) :
  edgeExists p e = true -> _histograms p !! e = Some (hist_at p e).
Proof.
  unfold edgeExists, hist_at. intros He. apply Nat.ltb_lt in He.
  destruct (lookup_lt_is_Some_2 (_histograms p) e He) as [h ->]. reflexivity.
Qed.

Lemma totalCount_addAffinity (p : Provider) (e : nat) (affinity : Q) :
  edgeExists p e = true -> binExists Bins (discretize affinity Bins) = true ->
  totalCount Bins (addAffinity Bins discretize p e affinity) = S (totalCount Bins p).
Proof.
  intros He Hbin. unfold totalCount, addAffinity. simpl.
  pose proof (totalCount_insert _ _ _
                (hist_inc (hist_at p e) (discretize affinity Bins))
                (hist_at_lookup p e He)) as Hins.
  rewrite (hist_sum_inc _ _ Hbin) in Hins. lia.
Qed.

Lemma totalCount_notifyEdgeMerge (p : Provider) (from to : nat) :
  edgeExists p from = true -> edgeExists p to = true -> from <> to ->
  totalCount Bins (notifyEdgeMerge p from to) = totalCount Bins p.
Proof.
  intros Hfrom Hto Hne. unfold totalCount, notifyEdgeMerge. simpl.
  pose proof (hist_at_lookup p to Hto) as Lto.
  pose proof (hist_at_lookup p from Hfrom) as Lfrom.
  pose proof (totalCount_insert _ _ _ (hist_add (hist_at p to) (hist_at p from)) Lto) as H1.
  rewrite hist_sum_add in H1.
  assert (L1 : <[to := hist_add (hist_at p to) (hist_at p from)]> (_histograms p) !! from
               = Some (hist_at p from)).
  { rewrite list_lookup_insert_ne by done. exact Lfrom. }
  pose proof (totalCount_insert _ _ _ hist_clear L1) as H2.
  rewrite hist_sum_clear in H2. lia.
Qed.

Lemma length_run_call (p : Provider) (c : call) :
  length (_histograms (run_call Bins discretize p c)) = length (_histograms p).
Proof.
  destruct c; simpl; unfold addAffinity, notifyEdgeMerge; simpl;
    by rewrite ?length_insert.
Qed.

Lemma totalCount_run_calls (cs : list call) (p : Provider) :
  forallb (validCall Bins discretize (length (_histograms p))) cs = true ->
  totalCount Bins (run_calls Bins discretize p cs)
  = (totalCount Bins p + countAdds cs)%nat.
Proof.
  revert p. unfold run_calls, countAdds.
  induction cs as [|c cs IH]; intros p Hvalid; simpl in *; [lia|].
  apply andb_true_iff in Hvalid as [Hc Hcs].
  rewrite IH by (by rewrite length_run_call). clear IH.
  destruct c as [e affinity | from to]; simpl in *.
  - apply andb_true_iff in Hc as [He Hbin].
    rewrite totalCount_addAffinity by done. lia.
  - apply andb_true_iff in Hc as [Hc Hne]. apply andb_true_iff in Hc as [Hfrom Hto].
    apply negb_true_iff, Nat.eqb_neq in Hne.
    rewrite totalCount_notifyEdgeMerge by done. lia.
Qed.

(** C6, as the code has it: for every sequence of [addAffinity] calls (on
    existing edges, with values discretized to one of the bins) and
    [notifyEdgeMerge] calls between two different existing edges, made on a
    fresh provider, the total bin count summed over all edge histograms
    equals the number of [addAffinity] calls made. *)
Theorem totalCount_counts_additions (n : nat) (cs : list call) :
  forallb (validCall Bins discretize n) cs = true ->
  totalCount Bins (run_calls Bins discretize (newProvider n) cs) = countAdds cs.
Proof.
  intros Hvalid. rewrite totalCount_run_calls.
  - unfold totalCount, newProvider. simpl.
    assert (Hzero : sum_list (map (hist_sum Bins) (replicate n hist_clear)) = O).
    { clear Hvalid. induction n as [|n IH]; simpl; [done|].
      by rewrite hist_sum_clear. }
    lia.
  - simpl. by rewrite length_replicate.
Qed.

(** *** The score of an edge without samples *)

Lemma scanBins_no_samples (h : Histogram) (fuel : nat) (bin : Z) :
  0 <= bin ->
  (forall i, (Z.to_nat bin <= i < Z.to_nat bin + fuel)%nat -> h i = O) ->
  scanBins fuel h 1 bin 0 = bin + Z.of_nat fuel.
Proof.
  revert bin. induction fuel as [|fuel IH]; intros bin Hbin Hzero; simpl; [lia|].
  rewrite (Hzero (Z.to_nat bin)) by lia. simpl.
  rewrite IH; [lia | lia |]. intros i Hi. apply Hzero. lia.
Qed.

(** C9: the score of an edge whose histogram holds no sample is the
    undiscretized value of the index [Bins], one past the last bin: the scan
    passes every bin without reaching the pivot. *)
Theorem score_zero_samples (p : Provider) (e : EdgeIdType) :
  hist_sum Bins (hist_at p e) = O ->
  score Qpct Bins undiscretize p e = undiscretize Bins Bins.
Proof.
  intros Hsum. unfold score, quantileBin, pivot. rewrite Hsum.
  rewrite Z.mul_0_r. change (Z.quot (wrap32 0) 100 + 1) with 1.
  rewrite scanBins_no_samples; [f_equal; lia | lia |].
  intros i Hi. apply (sum_map_zero _ _ Hsum). apply elem_of_seq. lia.
Qed.

(** *** The scan in exact integer arithmetic *)

Hypothesis Qpct_nonneg : 0 <= Qpct.

(** The count of the bins below [k]. *)
Definition cumulative (h : Histogram) (k : nat) : Z :=
  Z.of_nat (sum_list (map h (seq 0 k))).

Definition pivotOf (h : Histogram) : Z :=
  Z.quot (Qpct * Z.of_nat (hist_sum Bins h)) 100 + 1.

Fixpoint scanBinsZ (fuel : nat) (h : Histogram) (pivot : Z) (bin sum : Z) : Z :=
  match fuel with
  | O => bin
  | S fuel' =>
      let sum' := sum + Z.of_nat (h (Z.to_nat bin)) in
      if sum' >=? pivot then bin
      else scanBinsZ fuel' h pivot (bin + 1) sum'
  end.

Definition quantileBinZ (h : Histogram) : Z :=
  scanBinsZ (Z.to_nat Bins) h (pivotOf h) 0 0.

Lemma sum_list_snoc (l : list nat) (x : nat) :
  sum_list (l ++ [x]) = (sum_list l + x)%nat.
Proof. induction l as [|y l IH]; simpl; lia. Qed.

Lemma cumulative_S (h : Histogram) (k : nat) :
  cumulative h (S k) = cumulative h k + Z.of_nat (h k).
Proof.
  unfold cumulative. rewrite seq_S, map_app. simpl. rewrite sum_list_snoc. lia.
Qed.

Lemma cumulative_mono (h : Histogram) (k k' : nat) :
  (k <= k')%nat -> cumulative h k <= cumulative h k'.
Proof.
  induction 1 as [|k' _ IH]; [lia|]. rewrite cumulative_S. lia.
Qed.

Lemma cumulative_add (h other : Histogram) (k : nat) :
  cumulative (hist_add h other) k = cumulative h k + cumulative other k.
Proof.
  induction k as [|k IH]; [done|]. rewrite !cumulative_S, IH.
  unfold hist_add. lia.
Qed.

Lemma pivotOf_pos (h : Histogram) : 0 < pivotOf h.
Proof.
  unfold pivotOf.
  pose proof (Z.quot_pos (Qpct * Z.of_nat (hist_sum Bins h)) 100 ltac:(lia) ltac:(lia)).
  lia.
Qed.

Lemma pivotOf_add (h other : Histogram) :
  pivotOf h + pivotOf other <= pivotOf (hist_add h other) + 1.
Proof.
  unfold pivotOf. rewrite hist_sum_add, Nat2Z.inj_add, Z.mul_add_distr_l.
  set (x := Qpct * Z.of_nat (hist_sum Bins h)).
  set (y := Qpct * Z.of_nat (hist_sum Bins other)).
  assert (0 <= x) by (unfold x; lia). assert (0 <= y) by (unfold y; lia).
  rewrite !Z.quot_div_nonneg by lia.
  pose proof (Z.div_mod x 100 ltac:(lia)).
  pose proof (Z.div_mod y 100 ltac:(lia)).
  pose proof (Z.mod_pos_bound x 100 ltac:(lia)).
  pose proof (Z.mod_pos_bound y 100 ltac:(lia)).
  assert (x / 100 + y / 100 <= (x + y) / 100); [|lia].
  apply Z.div_le_lower_bound; lia.
Qed.

(** The scan stops at the first bin at which the running sum reaches the
    pivot, or runs past the last bin. *)
Lemma scanBinsZ_spec (h : Histogram) (pivot : Z) (fuel : nat) (bin : nat) :
  cumulative h bin < pivot ->
  let r := scanBinsZ fuel h pivot (Z.of_nat bin) (cumulative h bin) in
  Z.of_nat bin <= r <= Z.of_nat bin + Z.of_nat fuel /\
  cumulative h (Z.to_nat r) < pivot /\
  (r < Z.of_nat bin + Z.of_nat fuel -> pivot <= cumulative h (S (Z.to_nat r))).
Proof.
  revert bin. induction fuel as [|fuel IH]; intros bin Hlt; simpl.
  - rewrite Nat2Z.id. lia.
  - rewrite Nat2Z.id, <- cumulative_S.
    destruct (Z.geb_spec (cumulative h (S bin)) pivot) as [Hge | Hlt'].
    + rewrite Nat2Z.id. lia.
    + replace (Z.of_nat bin + 1) with (Z.of_nat (S bin)) by lia.
      specialize (IH (S bin) Hlt'). simpl in IH. lia.
Qed.

Lemma quantileBinZ_spec (h : Histogram) :
  0 <= quantileBinZ h <= Bins /\
  cumulative h (Z.to_nat (quantileBinZ h)) < pivotOf h /\
  (quantileBinZ h < Bins ->
   pivotOf h <= cumulative h (S (Z.to_nat (quantileBinZ h)))).
Proof.
  pose proof (scanBinsZ_spec h (pivotOf h) (Z.to_nat Bins) O (pivotOf_pos h)) as Hs.
  unfold quantileBinZ.
  change (cumulative h 0) with 0 in Hs. change (Z.of_nat 0) with 0 in Hs.
  cbv zeta in Hs. rewrite Z2Nat.id in Hs by lia. lia.
Qed.

(** *** Where the [int]s of the scan do not overflow *)

Lemma wrap32_id (z : Z) : - INT_MAX - 1 <= z <= INT_MAX -> wrap32 z = z.
Proof.
  unfold wrap32, INT_MAX. intros Hz. rewrite Z.mod_small by lia. lia.
Qed.

Lemma pivot_exact (h : Histogram) : fitsInt Qpct Bins h -> pivot Qpct Bins h = pivotOf h.
Proof.
  intros [_ Hprod]. unfold pivot, pivotOf. by rewrite wrap32_id.
Qed.

Lemma scanBins_exact (h : Histogram) (pivot : Z) (fuel : nat) (bin : nat) :
  cumulative h (bin + fuel) <= INT_MAX ->
  scanBins fuel h pivot (Z.of_nat bin) (cumulative h bin) =
  scanBinsZ fuel h pivot (Z.of_nat bin) (cumulative h bin).
Proof.
  revert bin. induction fuel as [|fuel IH]; intros bin Hmax; simpl; [done|].
  rewrite Nat2Z.id, <- cumulative_S.
  pose proof (cumulative_mono h (S bin) (bin + S fuel) ltac:(lia)) as Hle.
  assert (H0 : 0 <= cumulative h (S bin)) by (unfold cumulative; lia).
  rewrite wrap32_id by (unfold INT_MAX in *; lia).
  destruct (cumulative h (S bin) >=? pivot); [done|].
  replace (Z.of_nat bin + 1) with (Z.of_nat (S bin)) by lia.
  apply IH. by replace (S bin + fuel)%nat with (bin + S fuel)%nat by lia.
Qed.

(** Without overflow the scan of [operator[]] is the scan in exact
    arithmetic. *)
Lemma quantileBin_exact (h : Histogram) :
  fitsInt Qpct Bins h -> quantileBin Qpct Bins h = quantileBinZ h.
Proof.
  intros Hfit. unfold quantileBin, quantileBinZ. rewrite (pivot_exact h Hfit).
  apply (scanBins_exact h (pivotOf h) (Z.to_nat Bins) O).
  destruct Hfit as [Hsum _]. exact Hsum.
Qed.

Lemma fitsInt_clear : fitsInt Qpct Bins hist_clear.
Proof. unfold fitsInt, INT_MAX. rewrite hist_sum_clear. lia. Qed.

Lemma fitsInt_le (h h' : Histogram) :
  (hist_sum Bins h <= hist_sum Bins h')%nat ->
  fitsInt Qpct Bins h' -> fitsInt Qpct Bins h.
Proof. unfold fitsInt, INT_MAX. intros Hle [H1 H2]. split; nia. Qed.

Lemma fitsInt_add_l (h other : Histogram) :
  fitsInt Qpct Bins (hist_add h other) -> fitsInt Qpct Bins h.
Proof. apply fitsInt_le. rewrite hist_sum_add. lia. Qed.

Lemma fitsInt_add_r (h other : Histogram) :
  fitsInt Qpct Bins (hist_add h other) -> fitsInt Qpct Bins other.
Proof. apply fitsInt_le. rewrite hist_sum_add. lia. Qed.



Lemma quantileBin_spec (h : Histogram) :
  fitsInt Qpct Bins h ->
  0 <= quantileBin Qpct Bins h <= Bins /\
  cumulative h (Z.to_nat (quantileBin Qpct Bins h)) < pivotOf h /\
  (quantileBin Qpct Bins h < Bins ->
   pivotOf h <= cumulative h (S (Z.to_nat (quantileBin Qpct Bins h)))).
Proof.
  intros Hfit. rewrite (quantileBin_exact h Hfit). apply quantileBinZ_spec.
Qed.

(** *** The quantile bin of a merged histogram *)

(** Adding a histogram to another one yields a quantile bin that is not
    below the smaller of the two quantile bins. *)
Lemma quantileBin_add (h other : Histogram) :
  fitsInt Qpct Bins (hist_add h other) ->
  Z.min (quantileBin Qpct Bins h) (quantileBin Qpct Bins other)
  <= quantileBin Qpct Bins (hist_add h other).
Proof.
  intros Hfit.
  destruct (quantileBin_spec h (fitsInt_add_l _ _ Hfit)) as (Hr1 & Hc1 & _).
  destruct (quantileBin_spec other (fitsInt_add_r _ _ Hfit)) as (Hr2 & Hc2 & _).
  destruct (quantileBin_spec (hist_add h other) Hfit) as (Hr & _ & Hc).
  pose proof (pivotOf_add h other) as Hp.
  set (r1 := quantileBin Qpct Bins h) in *.
  set (r2 := quantileBin Qpct Bins other) in *.
  set (r := quantileBin Qpct Bins (hist_add h other)) in *.
  destruct (Z_lt_le_dec r (Z.min r1 r2)) as [Hlt | Hle]; [exfalso | exact Hle].
  specialize (Hc ltac:(lia)). rewrite cumulative_add in Hc.
  pose proof (cumulative_mono h (S (Z.to_nat r)) (Z.to_nat r1) ltac:(lia)).
  pose proof (cumulative_mono other (S (Z.to_nat r)) (Z.to_nat r2) ltac:(lia)).
  lia.
Qed.

Lemma quantileBin_clear : quantileBin Qpct Bins hist_clear = Bins.
Proof.
  destruct (quantileBin_spec hist_clear fitsInt_clear) as (Hr & _ & Hc).
  destruct (Z_lt_le_dec (quantileBin Qpct Bins hist_clear) Bins) as [Hlt | Hle]; [|lia].
  specialize (Hc Hlt). pose proof (pivotOf_pos hist_clear).
  assert (Hz : forall k, cumulative hist_clear k = 0).
  { intros k. induction k as [|k IH]; [done|]. rewrite cumulative_S, IH. done. }
  rewrite Hz in Hc. lia.
Qed.

(** *** The samples of a provider *)




End WithBins.

(** C6, as stated, fails when an edge is merged into itself: the counts of
    that edge are lost. *)
Lemma totalCount_self_merge_counterexample :
  totalCount 256
    (run_calls 256 uniformDiscretize (newProvider 1)
       [AddAffinity 0 (1 # 2)%Q; NotifyEdgeMerge 0 0])
  <> countAdds [AddAffinity 0 (1 # 2)%Q; NotifyEdgeMerge 0 0].
Proof. vm_compute. discriminate. Qed.

Lemma totalCount_counts_additions_witness :
  totalCount 256
    (run_calls 256 uniformDiscretize (newProvider 2)
       [AddAffinity 0 (1 # 2)%Q; AddAffinity 1 1%Q; NotifyEdgeMerge 0 1])
  = countAdds [AddAffinity 0 (1 # 2)%Q; AddAffinity 1 1%Q; NotifyEdgeMerge 0 1].
Proof.
  apply (totalCount_counts_additions 256 uniformDiscretize 2). reflexivity.
Defined.

Lemma score_zero_samples_witness :
  score 50 256 uniformUndiscretize (newProvider 2) 1 = uniformUndiscretize 256 256.
Proof.
  apply (score_zero_samples 50 256 uniformUndiscretize ltac:(lia)). reflexivity.
Defined.

End ProviderFacts.

(** ** The union-find forest *)

Module ForestFacts.

Import IterativeRegionMerging.

Abbreviation forest := (gmap nat nat).

Lemma wfForest_empty : wfForest ∅.
Proof. intros x. exists x, O. constructor. apply lookup_empty. Qed.

Lemma pathTo_root (m : forest) x r k : pathTo m x r k -> m !! r = None.
Proof. induction 1; assumption. Qed.

Lemma pathTo_det (m : forest) x r k r' k' :
  pathTo m x r k -> pathTo m x r' k' -> r = r' /\ k = k'.
Proof.
  intros H. revert r' k'. induction H as [x Hx | x p r k Hx _ IH]; intros r' k' H'.
  - inversion H'; subst; [done | congruence].
  - inversion H' as [? Hx' | ? p' ? k'' Hx' Hp']; subst; [congruence|].
    rewrite Hx in Hx'. injection Hx' as <-.
    destruct (IH _ _ Hp') as [-> ->]. done.
Qed.

Lemma walkToRoot_pathTo (m : forest) x r k fuel :
  pathTo m x r k -> (k <= fuel)%nat -> walkToRoot fuel m x = Some r.
Proof.
  intros H. revert fuel. induction H as [x Hx | x p r k Hx _ IH]; intros fuel Hk.
  - destruct fuel; simpl; by rewrite Hx.
  - destruct fuel as [|fuel]; [lia|]. simpl. rewrite Hx. apply IH. lia.
Qed.

Lemma pathTo_walkToRoot (m : forest) fuel x r :
  walkToRoot fuel m x = Some r -> exists k, (k <= fuel)%nat /\ pathTo m x r k.
Proof.
  revert x. induction fuel as [|fuel IH]; intros x; simpl.
  - destruct (m !! x) eqn:Hx; [done|]. intros [= <-]. exists O. split; [lia|].
    by constructor.
  - destruct (m !! x) as [p|] eqn:Hx.
    + intros Hw. destruct (IH _ Hw) as (k & Hk & Hp).
      exists (S k). split; [lia|]. by econstructor.
    + intros [= <-]. exists O. split; [lia|]. by constructor.
Qed.

(** A path to a root visits every node at most once, so it is no longer
    than the number of entries of the map. *)
Lemma pathTo_delete (m : forest) x y r k :
  pathTo m y r k -> (forall r' k', pathTo m x r' k' -> (k < k')%nat) ->
  pathTo (delete x m) y r k.
Proof.
  intros H. induction H as [y Hy | y p r k Hy Hp IH]; intros Hx.
  - constructor. destruct (decide (x = y)) as [->|Hne].
    + apply lookup_delete_eq.
    + by rewrite lookup_delete_ne.
  - assert (Hne : x <> y).
    { intros ->. specialize (Hx r (S k) ltac:(by econstructor)). lia. }
    econstructor.
    + rewrite lookup_delete_ne by done. exact Hy.
    + apply IH. intros r' k' Hx'. specialize (Hx r' k' Hx'). lia.
Qed.

Lemma pathTo_bound (m : forest) x r k : pathTo m x r k -> (k <= size m)%nat.
Proof.
  revert m x. induction k as [|k IH]; intros m x H; [lia|].
  inversion H as [|? p ? ? Hx Hp]; subst.
  assert (Hdel : pathTo (delete x m) p r k).
  { apply pathTo_delete; [done|]. intros r' k' Hx'.
    destruct (pathTo_det _ _ _ _ _ _ H Hx') as [_ <-]. lia. }
  apply IH in Hdel.
  rewrite map_size_delete_Some in Hdel by (by rewrite Hx).
  assert (size m <> O).
  { intros Hz. apply map_size_empty_inv in Hz. subst m.
    by rewrite lookup_empty in Hx. }
  lia.
Qed.

(** Rewriting the link of a node to its own root -- a step of path
    compression -- keeps the root of every node and lengthens no path. *)
Lemma pathTo_compress_step (m : forest) y ry ky x r k :
  is_Some (m !! y) -> pathTo m y ry ky -> pathTo m x r k ->
  exists k', (k' <= k)%nat /\ pathTo (<[y := ry]> m) x r k'.
Proof.
  intros Hy Hpy H. induction H as [x Hx | x p r k Hx Hp IH].
  - exists O. split; [lia|]. constructor.
    rewrite lookup_insert_ne; [done|]. intros ->. rewrite Hx in Hy. by destruct Hy.
  - destruct (decide (x = y)) as [->|Hne].
    + destruct (pathTo_det _ _ _ _ _ _ Hpy (path_step _ _ _ _ _ Hx Hp)) as [-> _].
      exists 1%nat. split; [lia|]. econstructor; [apply lookup_insert_eq|].
      constructor. rewrite lookup_insert_ne.
      * eapply pathTo_root; eauto.
      * intros ->. apply pathTo_root in Hp. rewrite Hp in Hy. by destruct Hy.
    + destruct IH as (k' & Hk' & IH). exists (S k'). split; [lia|].
      econstructor; [|exact IH]. by rewrite lookup_insert_ne.
Qed.

(** Linking a root [b] below a node [a] of another tree: the nodes of [b]'s
    tree get the root of [a], all others keep theirs. *)
Lemma pathTo_link_other (m : forest) a b y r k :
  m !! b = None -> pathTo m y r k -> r <> b -> pathTo (<[b := a]> m) y r k.
Proof.
  intros Hb H Hr. induction H as [y Hy | y p r k Hy Hp IH].
  - constructor. by rewrite lookup_insert_ne.
  - econstructor; [|by apply IH]. rewrite lookup_insert_ne; [done|].
    intros ->. congruence.
Qed.

Lemma pathTo_link (m : forest) a b ra ka x r k :
  m !! b = None -> pathTo m a ra ka -> ra <> b -> pathTo m x r k ->
  exists k', pathTo (<[b := a]> m) x (if decide (r = b) then ra else r) k'.
Proof.
  intros Hb Ha Hra H. induction H as [x Hx | x p r k Hx Hp IH].
  - case_decide as Hxb.
    + subst x. exists (S ka). econstructor; [apply lookup_insert_eq|].
      by apply pathTo_link_other.
    + exists O. constructor. by rewrite lookup_insert_ne.
  - destruct IH as (k' & IH). exists (S k'). econstructor; [|exact IH].
    rewrite lookup_insert_ne; [done|]. intros ->. congruence.
Qed.

(** [m'] gives every node the root it has in [m], by a path that is no
    longer: what path compression does to the forest. *)
Definition sameRoots (m m' : forest) : Prop :=
  forall x r k, pathTo m x r k -> exists k', (k' <= k)%nat /\ pathTo m' x r k'.

Lemma sameRoots_refl (m : forest) : sameRoots m m.
Proof. intros x r k H. exists k. split; [lia | done]. Qed.

Lemma sameRoots_trans (m1 m2 m3 : forest) :
  sameRoots m1 m2 -> sameRoots m2 m3 -> sameRoots m1 m3.
Proof.
  intros H12 H23 x r k H. destruct (H12 _ _ _ H) as (k2 & Hk2 & H2).
  destruct (H23 _ _ _ H2) as (k3 & Hk3 & H3). exists k3. split; [lia | done].
Qed.

Lemma sameRoots_wfForest (m m' : forest) :
  sameRoots m m' -> wfForest m -> wfForest m'.
Proof.
  intros Hs Hwf x. destruct (Hwf x) as (r & k & H).
  destruct (Hs _ _ _ H) as (k' & _ & H'). eauto.
Qed.

Lemma sameRoots_isRoot (m m' : forest) r :
  sameRoots m m' -> m !! r = None -> m' !! r = None.
Proof.
  intros Hs Hr. destruct (Hs r r O (path_root _ _ Hr)) as (k' & Hk' & H').
  eapply pathTo_root; eauto.
Qed.

Lemma compressPath_spec (fuel : nat) (m : forest) id root j :
  pathTo m id root j -> (j <= fuel)%nat ->
  exists m', compressPath fuel m id root = Some m' /\ sameRoots m m'.
Proof.
  revert m id j. induction fuel as [|fuel IH]; intros m id j H Hj.
  - assert (j = O) as -> by lia. inversion H; subst. simpl.
    rewrite decide_True by done. eauto using sameRoots_refl.
  - inversion H as [? Hid | ? next ? j' Hid Hnext]; subst; simpl.
    + rewrite decide_True by done. eauto using sameRoots_refl.
    + assert (Hne : id <> root).
      { intros ->. apply pathTo_root in Hnext. congruence. }
      rewrite decide_False by done. rewrite Hid.
      assert (Hstep : sameRoots m (<[id := root]> m)).
      { intros x r k Hx.
        apply (pathTo_compress_step m id root (S j') x r k); [by rewrite Hid | exact H | exact Hx]. }
      destruct (Hstep _ _ _ Hnext) as (j'' & Hj'' & Hnext').
      destruct (IH _ _ _ Hnext' ltac:(lia)) as (m' & -> & Hm').
      eauto using sameRoots_trans.
Qed.

(** In a forest [getRoot] returns the root, and leaves a forest with the
    same roots. *)
Lemma getRoot_spec (m : forest) x r k :
  pathTo m x r k ->
  exists m', getRoot m x = Some (r, m') /\ sameRoots m m'.
Proof.
  intros H. unfold getRoot.
  inversion H as [? Hx | ? p ? k' Hx Hp]; subst.
  - rewrite Hx. eauto using sameRoots_refl.
  - rewrite Hx. pose proof (pathTo_bound _ _ _ _ H) as Hb.
    rewrite (walkToRoot_pathTo _ _ _ _ _ Hp) by lia.
    case_decide; [eauto using sameRoots_refl|].
    destruct (compressPath_spec (size m) _ _ _ _ H Hb) as (m' & -> & Hm').
    eauto.
Qed.

Lemma getRoot_of_root (m : forest) r : m !! r = None -> getRoot m r = Some (r, m).
Proof. intros Hr. unfold getRoot. by rewrite Hr. Qed.

Lemma extractSegmentation_spec (segmentation : list nat) (m : forest) :
  wfForest m ->
  exists m' segmentation',
    extractSegmentation m segmentation = Some (m', segmentation') /\
    sameRoots m m' /\
    Forall (fun r => m' !! r = None) segmentation' /\
    Forall2 (fun x r => exists k, pathTo m x r k) segmentation segmentation'.
Proof.
  revert m. induction segmentation as [|x rest IH]; intros m Hwf; simpl.
  - exists m, []. eauto using sameRoots_refl.
  - destruct (Hwf x) as (r & k & Hx).
    destruct (getRoot_spec _ _ _ _ Hx) as (m1 & -> & H1).
    destruct (IH m1 (sameRoots_wfForest _ _ H1 Hwf)) as (m2 & rest' & -> & H2 & Hroots & Hrel).
    exists m2, (r :: rest'). split; [done|]. split; [eauto using sameRoots_trans|].
    split.
    + constructor; [|done].
      eapply sameRoots_isRoot; [exact H2|]. eapply sameRoots_isRoot; [exact H1|].
      eapply pathTo_root; eauto.
    + constructor; [eauto|].
      eapply Forall2_impl; [exact Hrel|]. intros y ry (ky & Hy). simpl in Hy.
      destruct (Hwf y) as (ry0 & ky0 & Hy0).
      destruct (H1 _ _ _ Hy0) as (ky1 & _ & Hy1).
      destruct (pathTo_det _ _ _ _ _ _ Hy Hy1) as [-> _]. eauto.
Qed.

Lemma extractSegmentation_roots (segmentation : list nat) (m : forest) :
  Forall (fun r => m !! r = None) segmentation ->
  extractSegmentation m segmentation = Some (m, segmentation).
Proof.
  induction 1 as [|r rest Hr _ IH]; simpl; [done|].
  by rewrite (getRoot_of_root _ _ Hr), IH.
Qed.

(** C8: [extractSegmentation] is idempotent: on a forest it returns, and a
    second application to the volume it produced changes neither the volume
    nor the forest. *)
Theorem extractSegmentation_idempotent (m : forest) (segmentation : list nat) :
  wfForest m ->
  exists m' segmentation',
    extractSegmentation m segmentation = Some (m', segmentation') /\
    extractSegmentation m' segmentation' = Some (m', segmentation').
Proof.
  intros Hwf.
  destruct (extractSegmentation_spec segmentation m Hwf)
    as (m' & segmentation' & Hfirst & _ & Hroots & _).
  exists m', segmentation'. split; [exact Hfirst|].
  by apply extractSegmentation_roots.
Qed.

(** *** Merging two regions *)

(** [x] and [y] have the same root. *)
Definition joined (m : forest) (x y : nat) : Prop :=
  exists r kx ky, pathTo m x r kx /\ pathTo m y r ky.

Lemma distinctRegions_spec (m : forest) a b :
  distinctRegions m a b = true ->
  m !! b = None /\ exists ra ka, pathTo m a ra ka /\ ra <> b.
Proof.
  unfold distinctRegions, isRoot. intros H. apply andb_true_iff in H as [Hb Ha].
  apply bool_decide_eq_true in Hb. split; [done|].
  destruct (walkToRoot (size m) m a) as [ra|] eqn:Hw; [|done].
  apply negb_true_iff, Nat.eqb_neq in Ha.
  apply pathTo_walkToRoot in Hw as (ka & _ & Hp). eauto.
Qed.

Lemma link_wfForest (m : forest) a b :
  wfForest m -> distinctRegions m a b = true -> wfForest (<[b := a]> m).
Proof.
  intros Hwf Hd x. apply distinctRegions_spec in Hd as (Hb & ra & ka & Ha & Hra).
  destruct (Hwf x) as (r & k & Hx).
  destruct (pathTo_link m a b ra ka x r k Hb Ha Hra Hx) as (k' & Hx'). eauto.
Qed.

Lemma link_joins (m : forest) a b :
  distinctRegions m a b = true -> joined (<[b := a]> m) b a.
Proof.
  intros Hd. apply distinctRegions_spec in Hd as (Hb & ra & ka & Ha & Hra).
  destruct (pathTo_link m a b ra ka b b O Hb Ha Hra (path_root _ _ Hb)) as (kb & Hb').
  destruct (pathTo_link m a b ra ka a ra ka Hb Ha Hra Ha) as (ka' & Ha').
  rewrite decide_True in Hb' by done. rewrite decide_False in Ha' by done.
  exists ra, kb, ka'. done.
Qed.

Lemma link_joined (m : forest) a b x y :
  distinctRegions m a b = true -> joined m x y -> joined (<[b := a]> m) x y.
Proof.
  intros Hd (r & kx & ky & Hx & Hy).
  apply distinctRegions_spec in Hd as (Hb & ra & ka & Ha & Hra).
  destruct (pathTo_link m a b ra ka x r kx Hb Ha Hra Hx) as (kx' & Hx').
  destruct (pathTo_link m a b ra ka y r ky Hb Ha Hra Hy) as (ky' & Hy').
  eexists _, kx', ky'. done.
Qed.

Lemma sameRoots_joined (m m' : forest) x y :
  sameRoots m m' -> joined m x y -> joined m' x y.
Proof.
  intros Hs (r & kx & ky & Hx & Hy).
  destruct (Hs _ _ _ Hx) as (kx' & _ & Hx').
  destruct (Hs _ _ _ Hy) as (ky' & _ & Hy'). exists r, kx', ky'. done.
Qed.

Lemma joined_getRoot (m : forest) x y :
  joined m x y ->
  exists r m1 m2, getRoot m x = Some (r, m1) /\ getRoot m1 y = Some (r, m2).
Proof.
  intros (r & kx & ky & Hx & Hy).
  destruct (getRoot_spec _ _ _ _ Hx) as (m1 & Hg1 & H1).
  destruct (H1 _ _ _ Hy) as (ky' & _ & Hy').
  destruct (getRoot_spec _ _ _ _ Hy') as (m2 & Hg2 & _).
  exists r, m1, m2. done.
Qed.

Lemma extractSegmentation_idempotent_witness :
  exists m' segmentation',
    extractSegmentation (<[3%nat := 2%nat]> (<[2%nat := 1%nat]> ∅)) [3; 2; 1; 4]%nat
    = Some (m', segmentation') /\
    extractSegmentation m' segmentation' = Some (m', segmentation').
Proof.
  apply extractSegmentation_idempotent.
  apply link_wfForest; [apply link_wfForest; [apply wfForest_empty|] |];
    vm_compute; reflexivity.
Defined.

End ForestFacts.

(** ** The edge queue *)

Module QueueFacts.

Import IterativeRegionMerging.

Section WithScores.

Variable edgeScores : EdgeMap Q.

Lemma Qgt_bool_spec (x y : Q) : Qgt_bool x y = true <-> (y < x)%Q.
Proof.
  unfold Qgt_bool. rewrite negb_true_iff.
  destruct (Qle_bool x y) eqn:E.
  - apply Qle_bool_iff in E. split; [done | lra].
  - split; [|done]. intros _. apply Qnot_le_lt. intros Hle.
    apply Qle_bool_iff in Hle. congruence.
Qed.

Lemma EdgeCompare_spec (a b : EdgeIdType) :
  EdgeCompare edgeScores a b = true <->
  (edgeScores b < edgeScores a)%Q \/
  (edgeScores a == edgeScores b /\ (b < a)%nat).
Proof.
  unfold EdgeCompare. destruct (Qeq_bool _ _) eqn:E.
  - apply Qeq_bool_iff in E. rewrite Nat.ltb_lt. split; [by right|].
    intros [Hlt | [_ Hlt]]; [lra | done].
  - apply Qeq_bool_neq in E. rewrite Qgt_bool_spec. split; [by left|].
    intros [Hlt | [Heq _]]; [done | contradiction].
Qed.

Lemma EdgeCompare_false (a b : EdgeIdType) :
  EdgeCompare edgeScores a b = false <->
  (edgeScores a < edgeScores b)%Q \/
  (edgeScores a == edgeScores b /\ (a <= b)%nat).
Proof.
  rewrite <- not_true_iff_false, EdgeCompare_spec. split.
  - intros Hc. destruct (Q_dec (edgeScores a) (edgeScores b)) as [[Hlt | Hgt] | Heq].
    + by left.
    + exfalso. apply Hc. by left.
    + right. split; [done|]. destruct (le_lt_dec a b); [done|].
      exfalso. apply Hc. by right.
  - intros Hc [H1 | [H1 H2]]; destruct Hc as [H3 | [H3 H4]]; try lra; lia.
Qed.

(** [top] is an element of the queue that the comparator orders before no
    element of the queue. *)
Lemma queue_top_from_spec (rest : list EdgeIdType) (first : EdgeIdType) :
  queue_top_from edgeScores first rest ∈ first :: rest /\
  forall y, y ∈ first :: rest ->
            EdgeCompare edgeScores (queue_top_from edgeScores first rest) y = false.
Proof.
  unfold queue_top_from. revert first.
  induction rest as [|x rest IH]; intros first; simpl.
  - split; [by left|]. intros y Hy. apply list_elem_of_singleton in Hy as ->.
    apply EdgeCompare_false. right. split; [reflexivity | lia].
  - destruct (IH (if EdgeCompare edgeScores first x then x else first)) as [Hin Hmax].
    set (t := fold_left _ rest _) in *.
    destruct (EdgeCompare edgeScores first x) eqn:Hfx.
    + split.
      * apply elem_of_cons in Hin as [-> | Hin]; [right; left | right; right]; done.
      * intros y Hy. apply elem_of_cons in Hy as [-> | Hy]; [|by apply Hmax].
        pose proof (Hmax x ltac:(by left)) as Htx.
        apply EdgeCompare_spec in Hfx. apply EdgeCompare_false in Htx.
        apply EdgeCompare_false.
        destruct Hfx as [? | [? ?]]; destruct Htx as [? | [? ?]];
          first [left; lra | right; split; [lra | lia]].
    + split.
      * apply elem_of_cons in Hin as [-> | Hin]; [left | right; right]; done.
      * intros y Hy. apply elem_of_cons in Hy as [-> | Hy]; [by apply Hmax; left|].
        apply elem_of_cons in Hy as [-> | Hy]; [|by apply Hmax; right].
        pose proof (Hmax first ltac:(by left)) as Htf.
        apply EdgeCompare_false in Hfx. apply EdgeCompare_false in Htf.
        apply EdgeCompare_false.
        destruct Hfx as [? | [? ?]]; destruct Htf as [? | [? ?]];
          first [left; lra | right; split; [lra | lia]].
Qed.

Lemma queue_top_elem (queue : list EdgeIdType) (t : EdgeIdType) :
  queue_top edgeScores queue = Some t -> t ∈ queue.
Proof.
  destruct queue as [|first rest]; [done|]. simpl. intros [= <-].
  apply queue_top_from_spec.
Qed.

Lemma queue_top_max (queue : list EdgeIdType) (t y : EdgeIdType) :
  queue_top edgeScores queue = Some t -> y ∈ queue ->
  EdgeCompare edgeScores t y = false.
Proof.
  destruct queue as [|first rest]; [done|]. simpl. intros [= <-].
  apply queue_top_from_spec.
Qed.

Lemma queue_top_nonempty (queue : list EdgeIdType) :
  queue <> [] -> exists t, queue_top edgeScores queue = Some t.
Proof. destruct queue; [done|]. simpl. eauto. Qed.

Lemma length_remove_first (t : EdgeIdType) (queue : list EdgeIdType) :
  t ∈ queue -> S (length (remove_first t queue)) = length queue.
Proof.
  induction queue as [|y queue IH]; intros Ht; [by apply elem_of_nil in Ht|].
  simpl. case_decide; [done|]. simpl. f_equal. apply IH.
  apply elem_of_cons in Ht as [-> | Ht]; done.
Qed.

Lemma elem_of_remove_first (t y : EdgeIdType) (queue : list EdgeIdType) :
  y <> t -> y ∈ queue -> y ∈ remove_first t queue.
Proof.
  intros Hne. induction queue as [|z queue IH]; intros Hy; [done|].
  simpl. apply elem_of_cons in Hy as [-> | Hy].
  - rewrite decide_False by done. by left.
  - case_decide; [done|]. right. by apply IH.
Qed.


(** C10: of two queued edges with equal cached scores the one with the
    smaller edge id is popped first: it is handed out while the other one
    is still in the queue. *)
Theorem equal_scores_pop_smaller_id_first (queue : list EdgeIdType) (a b : EdgeIdType) :
  a ∈ queue -> b ∈ queue -> (edgeScores a == edgeScores b)%Q -> (a < b)%nat ->
  queue_top edgeScores queue <> Some b /\
  exists before after,
    popOrder edgeScores (length queue) queue = before ++ a :: after /\ b ∉ before.
Proof.
  intros Ha Hb Heq Hlt.
  assert (Htop : forall q, a ∈ q -> queue_top edgeScores q <> Some b).
  { intros q Haq Hq. pose proof (queue_top_max q b a Hq Haq) as Hmax.
    apply EdgeCompare_false in Hmax. destruct Hmax as [? | [_ ?]]; [lra | lia]. }
  split; [by apply Htop|].
  remember (length queue) as n eqn:Hn. revert queue Ha Hb Hn.
  induction n as [|n IH]; intros queue Ha Hb Hn.
  - destruct queue; [by apply elem_of_nil in Ha | done].
  - simpl. destruct (queue_top edgeScores queue) as [t|] eqn:Ht.
    + destruct (decide (t = a)) as [->|Hta].
      * exists [], (popOrder edgeScores n (queue_pop edgeScores queue)). split; [done|].
        apply not_elem_of_nil.
      * assert (Htb : t <> b) by (intros ->; by apply (Htop queue Ha)).
        unfold queue_pop. rewrite Ht.
        destruct (IH (remove_first t queue)) as (before & after & -> & Hbefore).
        -- by apply elem_of_remove_first.
        -- by apply elem_of_remove_first.
        -- pose proof (length_remove_first t queue (queue_top_elem _ _ Ht)). lia.
        -- exists (t :: before), after. split; [done|].
           intros Hin. apply elem_of_cons in Hin as [-> | Hin]; done.
    + destruct queue; [by apply elem_of_nil in Ha | done].
Qed.

End WithScores.

Lemma equal_scores_pop_smaller_id_first_witness :
  queue_top (fun _ => (1 # 2)%Q) [5; 3; 4]%nat <> Some 5%nat /\
  exists before after,
    popOrder (fun _ => (1 # 2)%Q) 3 [5; 3; 4]%nat = before ++ 3%nat :: after /\
    5%nat ∉ before.
Proof.
  apply (equal_scores_pop_smaller_id_first (fun _ => (1 # 2)%Q) [5; 3; 4]%nat 3%nat 5%nat).
  - apply list_elem_of_In. simpl. tauto.
  - apply list_elem_of_In. simpl. tauto.
  - reflexivity.
  - lia.
Defined.

End QueueFacts.

(** ** The merge step *)

Module MergeFacts.

Import IterativeRegionMerging ForestFacts.

Section WithEngine.

Context {G F : Type} `{RegionGraph G} `{EdgeScoringFunction F}.

(** *** Folding a fallible step over a list *)

Lemma fold_bind_Failed {A X : Type} (k : X -> A -> outcome A) (l : list X) why :
  fold_left (fun acc x => bind acc (k x)) l (Failed why) = Failed why.
Proof. induction l; simpl; done. Qed.

Lemma fold_bind_OutOfFuel {A X : Type} (k : X -> A -> outcome A) (l : list X) :
  fold_left (fun acc x => bind acc (k x)) l OutOfFuel = OutOfFuel.
Proof. induction l; simpl; done. Qed.

Lemma fold_bind_inv {A X : Type} (P : A -> Prop) (k : X -> A -> outcome A)
    (l : list X) :
  (forall x a a', P a -> k x a = Done a' -> P a') ->
  forall a r, P a ->
    fold_left (fun acc x => bind acc (k x)) l (Done a) = Done r -> P r.
Proof.
  intros Hk. induction l as [|x l IH]; intros a r Ha; simpl.
  - by intros [= <-].
  - destruct (k x a) as [a1 | why |] eqn:Hka.
    + apply IH. eapply Hk; eauto.
    + by rewrite fold_bind_Failed.
    + by rewrite fold_bind_OutOfFuel.
Qed.

Lemma fold_bind_fuel {A X : Type} (k : X -> A -> outcome A) (l : list X) :
  (forall x a, k x a <> OutOfFuel) ->
  forall a, fold_left (fun acc x => bind acc (k x)) l (Done a) <> OutOfFuel.
Proof.
  intros Hk. induction l as [|x l IH]; intros a; simpl; [done|].
  destruct (k x a) as [a1 | why |] eqn:Hka.
  - apply IH.
  - by rewrite fold_bind_Failed.
  - by apply Hk in Hka.
Qed.

(** *** What a merge step leaves alone *)

(** The parts of the engine that the loop over the incident edges of [b]
    never writes. *)
Definition sameQueueAndForest (s s' : Engine G) : Prop :=
  _rootPaths s' = _rootPaths s /\ _edgeQueue s' = _edgeQueue s /\
  _edgeScores s' = _edgeScores s /\ _mergedUntil s' = _mergedUntil s.

Lemma updateIncidentEdge_frame e a b neighborEdge s f s' f' :
  updateIncidentEdge e a b neighborEdge (s, f) = Done (s', f') ->
  sameQueueAndForest s s'.
Proof.
  unfold updateIncidentEdge, sameQueueAndForest.
  repeat first [case_decide | case_match]; intros [= <- <-]; simpl; done.
Qed.

Lemma updateIncidentEdge_fuel e a b neighborEdge sf :
  updateIncidentEdge e a b neighborEdge sf <> OutOfFuel.
Proof.
  destruct sf as [s f]. unfold updateIncidentEdge.
  repeat first [case_decide | case_match]; done.
Qed.

Lemma markStale_frame (es : list EdgeIdType) (s : Engine G) :
  sameQueueAndForest s
    (fold_left (fun s' neighborEdge => set_stale s' neighborEdge true) es s).
Proof.
  revert s. induction es as [|e es IH]; intros s; simpl.
  - by unfold sameQueueAndForest.
  - destruct (IH (set_stale s e true)) as (? & ? & ? & ?).
    unfold sameQueueAndForest. simpl in *. done.
Qed.

Lemma mergeRegions_frame e s f s' f' :
  mergeRegions e (s, f) = Done (s', f') ->
  _rootPaths s' =
    <[edge_v (_regionGraph s) e := edge_u (_regionGraph s) e]> (_rootPaths s) /\
  _edgeQueue s' = _edgeQueue s /\ _edgeScores s' = _edgeScores s /\
  _mergedUntil s' = _mergedUntil s.
Proof.
  unfold mergeRegions. intros Hm.
  set (s1 := set_rootPaths s _) in Hm.
  set (s2 := fold_left _ (incEdges _ _) s1) in Hm.
  assert (H2 : sameQueueAndForest s1 s2) by apply markStale_frame.
  pose proof (fold_bind_inv (fun sf => sameQueueAndForest s2 (fst sf))
                (updateIncidentEdge e (edge_u (_regionGraph s) e) (edge_v (_regionGraph s) e))
                (incEdges (_regionGraph s) (edge_v (_regionGraph s) e))) as Hinv.
  simpl in Hinv. specialize (Hinv ltac:(
    intros x [sa fa] [sb fb] Ha Hk; apply updateIncidentEdge_frame in Hk;
    unfold sameQueueAndForest in *; simpl in *; intuition congruence)).
  assert (Hrefl : sameQueueAndForest s2 s2) by (by unfold sameQueueAndForest).
  specialize (Hinv (s2, _) (s', f') Hrefl Hm).
  unfold sameQueueAndForest in *. simpl in *. subst s1. simpl in *.
  intuition congruence.
Qed.

Lemma mergeRegions_fuel e sf : mergeRegions e sf <> OutOfFuel.
Proof.
  destruct sf as [s f]. unfold mergeRegions. apply fold_bind_fuel.
  intros x a. apply updateIncidentEdge_fuel.
Qed.

(** *** Collapsing parallel edges *)

(** C1, as the code has it: when the absorbed region [b] shares a neighbor
    with the surviving region [a], the edge with the strictly cheaper cached
    score survives; when the two cached scores are equal it is the edge of
    [b] that is kept (relocated to [a]) and the pre-existing edge of [a] that
    is discarded.  The discarded edge is soft-deleted and its statistics are
    merged into the survivor. *)
Theorem parallel_edges_collapse e a b neighborEdge aNeighborEdge (s : Engine G) (f : F) :
  neighborEdge <> e ->
  findEdge (_regionGraph s) a (getOpposite (_regionGraph s) b neighborEdge)
    = Some aNeighborEdge ->
  let neighbor := getOpposite (_regionGraph s) b neighborEdge in
  let r := updateIncidentEdge e a b neighborEdge (s, f) in
  ((_edgeScores s aNeighborEdge < _edgeScores s neighborEdge)%Q ->
   exists s',
     r = Done (s', notifyEdgeMerge f neighborEdge aNeighborEdge) /\
     _deleted s' neighborEdge = true /\
     (aNeighborEdge <> neighborEdge ->
      _deleted s' aNeighborEdge = _deleted s aNeighborEdge) /\
     _regionGraph s' = _regionGraph s) /\
  ((_edgeScores s neighborEdge <= _edgeScores s aNeighborEdge)%Q ->
   findEdge (moveEdge (removeEdge (_regionGraph s) aNeighborEdge) neighborEdge a neighbor)
            a neighbor = Some neighborEdge ->
   exists s',
     r = Done (s', notifyEdgeMerge f aNeighborEdge neighborEdge) /\
     _deleted s' aNeighborEdge = true /\
     (aNeighborEdge <> neighborEdge ->
      _deleted s' neighborEdge = _deleted s neighborEdge) /\
     _stale s' neighborEdge = true /\
     _regionGraph s' =
       moveEdge (removeEdge (_regionGraph s) aNeighborEdge) neighborEdge a neighbor).
Proof.
  intros Hne Hfind neighbor r. subst neighbor r. unfold updateIncidentEdge.
  rewrite decide_False by done. cbv zeta. rewrite Hfind. split.
  - intros Hlt. apply QueueFacts.Qgt_bool_spec in Hlt. rewrite Hlt.
    eexists. split; [reflexivity|]. simpl. unfold set_at.
    rewrite decide_True by done. split; [done|]. split; [|done].
    intros Hd. by rewrite decide_False.
  - intros Hle Hmoved.
    assert (Hgt : Qgt_bool (_edgeScores s neighborEdge) (_edgeScores s aNeighborEdge) = false).
    { apply not_true_iff_false. rewrite QueueFacts.Qgt_bool_spec. lra. }
    rewrite Hgt, decide_True by done.
    eexists. split; [reflexivity|]. simpl. unfold set_at.
    split; [by rewrite decide_True|].
    split; [intros Hd; by rewrite decide_False|].
    split; [by rewrite decide_True | done].
Qed.

(** *** Merged regions keep a common root *)

Lemma engineStep_joined sf sf' x y :
  engineStep sf sf' ->
  wfForest (_rootPaths (fst sf)) /\ joined (_rootPaths (fst sf)) x y ->
  wfForest (_rootPaths (fst sf')) /\ joined (_rootPaths (fst sf')) x y.
Proof.
  intros Hstep [Hwf Hj].
  destruct Hstep as [s f e [s' f'] Hd Hm | s f segmentation m' segmentation' He]; simpl in *.
  - apply mergeRegions_frame in Hm as (-> & _).
    split; [by apply link_wfForest | by apply link_joined].
  - destruct (extractSegmentation_spec segmentation _ Hwf) as (m'' & seg'' & He' & Hs & _).
    rewrite He in He'. injection He' as <- <-.
    split; [by eapply sameRoots_wfForest | by eapply sameRoots_joined].
Qed.

(** C7: right after a merge step that absorbs region [b] into region [a],
    and after any number of further merges and extractions, [getRoot(b)]
    and [getRoot(a)] return the same root. *)
Theorem merged_regions_share_root e (s : Engine G) (f : F) sf1 sf2 :
  let a := edge_u (_regionGraph s) e in
  let b := edge_v (_regionGraph s) e in
  wfForest (_rootPaths s) ->
  distinctRegions (_rootPaths s) a b = true ->
  mergeRegions e (s, f) = Done sf1 ->
  rtc engineStep sf1 sf2 ->
  exists r m1 m2,
    getRoot (_rootPaths (fst sf2)) b = Some (r, m1) /\
    getRoot m1 a = Some (r, m2).
Proof.
  intros a b Hwf Hd Hm Hsteps. apply joined_getRoot.
  assert (H1 : wfForest (_rootPaths (fst sf1)) /\ joined (_rootPaths (fst sf1)) b a).
  { destruct sf1 as [s1 f1]. apply mergeRegions_frame in Hm as (Hm & _).
    simpl. rewrite Hm. split; [by apply link_wfForest | by apply link_joins]. }
  clear Hm. induction Hsteps as [sf | sf sf' sf'' Hstep _ IH]; [apply H1|].
  apply IH. eapply engineStep_joined; eauto.
Qed.

End WithEngine.

End MergeFacts.

Module MergeExamples.

Import IterativeRegionMerging ForestFacts MergeFacts Collaborators.

(** C1, as stated, fails on a triangle whose edges 1-3 (edge 1) and 2-3
    (edge 2) have the same score: when 2 is absorbed into 1, the edge of
    the survivor is the one that is soft-deleted and the edge of the
    absorbed region is kept. *)
Lemma tie_discards_edge_of_survivor_counterexample :
  (ts_table triangleScores 1 == ts_table triangleScores 2)%Q /\
  ~ (forall s' f',
       mergeUntil (1 # 4) (create triangle, triangleScores) = Done (s', f') ->
       _deleted s' 1%nat = false /\ _deleted s' 2%nat = true).
Proof.
  split; [reflexivity|]. intros Hclaim.
  assert (Hrun : exists s' f',
             mergeUntil (1 # 4) (create triangle, triangleScores) = Done (s', f') /\
             _deleted s' 1%nat = true).
  { eexists _, _. split; [vm_compute; reflexivity | reflexivity]. }
  destruct Hrun as (s' & f' & Hrun & Hdel).
  destruct (Hclaim s' f' Hrun) as [Hkept _]. congruence.
Qed.

Lemma parallel_edges_collapse_witness :
  let s := fst (scoreAllEdges (create triangle, triangleScores)) in
  exists s',
    updateIncidentEdge 0 1 2 2 (s, triangleScores)
    = Done (s', notifyEdgeMerge triangleScores 1%nat 2%nat) /\
    _deleted s' 1%nat = true /\
    (1%nat <> 2%nat -> _deleted s' 2%nat = _deleted s 2%nat) /\
    _stale s' 2%nat = true /\
    _regionGraph s' = moveEdge (removeEdge (_regionGraph s) 1%nat) 2%nat 1%nat 3%nat.
Proof.
  intros s.
  apply (proj2 (parallel_edges_collapse 0 1 2 2 1 s triangleScores
                  ltac:(lia) ltac:(vm_compute; reflexivity))).
  - vm_compute. discriminate.
  - vm_compute. reflexivity.
Defined.

(** The state after merging the regions of edge [e], when the merge goes
    through. *)
Definition afterMerge (e : EdgeIdType) (sf : Engine ListGraph * TableScoring)
    : Engine ListGraph * TableScoring :=
  match mergeRegions e sf with
  | Done sf' => sf'
  | _ => sf
  end.

Lemma merged_regions_share_root_witness :
  let sf1 := afterMerge 0 (create chain, chainScores) in
  let sf2 := afterMerge 2 sf1 in
  exists r m1 m2,
    getRoot (_rootPaths (fst sf2)) 2%nat = Some (r, m1) /\
    getRoot m1 1%nat = Some (r, m2).
Proof.
  intros sf1 sf2.
  change 2%nat with (edge_v (_regionGraph (create chain)) 0).
  change 1%nat with (edge_u (_regionGraph (create chain)) 0).
  apply (merged_regions_share_root 0 (create chain) chainScores sf1 sf2).
  - apply wfForest_empty.
  - vm_compute. reflexivity.
  - vm_compute. reflexivity.
  - eapply rtc_l; [|apply rtc_refl].
    apply (step_merge (fst sf1) (snd sf1) 2 sf2); vm_compute; reflexivity.
Defined.

End MergeExamples.

(** ** The merge loop *)

Module LoopFacts.

Import IterativeRegionMerging MergeFacts QueueFacts.

Section WithEngine.

Context {G F : Type} `{RegionGraph G} `{EdgeScoringFunction F}.

(** The loop of [mergeUntil] read as a guard and a round: the guard is the
    loop condition together with the threshold test, the round is the rest
    of the loop body. *)
Definition continues (threshold : Q) (sf : Engine G * F) : bool :=
  match queue_top (_edgeScores (fst sf)) (_edgeQueue (fst sf)) with
  | None => false
  | Some next => negb (Qle_bool threshold (_edgeScores (fst sf) next))
  end.

Definition loopRound (sf : Engine G * F) : outcome (Engine G * F) :=
  let '(s, f) := sf in
  match queue_top (_edgeScores s) (_edgeQueue s) with
  | None => Done (s, f)
  | Some next =>
      let score := _edgeScores s next in
      let s1 := set_edgeQueue s (queue_pop (_edgeScores s) (_edgeQueue s)) in
      if _deleted s1 next then Done (s1, f)
      else if _stale s1 next then
        let '(newScore, s2, f2) := scoreEdge next s1 f in
        let s3 := set_stale s2 next false in
        if Qle_bool score newScore then Done (s3, f2)
        else Failed MonotonicityViolated
      else mergeRegions next (s1, f)
  end.

Lemma mergeLoop_S (fuel : nat) (threshold : Q) (sf : Engine G * F) :
  mergeLoop (S fuel) threshold sf =
  if continues threshold sf then bind (loopRound sf) (mergeLoop fuel threshold)
  else Done sf.
Proof.
  destruct sf as [s f]. unfold continues, loopRound. simpl.
  destruct (queue_top (_edgeScores s) (_edgeQueue s)) as [next|]; [|done].
  destruct (Qle_bool threshold (_edgeScores s next)); simpl; [done|].
  destruct (_deleted s next); [done|].
  destruct (_stale s next).
  - unfold scoreEdge. destruct (scoreOf f next) as [newScore f2]. simpl.
    destruct (Qle_bool (_edgeScores s next) newScore); done.
  - reflexivity.
Qed.

Lemma continues_mono (t1 t2 : Q) (sf : Engine G * F) :
  (t1 <= t2)%Q -> continues t1 sf = true -> continues t2 sf = true.
Proof.
  unfold continues. intros Ht.
  destruct (queue_top _ _) as [next|]; [|done].
  rewrite !negb_true_iff. intros H1. apply not_true_iff_false.
  apply not_true_iff_false in H1. rewrite Qle_bool_iff in *. lra.
Qed.

Lemma loopRound_fuel (sf : Engine G * F) : loopRound sf <> OutOfFuel.
Proof.
  destruct sf as [s f]. unfold loopRound.
  destruct (queue_top _ _) as [next|]; [|done]. simpl.
  destruct (_deleted s next); [done|].
  destruct (_stale s next); [|apply mergeRegions_fuel].
  unfold scoreEdge. destruct (scoreOf f next) as [newScore f2].
  destruct (Qle_bool _ _); done.
Qed.

(** More fuel does not change a result that was reached. *)
Lemma mergeLoop_fuel_mono (n m : nat) (threshold : Q) (sf : Engine G * F) :
  (n <= m)%nat -> mergeLoop n threshold sf <> OutOfFuel ->
  mergeLoop m threshold sf = mergeLoop n threshold sf.
Proof.
  revert m sf. induction n as [|n IH]; intros m sf Hnm Hr; [done|].
  destruct m as [|m]; [lia|]. rewrite !mergeLoop_S in *.
  destruct (continues threshold sf); [|done].
  destruct (loopRound sf) as [sf' | why |]; simpl in *; [|done|done].
  apply IH; [lia | done].
Qed.

(** *** Termination *)

Definition staleCount (s : Engine G) : nat :=
  length (filter (fun e => _stale s e = true) (_edgeQueue s)).

Definition loopMeasure (s : Engine G) : nat :=
  (length (_edgeQueue s) * S (length (_edgeQueue s)) + staleCount s)%nat.

Lemma staleCount_le (s : Engine G) : (staleCount s <= length (_edgeQueue s))%nat.
Proof. apply length_filter. Qed.

Lemma loopMeasure_lt_loopFuel (s : Engine G) : (loopMeasure s < loopFuel s)%nat.
Proof. unfold loopMeasure, loopFuel. pose proof (staleCount_le s). lia. Qed.

Lemma loopMeasure_shorter (s s' : Engine G) :
  S (length (_edgeQueue s')) = length (_edgeQueue s) ->
  (loopMeasure s' < loopMeasure s)%nat.
Proof.
  intros Hlen. unfold loopMeasure. pose proof (staleCount_le s'). nia.
Qed.

Lemma filter_remove_first (P : EdgeIdType -> Prop) `{!forall e, Decision (P e)}
    (t : EdgeIdType) (queue : list EdgeIdType) :
  t ∈ queue -> P t ->
  S (length (filter P (remove_first t queue))) = length (filter P queue).
Proof.
  intros Ht HP. induction queue as [|y queue IH]; [by apply elem_of_nil in Ht|].
  simpl. case_decide as Hty.
  - subst y. by rewrite filter_cons_True.
  - apply elem_of_cons in Ht as [-> | Ht]; [done|].
    rewrite !filter_cons. case_decide; simpl; rewrite <- IH; done.
Qed.

Lemma filter_length_mono (P P' : EdgeIdType -> Prop)
    `{!forall e, Decision (P e)} `{!forall e, Decision (P' e)} (l : list EdgeIdType) :
  (forall e, P' e -> P e) -> (length (filter P' l) <= length (filter P l))%nat.
Proof.
  intros Himp. induction l as [|y l IH]; [done|].
  rewrite !filter_cons. repeat case_decide; simpl; try lia.
  exfalso. eauto.
Qed.

Lemma loopRound_decreases (threshold : Q) (sf sf' : Engine G * F) :
  continues threshold sf = true -> loopRound sf = Done sf' ->
  (loopMeasure (fst sf') < loopMeasure (fst sf))%nat.
Proof.
  destruct sf as [s f]. unfold continues, loopRound. simpl.
  destruct (queue_top (_edgeScores s) (_edgeQueue s)) as [next|] eqn:Htop; [|done].
  intros _. pose proof (queue_top_elem _ _ _ Htop) as Hin.
  pose proof (length_remove_first next _ Hin) as Hlen.
  unfold queue_pop. rewrite Htop.
  destruct (_deleted s next).
  { intros [= <-]. by apply loopMeasure_shorter. }
  destruct (_stale s next) eqn:Hstale.
  - unfold scoreEdge. destruct (scoreOf f next) as [newScore f2]. simpl.
    destruct (Qle_bool _ _); [|done]. intros [= <-]. simpl.
    unfold loopMeasure, staleCount, queue_push. simpl.
    rewrite length_app, filter_app, length_app. simpl.
    rewrite filter_cons_False, filter_nil
      by (unfold set_at; rewrite decide_True; done).
    simpl.
    pose proof (filter_remove_first (fun e => _stale s e = true) next _ Hin Hstale) as Hcount.
    pose proof (filter_length_mono (fun e => _stale s e = true)
                  (fun e => set_at (_stale s) next false e = true)
                  (remove_first next (_edgeQueue s))) as Hmono.
    specialize (Hmono ltac:(intros e; unfold set_at; case_decide; done)).
    nia.
  - intros Hm. destruct sf' as [s' f'].
    apply mergeRegions_frame in Hm as (_ & Hq & _). simpl in *.
    apply loopMeasure_shorter. by rewrite Hq.
Qed.

(** The loop comes to an end: with more rounds than [loopMeasure], and so
    with [loopFuel] rounds, it is never cut short. *)
Lemma mergeLoop_terminates (n : nat) (threshold : Q) (sf : Engine G * F) :
  (loopMeasure (fst sf) < n)%nat -> mergeLoop n threshold sf <> OutOfFuel.
Proof.
  revert sf. induction n as [|n IH]; intros sf Hn; [lia|].
  rewrite mergeLoop_S. destruct (continues threshold sf) eqn:Hc; [|done].
  destruct (loopRound sf) as [sf' | why |] eqn:Hr; simpl; [|done|].
  - apply IH. pose proof (loopRound_decreases _ _ _ Hc Hr). lia.
  - by apply loopRound_fuel in Hr.
Qed.

(** *** Resuming with a higher threshold *)

Lemma mergeLoop_resume (t1 t2 : Q) (n : nat) (sf : Engine G * F) :
  (t1 <= t2)%Q ->
  match mergeLoop n t1 sf with
  | Done sf1 =>
      forall m, mergeLoop m t2 sf1 <> OutOfFuel ->
                mergeLoop (n + m) t2 sf = mergeLoop m t2 sf1
  | Failed why => mergeLoop n t2 sf = Failed why
  | OutOfFuel => True
  end.
Proof.
  intros Ht. revert sf. induction n as [|n IH]; intros sf; [done|].
  rewrite mergeLoop_S. destruct (continues t1 sf) eqn:Hc.
  - pose proof (continues_mono _ _ _ Ht Hc) as Hc2.
    destruct (loopRound sf) as [sf' | why |] eqn:Hr; cbn [bind]; [| |done].
    + specialize (IH sf'). destruct (mergeLoop n t1 sf') as [sf1 | why |]; [| |done].
      * intros m Hm. change (S n + m)%nat with (S (n + m)).
        rewrite mergeLoop_S, Hc2, Hr. cbn [bind]. by apply IH.
      * rewrite mergeLoop_S, Hc2, Hr. cbn [bind]. exact IH.
    + by rewrite mergeLoop_S, Hc2, Hr.
  - intros m Hm. apply mergeLoop_fuel_mono; [lia | done].
Qed.

(** *** The loop does not look at [_mergedUntil] *)

Definition withMergedUntil (x : Q) (sf : Engine G * F) : Engine G * F :=
  (set_mergedUntil (fst sf) x, snd sf).

Definition mapDone {A B : Type} (g : A -> B) (r : outcome A) : outcome B :=
  match r with
  | Done a => Done (g a)
  | Failed why => Failed why
  | OutOfFuel => OutOfFuel
  end.

Lemma updateIncidentEdge_mergedUntil x e a b neighborEdge (sf : Engine G * F) :
  updateIncidentEdge e a b neighborEdge (withMergedUntil x sf) =
  mapDone (withMergedUntil x) (updateIncidentEdge e a b neighborEdge sf).
Proof.
  destruct sf as [s f]. unfold updateIncidentEdge, withMergedUntil. cbn.
  repeat first [case_decide | case_match]; reflexivity.
Qed.

Lemma fold_bind_mapDone {A X : Type} (g : A -> A) (k : X -> A -> outcome A)
    (l : list X) :
  (forall x a, k x (g a) = mapDone g (k x a)) ->
  forall r, fold_left (fun acc x => bind acc (k x)) l (mapDone g r) =
            mapDone g (fold_left (fun acc x => bind acc (k x)) l r).
Proof.
  intros Hk. induction l as [|x l IH]; intros r; [done|]. simpl.
  destruct r as [a | why |]; simpl.
  - rewrite Hk. apply IH.
  - apply (IH (Failed why)).
  - apply (IH OutOfFuel).
Qed.

Lemma markStale_mergedUntil x (es : list EdgeIdType) (s : Engine G) :
  fold_left (fun s' neighborEdge => set_stale s' neighborEdge true) es
            (set_mergedUntil s x) =
  set_mergedUntil
    (fold_left (fun s' neighborEdge => set_stale s' neighborEdge true) es s) x.
Proof.
  revert s. induction es as [|e es IH]; intros s; [done|]. simpl.
  rewrite <- IH. reflexivity.
Qed.

Lemma mergeRegions_mergedUntil x e (sf : Engine G * F) :
  mergeRegions e (withMergedUntil x sf) = mapDone (withMergedUntil x) (mergeRegions e sf).
Proof.
  destruct sf as [s f]. unfold mergeRegions, withMergedUntil. cbn.
  rewrite <- (fold_bind_mapDone (withMergedUntil x)).
  - cbn. unfold withMergedUntil. cbn. f_equal. f_equal. f_equal.
    apply (markStale_mergedUntil x _ (set_rootPaths s _)).
  - intros ne sf. apply updateIncidentEdge_mergedUntil.
Qed.

Lemma continues_mergedUntil x threshold (sf : Engine G * F) :
  continues threshold (withMergedUntil x sf) = continues threshold sf.
Proof. reflexivity. Qed.

Lemma loopRound_mergedUntil x (sf : Engine G * F) :
  loopRound (withMergedUntil x sf) = mapDone (withMergedUntil x) (loopRound sf).
Proof.
  destruct sf as [s f]. unfold loopRound, withMergedUntil. cbn.
  destruct (queue_top _ _) as [next|]; [|done].
  destruct (_deleted s next); [done|].
  destruct (_stale s next).
  - unfold scoreEdge. cbn. destruct (scoreOf f next) as [newScore f2].
    destruct (Qle_bool _ _); done.
  - exact (mergeRegions_mergedUntil x next
             (set_edgeQueue s (queue_pop (_edgeScores s) (_edgeQueue s)), f)).
Qed.

Lemma mergeLoop_mergedUntil x (n : nat) threshold (sf : Engine G * F) :
  mergeLoop n threshold (withMergedUntil x sf) =
  mapDone (withMergedUntil x) (mergeLoop n threshold sf).
Proof.
  revert sf. induction n as [|n IH]; intros sf; [done|].
  rewrite !mergeLoop_S, continues_mergedUntil, loopRound_mergedUntil.
  destruct (continues threshold sf); [|done].
  destruct (loopRound sf) as [sf' | why |]; cbn [bind mapDone]; [|done|done].
  apply IH.
Qed.

(** *** [mergeUntil] returns, and can be resumed *)

Lemma mergeUntil_terminates (threshold : Q) (sf : Engine G * F) :
  mergeUntil threshold sf <> OutOfFuel.
Proof.
  destruct sf as [s f]. unfold mergeUntil.
  destruct (Qle_bool threshold (_mergedUntil s)); [done|].
  set (sf1 := if Qeq_bool _ _ then _ else _).
  pose proof (mergeLoop_terminates (loopFuel (fst sf1)) threshold sf1
                (loopMeasure_lt_loopFuel _)) as Hterm.
  destruct (mergeLoop _ threshold sf1) as [[s2 f2] | why |]; done.
Qed.

(** C2: calling [mergeUntil] with a threshold [t1] and then with a higher
    threshold [t2] leaves the engine and the scoring function in the same
    final state as the single call with [t2] (and ends with the same failed
    assertion if one of the runs ends so); the call returns. *)
Theorem mergeUntil_resumable (t1 t2 : Q) (sf : Engine G * F) :
  (0 <= _mergedUntil (fst sf))%Q -> (t1 < t2)%Q ->
  bind (mergeUntil t1 sf) (mergeUntil t2) = mergeUntil t2 sf /\
  mergeUntil t2 sf <> OutOfFuel.
Proof.
  intros Hmu Ht. split; [|apply mergeUntil_terminates].
  destruct sf as [s f]. simpl in Hmu. unfold mergeUntil at 1.
  destruct (Qle_bool t1 (_mergedUntil s)) eqn:E1; [reflexivity|].
  assert (Hlt1 : (_mergedUntil s < t1)%Q).
  { apply Qnot_le_lt. intros Hle. apply Qle_bool_iff in Hle. congruence. }
  unfold mergeUntil at 2.
  replace (Qle_bool t2 (_mergedUntil s)) with false
    by (symmetry; apply not_true_iff_false; rewrite Qle_bool_iff; lra).
  set (sf1 := if Qeq_bool _ _ then _ else _).
  set (n := loopFuel (fst sf1)).
  pose proof (mergeLoop_resume t1 t2 n sf1 ltac:(lra)) as Hres.
  pose proof (mergeLoop_terminates n t1 sf1 (loopMeasure_lt_loopFuel _)) as Hterm1.
  pose proof (mergeLoop_terminates n t2 sf1 (loopMeasure_lt_loopFuel _)) as Hterm2.
  destruct (mergeLoop n t1 sf1) as [[s2 f2] | why |]; [| |done].
  - cbn [bind]. unfold mergeUntil.
    change (_mergedUntil (set_mergedUntil s2 t1)) with t1.
    replace (Qle_bool t2 t1) with false
      by (symmetry; apply not_true_iff_false; rewrite Qle_bool_iff; lra).
    replace (Qeq_bool t1 0) with false
      by (symmetry; apply not_true_iff_false; rewrite Qeq_bool_iff; lra).
    cbv iota. change (fst (set_mergedUntil s2 t1, f2)) with (set_mergedUntil s2 t1).
    pose proof (mergeLoop_terminates (loopFuel s2) t2 (s2, f2)
                  (loopMeasure_lt_loopFuel _)) as Hterm3.
    specialize (Hres _ Hterm3).
    rewrite (mergeLoop_fuel_mono n (n + loopFuel s2)) in Hres by first [lia | done].
    change (set_mergedUntil s2 t1, f2) with (withMergedUntil t1 (s2, f2)).
    change (loopFuel (set_mergedUntil s2 t1)) with (loopFuel s2).
    rewrite mergeLoop_mergedUntil, <- Hres.
    destruct (mergeLoop n t2 sf1) as [[s3 f3] | why |]; reflexivity.
  - cbn [bind]. rewrite Hres. reflexivity.
Qed.

End WithEngine.

End LoopFacts.

Module LoopExamples.

Import IterativeRegionMerging LoopFacts Collaborators.

Lemma mergeUntil_resumable_witness :
  let sf := (create chain, chainScores) in
  bind (mergeUntil (1 # 4) sf) (mergeUntil 1) = mergeUntil 1 sf /\
  mergeUntil 1 sf <> OutOfFuel.
Proof.
  intros sf. apply (mergeUntil_resumable (1 # 4) 1 sf).
  - vm_compute. discriminate.
  - reflexivity.
Defined.

End LoopExamples.

(** ** The engine driven by the histogram quantile provider *)

Module QuantileMergingFacts.

Import IterativeRegionMerging MergeFacts LoopFacts QueueFacts ProviderFacts.

Module HQP := HistogramQuantileProvider.

Section WithProvider.

Context {G : Type} `{RegionGraph G}.
Variables (Qpct Bins : Z) (undiscretize : Z -> Z -> Q).
Hypothesis Bins_nonneg : 0 <= Bins.
Hypothesis Qpct_nonneg : 0 <= Qpct.
Hypothesis undiscretize_mono :
  forall i j, 0 <= i -> i <= j -> j <= Bins ->
              (undiscretize i Bins <= undiscretize j Bins)%Q.

Local Instance scoring : EdgeScoringFunction HQP.Provider :=
  Collaborators.Provider_EdgeScoringFunction Qpct Bins undiscretize.

Local Abbreviation edgeScore := (HQP.score Qpct Bins undiscretize).
Local Abbreviation qbin := (HQP.quantileBin Qpct Bins).

(** *** How an edge merge moves the scores of the provider *)






Lemma hist_at_notify_other (p : HQP.Provider) (from to e : EdgeIdType) :
  e <> from -> e <> to ->
  HQP.hist_at (HQP.notifyEdgeMerge p from to) e = HQP.hist_at p e.
Proof.
  intros Hf Ht. unfold HQP.hist_at, HQP.notifyEdgeMerge. simpl.
  by rewrite !list_lookup_insert_ne by done.
Qed.

Lemma hist_at_notify_from (p : HQP.Provider) (from to : EdgeIdType) :
  HQP.hist_at (HQP.notifyEdgeMerge p from to) from = HQP.hist_clear.
Proof.
  unfold HQP.hist_at, HQP.notifyEdgeMerge. simpl.
  destruct (decide (from < length (HQP._histograms p))%nat) as [Hlt | Hge].
  - rewrite list_lookup_insert_eq; [done|]. by rewrite length_insert.
  - rewrite lookup_ge_None_2; [done|]. rewrite !length_insert. lia.
Qed.

Lemma hist_at_notify_to (p : HQP.Provider) (from to : EdgeIdType) :
  to <> from -> (to < length (HQP._histograms p))%nat ->
  HQP.hist_at (HQP.notifyEdgeMerge p from to) to =
  HQP.hist_add (HQP.hist_at p to) (HQP.hist_at p from).
Proof.
  intros Hne Hlt. unfold HQP.notifyEdgeMerge. unfold HQP.hist_at at 1. simpl.
  rewrite list_lookup_insert_ne by done.
  by rewrite list_lookup_insert_eq.
Qed.



(** *** The invariant of the merge loop *)








(** *** The seed phase *)





End WithProvider.


Import Collaborators.


(** With overflow the assertion can fail: for [Q = 1000001] and three
    edges of 1100 samples each the product with the 2200 samples of two
    merged edges is no [int], the pivot wraps around to a negative number,
    the merged edge is rescored with the first bin, below its cached
    score. *)
Lemma int_overflow_breaks_rescoring :
  let h : HQP.Histogram := fun i => if decide (i = 4%nat) then 1100%nat else O in
  let p := HQP.mkProvider [h; h; h] in
  let scoring :=
    Collaborators.Provider_EdgeScoringFunction 1000001 8 HQP.uniformUndiscretize in
  ~ 1000001 * Z.of_nat (HQP.totalCount 8 p) <= HQP.INT_MAX /\
  @mergeUntil _ _ _ scoring 2 (create triangle, p) = Failed MonotonicityViolated.
Proof.
  split; [|vm_compute; reflexivity].
  intros Hmax. vm_compute in Hmax. by apply Hmax.
Qed.

End QuantileMergingFacts.

(** * Part III: further properties of the three files *)

(** ** Bucket queue: size, emptiness, and the top element *)

Module BinQueueMore.

Import BinQueue BinQueueFacts.

Section WithN.

Context {T : Type}.
Variable N : Z.
Hypothesis N_pos : 0 < N.
Variable roundScore : Q -> Q.

(** The queues a client can build: the constructor, then pushes that do not
    throw and pops of non-empty queues. *)
Inductive reachable : BinQueue T -> Prop :=
| reach_empty : reachable (empty_queue N)
| reach_push q element score q' :
    reachable q -> push N roundScore element score q = Ok q' -> reachable q'
| reach_pop q q' :
    reachable q -> pop N q = Some q' -> reachable q'.

Lemma pop_nonempty (q q' : BinQueue T) : pop N q = Some q' -> empty q = false.
Proof.
  unfold pop, empty. destruct (Z.ltb_spec (_minBin q) 0); [done|].
  intros _. apply Z.eqb_neq. lia.
Qed.

Lemma reachable_wfQueue (q : BinQueue T) : reachable q -> wfQueue N q.
Proof.
  induction 1 as [| q element score q' _ IH Hpush | q q' _ IH Hpop].
  - apply wfQueue_empty_queue.
  - eapply push_wfQueue; eauto.
  - destruct (top_pop_wfQueue N N_pos q IH (pop_nonempty _ _ Hpop))
      as (x & q'' & _ & Hpop' & Hwf & _).
    congruence.
Qed.

Lemma bin_emptyBelow (bins : list (list T)) (k : nat) (i : Z) :
  emptyBelow bins k -> 0 <= i < Z.of_nat k -> bin bins i = [].
Proof.
  intros Hk Hi. unfold bin.
  destruct (bins !! Z.to_nat i) as [b|] eqn:Hb; [|done].
  simpl. apply (Hk (Z.to_nat i) b); [lia | done].
Qed.

Lemma bin_out_of_range (bins : list (list T)) (i : Z) :
  Z.of_nat (length bins) <= i -> bin bins i = [].
Proof.
  intros Hi. unfold bin. rewrite lookup_ge_None_2; [done | lia].
Qed.

(** X1: the representation invariant of the queue.  Every queue that is
    built from the constructor by pushes and pops has [N] bins, and its
    [_minBin] is [-1] exactly when all bins are empty and otherwise the
    index of the first non-empty bin. *)
Theorem minBin_is_first_nonempty_bin (q : BinQueue T) :
  reachable q ->
  length (_bins q) = Z.to_nat N /\
  ((_minBin q = -1 /\ forall i, 0 <= i -> bin (_bins q) i = []) \/
   (0 <= _minBin q < N /\ bin (_bins q) (_minBin q) <> [] /\
    forall i, 0 <= i < _minBin q -> bin (_bins q) i = [])).
Proof.
  intros Hq. destruct (reachable_wfQueue q Hq) as [Hlen Hmin].
  split; [exact Hlen|].
  destruct Hmin as [[Hm Hall] | (Hm & Hne & Hlow)]; [left | right].
  - split; [exact Hm|]. intros i Hi.
    destruct (Z_lt_le_dec i (Z.of_nat (length (_bins q)))).
    + by apply (bin_emptyBelow _ (length (_bins q))).
    + by apply bin_out_of_range.
  - split; [exact Hm|]. split; [exact Hne|]. intros i Hi.
    apply (bin_emptyBelow _ (Z.to_nat (_minBin q))); [done | lia].
Qed.

Lemma concat_alter_snoc (bins : list (list T)) (i : nat) (x : T) :
  (i < length bins)%nat ->
  length (concat (alter (fun b => b ++ [x]) i bins)) = S (length (concat bins)).
Proof.
  revert i. induction bins as [|b bins IH]; intros i Hi; simpl in *; [lia|].
  destruct i as [|i]; simpl.
  - rewrite !length_app. simpl. lia.
  - rewrite !length_app. change (list_alter ?f i bins) with (alter f i bins).
    rewrite IH by lia. lia.
Qed.

Lemma size_push (q q' : BinQueue T) (element : T) (score : Q) :
  wfQueue N q -> push N roundScore element score q = Ok q' -> size q' = S (size q).
Proof.
  intros Hwf Hpush.
  pose proof (push_wfQueue N N_pos roundScore _ _ _ _ Hwf Hpush) as Hwf'.
  rewrite (size_concat N q Hwf), (size_concat N q' Hwf').
  unfold push in Hpush.
  destruct (scoreToIndex N roundScore score) as [i|] eqn:Hi; [|done].
  apply scoreToIndex_Ok in Hi as [_ Hi]. injection Hpush as <-. simpl.
  apply concat_alter_snoc. destruct Hwf as [Hlen _]. lia.
Qed.

Lemma size_pop (q q' : BinQueue T) :
  wfQueue N q -> pop N q = Some q' -> S (size q') = size q.
Proof.
  intros Hwf Hpop.
  destruct (top_pop_wfQueue N N_pos q Hwf (pop_nonempty _ _ Hpop))
    as (x & q'' & _ & Hpop' & Hwf' & Hc).
  assert (q'' = q') as -> by congruence.
  rewrite (size_concat N q Hwf), (size_concat N q' Hwf'). by rewrite Hc.
Qed.

(** X2: [size()] counts the queued elements: on a queue built by pushes
    and pops, a push that does not throw raises [size()] by one and a pop
    lowers it by one; the size of the new queue is zero. *)
Theorem size_counts_elements (q : BinQueue T) :
  reachable q ->
  size (empty_queue N : BinQueue T) = O /\
  (forall element score q',
      push N roundScore element score q = Ok q' -> size q' = S (size q)) /\
  (forall q', pop N q = Some q' -> S (size q') = size q).
Proof.
  intros Hq. pose proof (reachable_wfQueue q Hq) as Hwf.
  split; [reflexivity|]. split.
  - intros element score q'. by apply size_push.
  - intros q'. by apply size_pop.
Qed.

(** X3: [empty()] and [size()] agree, and [top()] and [pop()] are defined
    on every non-empty queue: on a queue built by pushes and pops,
    [empty()] holds exactly when [size()] is zero, and otherwise [top()]
    returns an element and [pop()] a queue. *)
Theorem empty_iff_size_zero (q : BinQueue T) :
  reachable q ->
  (empty q = true <-> size q = O) /\
  (empty q = false -> exists x q', top q = Some x /\ pop N q = Some q').
Proof.
  intros Hq. pose proof (reachable_wfQueue q Hq) as Hwf. split.
  - split.
    + intros He. unfold size. by rewrite He.
    + intros Hs. destruct (empty q) eqn:He; [done|].
      destruct (top_pop_wfQueue N N_pos q Hwf He) as (x & q' & _ & _ & _ & Hc).
      rewrite (size_concat N q Hwf), Hc in Hs. done.
  - intros He.
    destruct (top_pop_wfQueue N N_pos q Hwf He) as (x & q' & Ht & Hp & _).
    eauto.
Qed.

Lemma top_push (q q' : BinQueue T) (element : T) (score : Q) :
  wfQueue N q -> push N roundScore element score q = Ok q' ->
  top q' = if empty q || (bucketOf N roundScore score <? _minBin q)
           then Some element else top q.
Proof.
  intros [Hlen Hmin] Hpush.
  unfold push in Hpush.
  destruct (scoreToIndex N roundScore score) as [i|] eqn:Hi; [|done].
  apply scoreToIndex_Ok in Hi as [-> Hi]. injection Hpush as <-.
  set (i := bucketOf N roundScore score) in *.
  assert (Hlook : exists b, _bins q !! Z.to_nat i = Some b).
  { apply lookup_lt_is_Some. lia. }
  destruct Hlook as [b Hb].
  unfold top, empty. simpl.
  destruct Hmin as [[Hm Hall] | (Hm & Hne & Hlow)].
  - rewrite Hm. simpl.
    replace (i <? 0) with false by (symmetry; apply Z.ltb_ge; lia).
    unfold bin. rewrite list_lookup_alter_eq, Hb. simpl.
    rewrite (Hall (Z.to_nat i) b); [done | lia | done].
  - replace (_minBin q =? -1) with false by (symmetry; apply Z.eqb_neq; lia).
    simpl. destruct (Z.ltb_spec i (_minBin q)) as [Hlt | Hge].
    + rewrite Z.min_l by lia.
      replace (i <? 0) with false by (symmetry; apply Z.ltb_ge; lia).
      unfold bin. rewrite list_lookup_alter_eq, Hb. simpl.
      rewrite (Hlow (Z.to_nat i) b); [done | lia | done].
    + rewrite Z.min_r by lia.
      replace (_minBin q <? 0) with false by (symmetry; apply Z.ltb_ge; lia).
      destruct (decide (i = _minBin q)) as [Heq | Hneq].
      * rewrite <- Heq in *. unfold bin in *.
        rewrite list_lookup_alter_eq, Hb in *. simpl in *.
        destruct b; [done | done].
      * unfold bin. rewrite list_lookup_alter_ne by lia. done.
Qed.

(** X4: the element on top after a push.  On a queue built by pushes and
    pops, a pushed element becomes the top when the queue was empty or when
    its bucket lies strictly below [_minBin]; otherwise the top stays what
    it was, also when the element goes into the bucket of the top. *)
Theorem top_after_push (q q' : BinQueue T) (element : T) (score : Q) :
  reachable q -> push N roundScore element score q = Ok q' ->
  top q' = if empty q || (bucketOf N roundScore score <? _minBin q)
           then Some element else top q.
Proof.
  intros Hq. apply top_push. by apply reachable_wfQueue.
Qed.

(** X5: pushing one element onto the new queue and popping it again gives
    back the new queue: [top()] is the element, and [pop()] leaves every
    bin empty and [_minBin] at [-1]. *)
Theorem push_pop_empty_queue (element : T) (score : Q) (q : BinQueue T) :
  push N roundScore element score (empty_queue N) = Ok q ->
  top q = Some element /\ pop N q = Some (empty_queue N).
Proof.
  intros Hpush.
  pose proof (wfQueue_empty_queue N : wfQueue N (empty_queue N : BinQueue T)) as Hwf0.
  pose proof (push_wfQueue N N_pos roundScore _ _ _ _ Hwf0 Hpush) as Hwf.
  pose proof (top_push _ _ _ _ Hwf0 Hpush) as Htop.
  simpl in Htop. split; [exact Htop|].
  assert (He : empty q = false).
  { destruct (empty q) eqn:He; [|done].
    unfold top in Htop. unfold empty in He. apply Z.eqb_eq in He.
    rewrite He in Htop. done. }
  destruct (top_pop_wfQueue N N_pos q Hwf He) as (x & q' & _ & Hpop & Hwf' & Hc).
  rewrite Hpop. f_equal.
  assert (Hlen1 : length (concat (_bins q)) = 1%nat).
  { rewrite <- (size_concat N q Hwf).
    by rewrite (size_push _ _ _ _ Hwf0 Hpush). }
  assert (Hnil : concat (_bins q') = []).
  { rewrite Hc in Hlen1. simpl in Hlen1. destruct (concat (_bins q')); [done|].
    simpl in Hlen1. lia. }
  destruct q' as [bins' m']. destruct Hwf' as [Hlen' Hmin']. simpl in *.
  assert (Hall : forall j b, bins' !! j = Some b -> b = []).
  { intros j b Hb. apply (take_drop_middle) in Hb. rewrite <- Hb in Hnil.
    rewrite concat_app in Hnil. simpl in Hnil.
    apply app_eq_nil in Hnil as [_ Hnil]. by apply app_eq_nil in Hnil as [? _]. }
  unfold empty_queue. f_equal.
  - apply list_eq. intros j.
    destruct (decide (j < Z.to_nat N)%nat) as [Hj | Hj].
    + destruct (lookup_lt_is_Some_2 bins' j ltac:(lia)) as [b Hb].
      rewrite Hb, (Hall j b Hb). symmetry. apply lookup_replicate. done.
    + rewrite !lookup_ge_None_2; [done | rewrite length_replicate; lia | lia].
  - destruct Hmin' as [[-> _] | (Hm & Hne & _)]; [done|].
    exfalso. apply Hne. unfold bin.
    destruct (bins' !! Z.to_nat m') as [b|] eqn:Hb; [|done].
    simpl. by apply (Hall _ _ Hb).
Qed.

End WithN.

(** A four-bucket queue holding 7 in bucket 1 and 9 in bucket 2. *)
Definition twoPushes : BinQueue nat :=
  {| _bins := [[]; [7%nat]; [9%nat]; []]; _minBin := 1 |}.

Lemma reachable_twoPushes : reachable 4 roundFloat twoPushes.
Proof.
  apply (reach_push 4 roundFloat {| _bins := [[]; [7%nat]; []; []]; _minBin := 1 |}
                    9%nat (2 # 3)%Q); [|reflexivity].
  apply (reach_push 4 roundFloat (empty_queue 4) 7%nat (1 # 2)%Q); [|reflexivity].
  apply reach_empty.
Qed.

Lemma minBin_is_first_nonempty_bin_witness :
  reachable 4 roundFloat twoPushes /\
  length (_bins twoPushes) = Z.to_nat 4 /\
  ((_minBin twoPushes = -1 /\ forall i, 0 <= i -> bin (_bins twoPushes) i = []) \/
   (0 <= _minBin twoPushes < 4 /\
    bin (_bins twoPushes) (_minBin twoPushes) <> [] /\
    forall i, 0 <= i < _minBin twoPushes -> bin (_bins twoPushes) i = [])).
Proof.
  split; [apply reachable_twoPushes|].
  apply (minBin_is_first_nonempty_bin 4 ltac:(lia) roundFloat), reachable_twoPushes.
Defined.

Lemma size_counts_elements_witness :
  reachable 4 roundFloat twoPushes /\
  size (empty_queue 4 : BinQueue nat) = O /\
  (forall element score q',
      push 4 roundFloat element score twoPushes = Ok q' -> size q' = S (size twoPushes)) /\
  (forall q', pop 4 twoPushes = Some q' -> S (size q') = size twoPushes).
Proof.
  split; [apply reachable_twoPushes|].
  apply (size_counts_elements 4 ltac:(lia) roundFloat), reachable_twoPushes.
Defined.

Lemma empty_iff_size_zero_witness :
  reachable 4 roundFloat twoPushes /\
  (empty twoPushes = true <-> size twoPushes = O) /\
  (empty twoPushes = false ->
   exists x q', top twoPushes = Some x /\ pop 4 twoPushes = Some q').
Proof.
  split; [apply reachable_twoPushes|].
  apply (empty_iff_size_zero 4 ltac:(lia) roundFloat), reachable_twoPushes.
Defined.

Lemma top_after_push_witness :
  reachable 4 roundFloat twoPushes /\
  push 4 roundFloat 5%nat (1 # 10)%Q twoPushes =
    Ok {| _bins := [[5%nat]; [7%nat]; [9%nat]; []]; _minBin := 0 |} /\
  top {| _bins := [[5%nat]; [7%nat]; [9%nat]; []]; _minBin := 0 |} =
    if empty twoPushes || (bucketOf 4 roundFloat (1 # 10)%Q <? _minBin twoPushes)
    then Some 5%nat else top twoPushes.
Proof.
  split; [apply reachable_twoPushes|]. split; [reflexivity|].
  apply (top_after_push 4 ltac:(lia) roundFloat twoPushes _ 5%nat (1 # 10)%Q);
    [apply reachable_twoPushes | reflexivity].
Defined.

Lemma push_pop_empty_queue_witness :
  push 4 roundFloat 5%nat (1 # 2)%Q (empty_queue 4) =
    Ok {| _bins := [[]; [5%nat]; []; []]; _minBin := 1 |} /\
  top {| _bins := [[]; [5%nat]; []; []]; _minBin := 1 |} = Some 5%nat /\
  pop 4 {| _bins := [[]; [5%nat]; []; []]; _minBin := 1 |} =
    Some (empty_queue 4).
Proof.
  split; [reflexivity|].
  apply (push_pop_empty_queue 4 ltac:(lia) roundFloat 5%nat (1 # 2)%Q). reflexivity.
Defined.

End BinQueueMore.

(** ** Histogram quantile provider: what the returned bin is *)

Module ProviderMore.

Import HistogramQuantileProvider ProviderFacts.

Lemma pivotOf_le_sum (Qpct Bins : Z) (h : Histogram) :
  0 <= Qpct < 100 -> (0 < hist_sum Bins h)%nat ->
  pivotOf Qpct Bins h <= Z.of_nat (hist_sum Bins h).
Proof.
  intros HQ Hsum. unfold pivotOf.
  set (n := Z.of_nat (hist_sum Bins h)). assert (0 < n) by (unfold n; lia).
  rewrite Z.quot_div_nonneg by lia.
  assert (Qpct * n / 100 < n); [|lia].
  apply Z.div_lt_upper_bound; nia.
Qed.

Lemma pivotOf_gt_sum (Qpct Bins : Z) (h : Histogram) :
  100 <= Qpct -> Z.of_nat (hist_sum Bins h) < pivotOf Qpct Bins h.
Proof.
  intros HQ. unfold pivotOf.
  set (n := Z.of_nat (hist_sum Bins h)). assert (0 <= n) by (unfold n; lia).
  rewrite Z.quot_div_nonneg by nia.
  assert (n <= Qpct * n / 100); [|lia].
  apply Z.div_le_lower_bound; nia.
Qed.

Lemma pivotOf_mono (Q1 Q2 Bins : Z) (h : Histogram) :
  0 <= Q1 <= Q2 -> pivotOf Q1 Bins h <= pivotOf Q2 Bins h.
Proof.
  intros HQ. unfold pivotOf.
  set (n := Z.of_nat (hist_sum Bins h)). assert (0 <= n) by (unfold n; lia).
  rewrite !Z.quot_div_nonneg by nia.
  assert (Q1 * n / 100 <= Q2 * n / 100); [|lia].
  apply Z.div_le_mono; nia.
Qed.

Lemma pivotOf_add_upper (Qpct Bins : Z) (h other : Histogram) :
  0 <= Qpct ->
  pivotOf Qpct Bins (hist_add h other) <= pivotOf Qpct Bins h + pivotOf Qpct Bins other.
Proof.
  intros HQ. unfold pivotOf. rewrite hist_sum_add, Nat2Z.inj_add, Z.mul_add_distr_l.
  set (x := Qpct * Z.of_nat (hist_sum Bins h)).
  set (y := Qpct * Z.of_nat (hist_sum Bins other)).
  assert (0 <= x) by (unfold x; lia). assert (0 <= y) by (unfold y; lia).
  rewrite !Z.quot_div_nonneg by lia.
  pose proof (Z.div_mod x 100 ltac:(lia)).
  pose proof (Z.div_mod y 100 ltac:(lia)).
  pose proof (Z.mod_pos_bound x 100 ltac:(lia)).
  pose proof (Z.mod_pos_bound y 100 ltac:(lia)).
  assert ((x + y) / 100 < x / 100 + y / 100 + 2); [|lia].
  apply Z.div_lt_upper_bound; lia.
Qed.

(** The bin of a non-empty histogram, for a percentile below 100. *)
Lemma quantileBin_nonempty (Qpct Bins : Z) (h : Histogram) :
  0 <= Bins -> 0 <= Qpct < 100 -> (0 < hist_sum Bins h)%nat ->
  fitsInt Qpct Bins h ->
  let b := quantileBin Qpct Bins h in
  0 <= b < Bins /\
  cumulative h (Z.to_nat b) < pivotOf Qpct Bins h <= cumulative h (S (Z.to_nat b)).
Proof.
  intros HB HQ Hsum Hfit b.
  destruct (quantileBin_spec Qpct Bins HB ltac:(lia) h Hfit) as (Hr & Hlo & Hhi).
  fold b in Hr, Hlo, Hhi.
  pose proof (pivotOf_le_sum Qpct Bins h HQ Hsum) as Hp.
  assert (b < Bins).
  { destruct (Z_lt_le_dec b Bins) as [|Hge]; [done|].
    assert (b = Bins) as Hb by lia. rewrite Hb in Hlo.
    change (cumulative h (Z.to_nat Bins)) with (Z.of_nat (hist_sum Bins h)) in Hlo.
    lia. }
  split; [lia|]. split; [exact Hlo | by apply Hhi].
Qed.

Section WithBins.

Variable Qpct : Z.
Variable Bins : Z.
Variable discretize : Q -> Z -> Z.
Variable undiscretize : Z -> Z -> Q.
Hypothesis Bins_nonneg : 0 <= Bins.

Local Abbreviation qbin := (quantileBin Qpct Bins).

(** X6: the bin that [operator[]] finds is the [Q]-th percentile of the
    samples.  For [0 <= Q < 100] and an edge with at least one sample, and
    without overflow (the number of samples and its product with [Q] are
    [int]s), the bin [b] lies in [0 .. Bins-1], holds a sample, and splits
    the samples at [Q] percent: one hundred times the number of samples in
    the bins below [b] is at most [Q] times the number of samples, which is
    less than one hundred times the number of samples in the bins up to and
    including [b]. *)
Theorem score_is_percentile (p : Provider) (e : EdgeIdType) :
  0 <= Qpct < 100 ->
  (0 < hist_sum Bins (hist_at p e))%nat ->
  fitsInt Qpct Bins (hist_at p e) ->
  let h := hist_at p e in
  let b := qbin h in
  score Qpct Bins undiscretize p e = undiscretize b Bins /\
  0 <= b < Bins /\
  (0 < h (Z.to_nat b))%nat /\
  100 * cumulative h (Z.to_nat b) <= Qpct * Z.of_nat (hist_sum Bins h)
    < 100 * cumulative h (S (Z.to_nat b)).
Proof.
  intros HQ Hsum Hfit h b. split; [reflexivity|].
  destruct (quantileBin_nonempty Qpct Bins h Bins_nonneg HQ Hsum Hfit)
    as (Hb & Hlo & Hhi).
  fold b in Hb, Hlo, Hhi. split; [exact Hb|].
  split; [rewrite cumulative_S in Hhi; lia|].
  unfold pivotOf in Hlo, Hhi.
  set (n := Z.of_nat (hist_sum Bins h)) in *.
  assert (0 < n) by (unfold n, h; lia).
  rewrite Z.quot_div_nonneg in Hlo, Hhi by lia.
  pose proof (Z.div_mod (Qpct * n) 100 ltac:(lia)).
  pose proof (Z.mod_pos_bound (Qpct * n) 100 ltac:(lia)).
  lia.
Qed.

(** X7: with a percentile of 100 or more the scan never stops inside the
    histogram: whatever samples an edge has, as long as their number and
    its product with [Q] are [int]s, its score is the undiscretized value of
    the index [Bins], one past the last bin. *)
Theorem percentile_100_runs_past_last_bin (p : Provider) (e : EdgeIdType) :
  100 <= Qpct ->
  fitsInt Qpct Bins (hist_at p e) ->
  score Qpct Bins undiscretize p e = undiscretize Bins Bins.
Proof.
  intros HQ Hfit. unfold score. f_equal.
  destruct (quantileBin_spec Qpct Bins Bins_nonneg ltac:(lia) (hist_at p e) Hfit)
    as (Hr & _ & Hhi).
  destruct (Z_lt_le_dec (qbin (hist_at p e)) Bins) as [Hlt | Hge]; [|lia].
  specialize (Hhi Hlt).
  pose proof (pivotOf_gt_sum Qpct Bins (hist_at p e) HQ) as Hp.
  pose proof (cumulative_mono (hist_at p e)
                (S (Z.to_nat (qbin (hist_at p e)))) (Z.to_nat Bins) ltac:(lia)) as Hm.
  change (cumulative (hist_at p e) (Z.to_nat Bins))
    with (Z.of_nat (hist_sum Bins (hist_at p e))) in Hm.
  lia.
Qed.

End WithBins.

(** X8: a larger percentile never gives a smaller bin: for
    [0 <= Q1 <= Q2] and a histogram whose number of samples and its product
    with [Q2] are [int]s, the bin found for [Q1] is at most the bin found
    for [Q2]. *)
Theorem quantileBin_monotone_in_percentile (Q1 Q2 Bins : Z) (h : Histogram) :
  0 <= Bins -> 0 <= Q1 <= Q2 ->
  fitsInt Q2 Bins h ->
  quantileBin Q1 Bins h <= quantileBin Q2 Bins h.
Proof.
  intros HB HQ Hfit2.
  assert (Hfit1 : fitsInt Q1 Bins h).
  { destruct Hfit2 as [Hs Hp]. unfold fitsInt, INT_MAX in *. split; nia. }
  destruct (quantileBin_spec Q1 Bins HB ltac:(lia) h Hfit1) as (Hr1 & Hlo1 & _).
  destruct (quantileBin_spec Q2 Bins HB ltac:(lia) h Hfit2) as (Hr2 & _ & Hhi2).
  pose proof (pivotOf_mono Q1 Q2 Bins h HQ) as Hp.
  set (r1 := quantileBin Q1 Bins h) in *. set (r2 := quantileBin Q2 Bins h) in *.
  destruct (Z_lt_le_dec r2 r1) as [Hlt | Hle]; [exfalso | exact Hle].
  specialize (Hhi2 ltac:(lia)).
  pose proof (cumulative_mono h (S (Z.to_nat r2)) (Z.to_nat r1) ltac:(lia)).
  lia.
Qed.

Lemma quantileBin_add_upper (Qpct Bins : Z) (h other : Histogram) :
  0 <= Bins -> 0 <= Qpct ->
  fitsInt Qpct Bins (hist_add h other) ->
  quantileBin Qpct Bins (hist_add h other)
  <= Z.max (quantileBin Qpct Bins h) (quantileBin Qpct Bins other).
Proof.
  intros HB HQ Hfit.
  destruct (quantileBin_spec Qpct Bins HB HQ h (fitsInt_add_l _ _ HQ _ _ Hfit))
    as (Hr1 & _ & Hc1).
  destruct (quantileBin_spec Qpct Bins HB HQ other (fitsInt_add_r _ _ HQ _ _ Hfit))
    as (Hr2 & _ & Hc2).
  destruct (quantileBin_spec Qpct Bins HB HQ (hist_add h other) Hfit) as (Hr & Hc & _).
  pose proof (pivotOf_add_upper Qpct Bins h other HQ) as Hp.
  set (r1 := quantileBin Qpct Bins h) in *.
  set (r2 := quantileBin Qpct Bins other) in *.
  set (r := quantileBin Qpct Bins (hist_add h other)) in *.
  destruct (Z_lt_le_dec (Z.max r1 r2) r) as [Hlt | Hle]; [exfalso | exact Hle].
  specialize (Hc1 ltac:(lia)). specialize (Hc2 ltac:(lia)).
  rewrite cumulative_add in Hc.
  pose proof (cumulative_mono h (S (Z.to_nat r1)) (Z.to_nat r) ltac:(lia)).
  pose proof (cumulative_mono other (S (Z.to_nat r2)) (Z.to_nat r) ltac:(lia)).
  lia.
Qed.

Section Calls.

Variable Qpct : Z.
Variable Bins : Z.
Variable discretize : Q -> Z -> Z.
Variable undiscretize : Z -> Z -> Q.
Hypothesis Bins_nonneg : 0 <= Bins.

Local Abbreviation qbin := (quantileBin Qpct Bins).

Lemma hist_at_addAffinity (p : Provider) (e : EdgeIdType) (affinity : Q) :
  edgeExists p e = true ->
  hist_at (addAffinity Bins discretize p e affinity) e =
  hist_inc (hist_at p e) (discretize affinity Bins).
Proof.
  intros He. apply Nat.ltb_lt in He. unfold addAffinity, hist_at at 1. simpl.
  by rewrite list_lookup_insert_eq.
Qed.

Lemma hist_at_addAffinity_other (p : Provider) (e e' : EdgeIdType) (affinity : Q) :
  e' <> e ->
  hist_at (addAffinity Bins discretize p e affinity) e' = hist_at p e'.
Proof.
  intros Hne. unfold addAffinity, hist_at. simpl.
  by rewrite list_lookup_insert_ne.
Qed.

(** What a series of [addAffinity(e, v)] calls with all [v] in bin [b]
    leaves in the histogram of [e]. *)
Lemma addAffinity_same_bin (b : Z) (vs : list Q) (p : Provider) (e : EdgeIdType) :
  binExists Bins b = true ->
  edgeExists p e = true ->
  Forall (fun v => discretize v Bins = b) vs ->
  (forall i, i <> Z.to_nat b -> hist_at p e i = O) ->
  let p' := run_calls Bins discretize p (map (AddAffinity e) vs) in
  (forall i, i <> Z.to_nat b -> hist_at p' e i = O) /\
  hist_sum Bins (hist_at p' e) = (hist_sum Bins (hist_at p e) + length vs)%nat.
Proof.
  intros Hb. revert p. induction vs as [|v vs IH]; intros p He Hvs Hz; simpl.
  - split; [exact Hz | lia].
  - apply Forall_cons in Hvs as [Hv Hvs].
    destruct (IH (addAffinity Bins discretize p e v)) as [Hz' Hs'].
    + unfold edgeExists, addAffinity in *. simpl. by rewrite length_insert.
    + exact Hvs.
    + intros i Hi. rewrite hist_at_addAffinity, Hv by done.
      unfold hist_inc. rewrite decide_False by done. by apply Hz.
    + split; [exact Hz'|].
      rewrite Hs', hist_at_addAffinity, Hv by done.
      rewrite hist_sum_inc by done. lia.
Qed.

(** X9: an edge whose samples all fall into one bin scores as that bin.
    For [0 <= Q < 100], after one or more calls [addAffinity(e, v)] on a
    new provider, with every [v] discretized to the same bin [b] of the
    histogram, and so few calls that their number and its product with [Q]
    are [int]s, [operator[]] returns the undiscretized value of [b]; with a
    single sample this is [undiscretize(discretize(v))]. *)
Theorem score_of_samples_in_one_bin
    (n : nat) (e : EdgeIdType) (b : Z) (vs : list Q) :
  0 <= Qpct < 100 ->
  (e < n)%nat ->
  binExists Bins b = true ->
  vs <> [] ->
  Forall (fun v => discretize v Bins = b) vs ->
  Z.of_nat (length vs) <= INT_MAX ->
  Qpct * Z.of_nat (length vs) <= INT_MAX ->
  score Qpct Bins undiscretize
    (run_calls Bins discretize (newProvider n) (map (AddAffinity e) vs)) e
  = undiscretize b Bins.
Proof.
  intros HQ He Hb Hne Hvs Hlen Hprod.
  assert (He' : edgeExists (newProvider n) e = true).
  { unfold edgeExists, newProvider. simpl. rewrite length_replicate.
    by apply Nat.ltb_lt. }
  assert (Hnew : hist_at (newProvider n) e = hist_clear).
  { unfold hist_at, newProvider. simpl. by rewrite lookup_replicate_2. }
  destruct (addAffinity_same_bin b vs (newProvider n) e Hb He' Hvs) as [Hz Hs].
  { intros i _. by rewrite Hnew. }
  set (p' := run_calls Bins discretize (newProvider n) (map (AddAffinity e) vs)) in *.
  assert (Hpos : (0 < hist_sum Bins (hist_at p' e))%nat).
  { rewrite Hs. destruct vs; [done | simpl; lia]. }
  assert (Hfit : fitsInt Qpct Bins (hist_at p' e)).
  { unfold fitsInt. rewrite Hs, Hnew, hist_sum_clear. simpl.
    unfold INT_MAX in *. lia. }
  destruct (quantileBin_nonempty Qpct Bins (hist_at p' e) Bins_nonneg HQ Hpos Hfit)
    as (Hr & Hlo & Hhi).
  unfold score. f_equal.
  rewrite cumulative_S in Hhi.
  destruct (decide (Z.to_nat (qbin (hist_at p' e)) = Z.to_nat b)) as [Heq | Hneq].
  - unfold binExists in Hb. apply andb_prop in Hb as [Hb0 _].
    apply Z.leb_le in Hb0. lia.
  - rewrite (Hz _ Hneq) in Hhi. lia.
Qed.

(** X10: merging two edges puts the bin of the merged edge between the
    bins of the two.  After [notifyEdgeMerge(from, to)] on two different
    edges, when the number of samples of the merged edge and its product
    with [Q] are [int]s, the bin found for [to] is at least the smaller and
    at most the larger of the bins found for [to] and for [from] before the
    call (the index [Bins] standing for an edge without samples). *)
Theorem merged_bin_between_bins (p : Provider) (from to : EdgeIdType) :
  0 <= Qpct ->
  from <> to ->
  edgeExists p to = true ->
  fitsInt Qpct Bins (hist_at (notifyEdgeMerge p from to) to) ->
  let merged := hist_at (notifyEdgeMerge p from to) to in
  Z.min (qbin (hist_at p to)) (qbin (hist_at p from)) <= qbin merged /\
  qbin merged <= Z.max (qbin (hist_at p to)) (qbin (hist_at p from)).
Proof.
  intros HQ Hne Hto Hfit merged. apply Nat.ltb_lt in Hto.
  unfold merged. rewrite QuantileMergingFacts.hist_at_notify_to in * by done.
  split.
  - by apply quantileBin_add.
  - by apply quantileBin_add_upper.
Qed.

(** X11: a call changes the score of no edge it does not name, and
    [notifyEdgeMerge(from, to)] leaves [from] scoring as an edge without
    samples: its score is the undiscretized value of the index [Bins]. *)
Theorem calls_touch_named_edges_only (p : Provider) :
  0 <= Qpct ->
  (forall e v e', e' <> e ->
     score Qpct Bins undiscretize (addAffinity Bins discretize p e v) e' =
     score Qpct Bins undiscretize p e') /\
  (forall from to e', e' <> from -> e' <> to ->
     score Qpct Bins undiscretize (notifyEdgeMerge p from to) e' =
     score Qpct Bins undiscretize p e') /\
  (forall from to,
     score Qpct Bins undiscretize (notifyEdgeMerge p from to) from =
     undiscretize Bins Bins).
Proof.
  intros HQ. unfold score. split; [|split].
  - intros e v e' Hne. by rewrite hist_at_addAffinity_other.
  - intros from to e' Hf Ht.
    by rewrite QuantileMergingFacts.hist_at_notify_other.
  - intros from to. rewrite QuantileMergingFacts.hist_at_notify_from.
    by rewrite quantileBin_clear.
Qed.

End Calls.

(** A provider of two edges with four bins: edge 0 has samples in the bins
    0, 2 and 3, edge 1 has one sample in bin 1. *)
Definition sampled : Provider :=
  run_calls 4 uniformDiscretize (newProvider 2)
    [AddAffinity 0 (1 # 10)%Q; AddAffinity 0 (6 # 10)%Q;
     AddAffinity 0 (9 # 10)%Q; AddAffinity 1 (3 # 10)%Q].

Lemma score_is_percentile_witness :
  let h := hist_at sampled 0 in
  let b := quantileBin 50 4 h in
  score 50 4 uniformUndiscretize sampled 0 = uniformUndiscretize b 4 /\
  0 <= b < 4 /\
  (0 < h (Z.to_nat b))%nat /\
  100 * cumulative h (Z.to_nat b) <= 50 * Z.of_nat (hist_sum 4 h)
    < 100 * cumulative h (S (Z.to_nat b)).
Proof.
  apply (score_is_percentile 50 4 uniformUndiscretize ltac:(lia) sampled 0%nat).
  - lia.
  - vm_compute. lia.
  - vm_compute. repeat split; discriminate.
Defined.

Lemma percentile_100_runs_past_last_bin_witness :
  score 100 4 uniformUndiscretize sampled 0 = uniformUndiscretize 4 4.
Proof.
  apply (percentile_100_runs_past_last_bin 100 4 uniformUndiscretize ltac:(lia)).
  - lia.
  - vm_compute. repeat split; discriminate.
Defined.

Lemma quantileBin_monotone_in_percentile_witness :
  quantileBin 25 4 (hist_at sampled 0) <= quantileBin 75 4 (hist_at sampled 0).
Proof.
  apply (quantileBin_monotone_in_percentile 25 75 4); [lia | lia |].
  vm_compute. repeat split; discriminate.
Defined.

Lemma score_of_samples_in_one_bin_witness :
  score 50 4 uniformUndiscretize
    (run_calls 4 uniformDiscretize (newProvider 2)
       (map (AddAffinity 0) [(6 # 10)%Q; (7 # 10)%Q])) 0
  = uniformUndiscretize 2 4.
Proof.
  apply (score_of_samples_in_one_bin 50 4 uniformDiscretize uniformUndiscretize
           ltac:(lia) 2 0%nat 2 [(6 # 10)%Q; (7 # 10)%Q]).
  - lia.
  - lia.
  - reflexivity.
  - discriminate.
  - repeat constructor.
  - vm_compute. discriminate.
  - vm_compute. discriminate.
Defined.

Lemma merged_bin_between_bins_witness :
  let merged := hist_at (notifyEdgeMerge sampled 0 1) 1 in
  Z.min (quantileBin 50 4 (hist_at sampled 1)) (quantileBin 50 4 (hist_at sampled 0))
    <= quantileBin 50 4 merged /\
  quantileBin 50 4 merged
    <= Z.max (quantileBin 50 4 (hist_at sampled 1)) (quantileBin 50 4 (hist_at sampled 0)).
Proof.
  apply (merged_bin_between_bins 50 4 ltac:(lia) sampled 0%nat 1%nat).
  - lia.
  - discriminate.
  - reflexivity.
  - vm_compute. repeat split; discriminate.
Defined.

(** With overflow the scan is another one: for [Q = 1000001] the product
    with 2148 samples is no [int], the pivot wraps around to a negative
    number and the scan stops at the first bin. *)
Lemma int_overflow_moves_the_bin :
  let h : Histogram := fun i => if decide (i = 4%nat) then 2148%nat else O in
  ~ fitsInt 1000001 8 h /\
  quantileBin 1000001 8 h = 0.
Proof.
  split; [|vm_compute; reflexivity].
  intros [_ [_ Hmax]]. vm_compute in Hmax. by apply Hmax.
Qed.

Lemma calls_touch_named_edges_only_witness :
  (forall e v e', e' <> e ->
     score 50 4 uniformUndiscretize (addAffinity 4 uniformDiscretize sampled e v) e' =
     score 50 4 uniformUndiscretize sampled e') /\
  (forall from to e', e' <> from -> e' <> to ->
     score 50 4 uniformUndiscretize (notifyEdgeMerge sampled from to) e' =
     score 50 4 uniformUndiscretize sampled e') /\
  (forall from to,
     score 50 4 uniformUndiscretize (notifyEdgeMerge sampled from to) from =
     uniformUndiscretize 4 4).
Proof.
  apply (calls_touch_named_edges_only 50 4 uniformDiscretize uniformUndiscretize
           ltac:(lia) sampled).
  lia.
Defined.

End ProviderMore.

(** ** The union-find forest: compression, cycles, labels *)

Module ForestMore.

Import IterativeRegionMerging ForestFacts.

(** [compressPath] writes only the root, and only at nodes that have a
    parent already. *)
Lemma compressPath_lookup (fuel : nat) (m m' : forest) (id root : NodeIdType) :
  compressPath fuel m id root = Some m' ->
  forall y, m' !! y = m !! y \/ (is_Some (m !! y) /\ m' !! y = Some root).
Proof.
  revert m id. induction fuel as [|fuel IH]; intros m id; simpl.
  - case_decide; [|done]. intros [= <-] y. by left.
  - case_decide; [intros [= <-] y; by left|].
    destruct (m !! id) as [next|] eqn:Hid; [|done].
    intros Hc y. destruct (IH _ _ Hc y) as [Heq | [Hs Heq]].
    + destruct (decide (y = id)) as [-> | Hne].
      * right. rewrite lookup_insert_eq in Heq. by rewrite Hid.
      * left. by rewrite lookup_insert_ne in Heq.
    + right. split; [|done].
      destruct (decide (y = id)) as [-> | Hne]; [by rewrite Hid|].
      by rewrite lookup_insert_ne in Hs.
Qed.

Lemma compressPath_first (fuel : nat) (m m' : forest) (id root : NodeIdType) :
  id <> root -> compressPath fuel m id root = Some m' -> m' !! id = Some root.
Proof.
  intros Hne. destruct fuel as [|fuel]; simpl; rewrite decide_False by done; [done|].
  destruct (m !! id) as [next|]; [|done]. intros Hc.
  destruct (compressPath_lookup _ _ _ _ _ Hc id) as [Heq | [_ Heq]]; [|done].
  by rewrite Heq, lookup_insert_eq.
Qed.

Lemma walkToRoot_root (fuel : nat) (m : forest) (r : NodeIdType) :
  m !! r = None -> walkToRoot fuel m r = Some r.
Proof. intros Hr. destruct fuel; simpl; by rewrite Hr. Qed.

Lemma getRoot_direct (m : forest) (x r : NodeIdType) :
  m !! x = Some r -> m !! r = None -> getRoot m x = Some (r, m).
Proof.
  intros Hx Hr. unfold getRoot. rewrite Hx, walkToRoot_root by done.
  by rewrite decide_True.
Qed.

(** X12: [getRoot] compresses the path it walks.  When the parent links
    from [id] reach a root, [getRoot(id)] returns that root; afterwards
    [id], unless it is the root itself, points directly to the root, every
    other entry of [_rootPaths] is either unchanged or an existing entry
    redirected to the root, and a second [getRoot(id)] returns the same
    root without changing [_rootPaths] again. *)
Theorem getRoot_compresses (m : forest) (id r : NodeIdType) (k : nat) :
  pathTo m id r k ->
  exists m',
    getRoot m id = Some (r, m') /\
    (id <> r -> m' !! id = Some r) /\
    (forall y, m' !! y = m !! y \/ (is_Some (m !! y) /\ m' !! y = Some r)) /\
    getRoot m' id = Some (r, m').
Proof.
  intros Hp. destruct (getRoot_spec m id r k Hp) as (m' & Hg & Hsame).
  exists m'. split; [exact Hg|].
  pose proof (pathTo_root _ _ _ _ Hp) as Hr.
  pose proof (sameRoots_isRoot _ _ _ Hsame Hr) as Hr'.
  assert (Hdirect : id <> r -> m' !! id = Some r).
  { intros Hne. unfold getRoot in Hg.
    destruct (m !! id) as [parent|] eqn:Hid; [|congruence].
    destruct (walkToRoot (size m) m parent) as [root|]; [|done].
    case_decide as Hpr.
    - injection Hg as <- <-. by rewrite Hid, Hpr.
    - destruct (compressPath (size m) m id root) as [m''|] eqn:Hc; [|done].
      injection Hg as <- <-. by apply (compressPath_first _ _ _ _ _ Hne Hc). }
  split; [exact Hdirect|]. split.
  - intros y. unfold getRoot in Hg.
    destruct (m !! id) as [parent|] eqn:Hid; [|left; congruence].
    destruct (walkToRoot (size m) m parent) as [root|]; [|done].
    case_decide as Hpr; [left; congruence|].
    destruct (compressPath (size m) m id root) as [m''|] eqn:Hc; [|done].
    injection Hg as <- <-. by apply (compressPath_lookup _ _ _ _ _ Hc).
  - destruct (decide (id = r)) as [-> | Hne].
    + by apply getRoot_of_root.
    + apply getRoot_direct; [by apply Hdirect | exact Hr'].
Qed.

(** X13: [getRoot] does not return when the parent links run into a cycle.
    If following the parent links from [id] for as many rounds as
    [_rootPaths] has entries reaches no root, then no number of rounds
    does, and [getRoot(id)] does not return. *)
Theorem getRoot_loops_on_cycle (m : forest) (id : NodeIdType) :
  walkToRoot (size m) m id = None ->
  (forall fuel, walkToRoot fuel m id = None) /\ getRoot m id = None.
Proof.
  intros Hw.
  assert (Hno : forall r k, ~ pathTo m id r k).
  { intros r k Hp.
    rewrite (walkToRoot_pathTo m id r k (size m) Hp (pathTo_bound _ _ _ _ Hp)) in Hw.
    done. }
  split.
  - intros fuel. destruct (walkToRoot fuel m id) as [r|] eqn:Hf; [|done].
    destruct (pathTo_walkToRoot _ _ _ _ Hf) as (k & _ & Hp). by destruct (Hno r k).
  - unfold getRoot. destruct (m !! id) as [parent|] eqn:Hid.
    + destruct (walkToRoot (size m) m parent) as [root|] eqn:Hf; [|done].
      destruct (pathTo_walkToRoot _ _ _ _ Hf) as (k & _ & Hp).
      destruct (Hno root (S k)). by eapply path_step.
    + destruct (Hno id O). by apply path_root.
Qed.

(** X14: [extractSegmentation] relabels every element with the root of
    its region.  On a forest the call returns; the output has the length
    of the input, each output element is the root that the parent links
    (before the call) lead to from the input element, two elements get the
    same label exactly when their input labels belong to the same region,
    and the forest describes the same regions after the call. *)
Theorem extractSegmentation_labels (m : forest) (segmentation : list NodeIdType) :
  wfForest m ->
  exists m' segmentation',
    extractSegmentation m segmentation = Some (m', segmentation') /\
    length segmentation' = length segmentation /\
    (forall i x, segmentation !! i = Some x ->
       exists r k, segmentation' !! i = Some r /\ pathTo m x r k) /\
    (forall i j x y r r',
       segmentation !! i = Some x -> segmentation !! j = Some y ->
       segmentation' !! i = Some r -> segmentation' !! j = Some r' ->
       (r = r' <-> joined m x y)) /\
    (forall x y, joined m' x y <-> joined m x y).
Proof.
  intros Hwf.
  destruct (extractSegmentation_spec segmentation m Hwf)
    as (m' & segmentation' & He & Hsame & _ & Hall).
  exists m', segmentation'. split; [exact He|].
  split; [symmetry; by eapply Forall2_length|]. split; [|split].
  - intros i x Hx.
    destruct (Forall2_lookup_l _ _ _ _ _ Hall Hx) as (r & Hr & k & Hp). eauto.
  - intros i j x y r r' Hx Hy Hr Hr'.
    destruct (Forall2_lookup_lr _ _ _ _ _ _ Hall Hx Hr) as [kx Hpx].
    destruct (Forall2_lookup_lr _ _ _ _ _ _ Hall Hy Hr') as [ky Hpy].
    split.
    + intros <-. by exists r, kx, ky.
    + intros (r0 & k1 & k2 & H1 & H2).
      destruct (pathTo_det _ _ _ _ _ _ Hpx H1) as [-> _].
      by destruct (pathTo_det _ _ _ _ _ _ Hpy H2) as [-> _].
  - intros x y. split; [|by apply sameRoots_joined].
    intros (r' & k1 & k2 & H1 & H2).
    destruct (Hwf x) as (rx & kx & Hpx). destruct (Hwf y) as (ry & ky & Hpy).
    destruct (Hsame _ _ _ Hpx) as (kx' & _ & Hpx').
    destruct (Hsame _ _ _ Hpy) as (ky' & _ & Hpy').
    destruct (pathTo_det _ _ _ _ _ _ Hpx' H1) as [-> _].
    destruct (pathTo_det _ _ _ _ _ _ Hpy' H2) as [-> _].
    by exists r', kx, ky.
Qed.

(** Node 3 below node 2 below the root 1. *)
Definition chainForest : forest := <[3%nat := 2%nat]> (<[2%nat := 1%nat]> ∅).

(** Nodes 0 and 1 are each other's parent. *)
Definition cycleForest : forest := <[0%nat := 1%nat]> (<[1%nat := 0%nat]> ∅).

Lemma getRoot_compresses_witness :
  exists m',
    getRoot chainForest 3 = Some (1%nat, m') /\
    (3%nat <> 1%nat -> m' !! 3%nat = Some 1%nat) /\
    (forall y : nat, m' !! y = chainForest !! y \/
                     (is_Some (chainForest !! y) /\ m' !! y = Some 1%nat)) /\
    getRoot m' 3 = Some (1%nat, m').
Proof.
  apply (getRoot_compresses chainForest 3 1 2).
  eapply path_step; [vm_compute; reflexivity|].
  eapply path_step; [vm_compute; reflexivity|].
  apply path_root. vm_compute. reflexivity.
Defined.

Lemma getRoot_loops_on_cycle_witness :
  (forall fuel, walkToRoot fuel cycleForest 0 = None) /\
  getRoot cycleForest 0 = None.
Proof.
  apply (getRoot_loops_on_cycle cycleForest 0). vm_compute. reflexivity.
Defined.

Lemma extractSegmentation_labels_witness :
  exists m' segmentation',
    extractSegmentation chainForest [3; 2; 1; 4]%nat = Some (m', segmentation') /\
    length segmentation' = length [3; 2; 1; 4]%nat /\
    (forall i x, [3; 2; 1; 4]%nat !! i = Some x ->
       exists r k, segmentation' !! i = Some r /\ pathTo chainForest x r k) /\
    (forall i j x y r r',
       [3; 2; 1; 4]%nat !! i = Some x -> [3; 2; 1; 4]%nat !! j = Some y ->
       segmentation' !! i = Some r -> segmentation' !! j = Some r' ->
       (r = r' <-> joined chainForest x y)) /\
    (forall x y, joined m' x y <-> joined chainForest x y).
Proof.
  apply (extractSegmentation_labels chainForest [3; 2; 1; 4]%nat).
  apply link_wfForest; [apply link_wfForest; [apply wfForest_empty|] |];
    vm_compute; reflexivity.
Defined.

End ForestMore.

(** ** The edge queue: the comparator and the top element *)

Module QueueMore.

Import IterativeRegionMerging QueueFacts.

(** X15: [EdgeCompare] is a strict total order on edge ids, as
    [std::priority_queue] requires of its comparator: no edge is ordered
    before itself, of two edges at most one is ordered before the other,
    the order is transitive, and two different edges are always ordered
    one way or the other (by score, and by edge id when the scores are
    equal). *)
Theorem EdgeCompare_strict_total_order (edgeScores : EdgeMap Q) :
  (forall a, EdgeCompare edgeScores a a = false) /\
  (forall a b, EdgeCompare edgeScores a b = true ->
               EdgeCompare edgeScores b a = false) /\
  (forall a b c, EdgeCompare edgeScores a b = true ->
                 EdgeCompare edgeScores b c = true ->
                 EdgeCompare edgeScores a c = true) /\
  (forall a b, a <> b -> EdgeCompare edgeScores a b = true \/
                         EdgeCompare edgeScores b a = true).
Proof.
  repeat split.
  - intros a. apply EdgeCompare_false. right. split; [reflexivity | lia].
  - intros a b Hab. apply EdgeCompare_spec in Hab. apply EdgeCompare_false.
    destruct Hab as [Hlt | [Heq Hlt]]; [by left | right].
    split; [by symmetry | lia].
  - intros a b c Hab Hbc. apply EdgeCompare_spec in Hab, Hbc.
    apply EdgeCompare_spec.
    destruct Hab as [Hab | [Hab Hab']], Hbc as [Hbc | [Hbc Hbc']].
    + left. lra.
    + left. lra.
    + left. lra.
    + right. split; [lra | lia].
  - intros a b Hne.
    destruct (EdgeCompare edgeScores a b) eqn:Hab; [by left | right].
    apply EdgeCompare_false in Hab. apply EdgeCompare_spec.
    destruct Hab as [Hlt | [Heq Hle]]; [by left | right].
    split; [by symmetry | lia].
Qed.

Lemma queue_top_le (edgeScores : EdgeMap Q) (queue : list EdgeIdType)
    (t y : EdgeIdType) :
  queue_top edgeScores queue = Some t -> y ∈ queue ->
  (edgeScores t <= edgeScores y)%Q.
Proof.
  intros Ht Hy. pose proof (queue_top_max edgeScores _ _ _ Ht Hy) as Hmax.
  apply EdgeCompare_false in Hmax. destruct Hmax as [? | [? _]]; lra.
Qed.

(** X16: the queue hands out a cheapest edge.  [top()] is defined exactly
    on a non-empty queue, and the edge it returns is queued and has a
    cached score that is at most the cached score of every queued edge. *)
Theorem queue_top_is_cheapest (edgeScores : EdgeMap Q) (queue : list EdgeIdType) :
  (queue_top edgeScores queue = None <-> queue = []) /\
  (forall t, queue_top edgeScores queue = Some t ->
     t ∈ queue /\ forall y, y ∈ queue -> (edgeScores t <= edgeScores y)%Q).
Proof.
  split.
  - destruct queue; simpl; split; done.
  - intros t Ht. split; [by apply (queue_top_elem edgeScores)|].
    intros y Hy. by apply (queue_top_le edgeScores queue).
Qed.

End QueueMore.

(** ** The engine: thresholds, flags, and what merging never undoes *)

Module EngineMore.

Import IterativeRegionMerging ForestFacts QueueFacts MergeFacts LoopFacts.

Section WithEngine.

Context {G F : Type} `{RegionGraph G} `{EdgeScoringFunction F}.

(** The loop is left only when its guard fails. *)
Lemma mergeLoop_stops (n : nat) (threshold : Q) (sf sf' : Engine G * F) :
  mergeLoop n threshold sf = Done sf' -> continues threshold sf' = false.
Proof.
  revert sf. induction n as [|n IH]; intros sf; [done|].
  rewrite mergeLoop_S. destruct (continues threshold sf) eqn:Hc.
  - destruct (loopRound sf) as [sf1 | why |]; simpl; [apply IH | done | done].
  - intros [= <-]. exact Hc.
Qed.

(** What a call of [mergeUntil] does to [_mergedUntil]. *)
Lemma mergeUntil_mergedUntil (threshold : Q) (s s' : Engine G) (f f' : F) :
  mergeUntil threshold (s, f) = Done (s', f') ->
  ((threshold <= _mergedUntil s)%Q /\ s' = s /\ f' = f) \/
  ((_mergedUntil s < threshold)%Q /\ _mergedUntil s' = threshold).
Proof.
  unfold mergeUntil. destruct (Qle_bool threshold (_mergedUntil s)) eqn:Hle.
  - intros [= <- <-]. left. by apply Qle_bool_iff in Hle.
  - assert ((_mergedUntil s < threshold)%Q).
    { apply Qnot_le_lt. intros Hle'. apply Qle_bool_iff in Hle'. congruence. }
    destruct (mergeLoop _ _ _) as [[s2 f2] | why |]; [|done|done].
    intros [= <- <-]. right. done.
Qed.

(** X17: what [mergeUntil] has reached when it returns.  After a call
    with a threshold above [_mergedUntil], [_mergedUntil] is the threshold
    and every edge that is still queued has a cached score of at least the
    threshold; after any call [_mergedUntil] is at least the threshold. *)
Theorem mergeUntil_reaches_threshold
    (threshold : Q) (s s' : Engine G) (f f' : F) :
  mergeUntil threshold (s, f) = Done (s', f') ->
  (threshold <= _mergedUntil s')%Q /\
  ((_mergedUntil s < threshold)%Q ->
   _mergedUntil s' = threshold /\
   forall e, e ∈ _edgeQueue s' -> (threshold <= _edgeScores s' e)%Q).
Proof.
  intros Hm. split.
  - destruct (mergeUntil_mergedUntil _ _ _ _ _ Hm) as [(Hle & -> & _) | [_ ->]];
      [exact Hle | apply Qle_refl].
  - intros Hlt. unfold mergeUntil in Hm.
    replace (Qle_bool threshold (_mergedUntil s)) with false in Hm
      by (symmetry; apply not_true_iff_false; rewrite Qle_bool_iff; lra).
    destruct (mergeLoop _ _ _) as [[s2 f2] | why |] eqn:Hloop; [|done|done].
    injection Hm as <- <-. split; [reflexivity|]. simpl.
    intros e He. apply mergeLoop_stops in Hloop. unfold continues in Hloop.
    simpl in Hloop.
    destruct (queue_top (_edgeScores s2) (_edgeQueue s2)) as [next|] eqn:Htop.
    + apply negb_false_iff, Qle_bool_iff in Hloop.
      pose proof (QueueMore.queue_top_le _ _ _ _ Htop He). lra.
    + destruct (_edgeQueue s2); [by apply elem_of_nil in He | done].
Qed.

(** X18: a call that asks for no more than was reached does nothing.
    After [mergeUntil] has returned for a threshold, a call with the same
    or a lower threshold returns at once, with the engine and the scoring
    function unchanged. *)
Theorem mergeUntil_lower_threshold_skips
    (threshold threshold' : Q) (sf sf' : Engine G * F) :
  mergeUntil threshold sf = Done sf' ->
  (threshold' <= threshold)%Q ->
  mergeUntil threshold' sf' = Done sf'.
Proof.
  destruct sf as [s f], sf' as [s' f']. intros Hm Hle.
  assert (Hge : (threshold <= _mergedUntil s')%Q).
  { destruct (mergeUntil_mergedUntil _ _ _ _ _ Hm) as [(Hge & -> & _) | [_ ->]];
      [exact Hge | apply Qle_refl]. }
  unfold mergeUntil.
  replace (Qle_bool threshold' (_mergedUntil s')) with true; [done|].
  symmetry. apply Qle_bool_iff. lra.
Qed.

(** X19: after a series of [mergeUntil] calls [_mergedUntil] is the
    largest threshold seen: it is the old value or one of the thresholds,
    it is not below the old value, and it is not below any of the
    thresholds. *)
Theorem mergeUntilAll_largest_threshold
    (thresholds : list Q) (sf sf' : Engine G * F) :
  mergeUntilAll thresholds sf = Done sf' ->
  (_mergedUntil (fst sf') = _mergedUntil (fst sf) \/
   _mergedUntil (fst sf') ∈ thresholds) /\
  (_mergedUntil (fst sf) <= _mergedUntil (fst sf'))%Q /\
  (forall t, t ∈ thresholds -> (t <= _mergedUntil (fst sf'))%Q).
Proof.
  unfold mergeUntilAll. revert sf.
  induction thresholds as [|t ts IH]; intros sf; simpl.
  - intros [= <-]. split; [by left|]. split; [apply Qle_refl|].
    intros t Ht. by apply elem_of_nil in Ht.
  - destruct (mergeUntil t sf) as [sf1 | why |] eqn:Hm.
    + intros Hfold. destruct (IH sf1 Hfold) as (Hin & Hge & Hall).
      destruct sf as [s f], sf1 as [s1 f1]. simpl in *.
      destruct (mergeUntil_mergedUntil _ _ _ _ _ Hm) as [(Hle & -> & _) | [Hlt Heq]].
      * split; [destruct Hin as [? | ?]; [by left | right; by right]|].
        split; [exact Hge|]. intros t' Ht'.
        apply elem_of_cons in Ht' as [-> | Ht']; [lra | by apply Hall].
      * rewrite Heq in *.
        split; [right; destruct Hin as [-> | ?]; [by left | by right]|].
        split; [lra|]. intros t' Ht'.
        apply elem_of_cons in Ht' as [-> | Ht']; [exact Hge | by apply Hall].
    + by rewrite fold_bind_Failed.
    + by rewrite fold_bind_OutOfFuel.
Qed.

(** *** The flags set by [mergeRegions] *)

Lemma updateIncidentEdge_flags e a b neighborEdge (s s' : Engine G) (f f' : F) :
  updateIncidentEdge e a b neighborEdge (s, f) = Done (s', f') ->
  (forall x, _stale s x = true -> _stale s' x = true) /\
  (forall x, _deleted s x = true -> _deleted s' x = true) /\
  (neighborEdge <> e ->
   _stale s' neighborEdge = true \/ _deleted s' neighborEdge = true).
Proof.
  unfold updateIncidentEdge.
  repeat first [case_decide | case_match]; intros [= <- <-]; simpl;
    (split; [|split]); try done;
    try (intros x Hx; unfold set_at; by case_decide);
    intros _; unfold set_at; rewrite ?decide_True by done;
    try (by left); try (by right).
Qed.

Lemma markStale_flags (es : list EdgeIdType) (s : Engine G) :
  let s' := fold_left (fun s' neighborEdge => set_stale s' neighborEdge true) es s in
  (forall x, _stale s' x = true <-> x ∈ es \/ _stale s x = true) /\
  _deleted s' = _deleted s.
Proof.
  revert s. induction es as [|e es IH]; intros s; simpl.
  - split; [|done]. intros x. rewrite elem_of_nil. tauto.
  - destruct (IH (set_stale s e true)) as [Hs Hd]. split; [|exact Hd].
    intros x. rewrite Hs, elem_of_cons. simpl. unfold set_at.
    case_decide; subst; tauto.
Qed.

(** Every element of the list gets what its step establishes, when the
    later steps keep it. *)
Lemma fold_bind_each {A X : Type} (P : X -> A -> Prop) (k : X -> A -> outcome A)
    (l : list X) :
  (forall x a a', k x a = Done a' -> P x a') ->
  (forall x y a a', P x a -> k y a = Done a' -> P x a') ->
  forall a r,
    fold_left (fun acc x => bind acc (k x)) l (Done a) = Done r ->
    forall x, x ∈ l -> P x r.
Proof.
  intros Hest Hkeep. induction l as [|y l IH]; intros a r Hfold x Hx.
  - by apply elem_of_nil in Hx.
  - simpl in Hfold. destruct (k y a) as [a1 | why |] eqn:Hk.
    + apply elem_of_cons in Hx as [-> | Hx]; [|by eapply IH].
      eapply (fold_bind_inv (P y) k l); [| |exact Hfold].
      * intros z b b'. apply Hkeep.
      * by eapply Hest.
    + by rewrite fold_bind_Failed in Hfold.
    + by rewrite fold_bind_OutOfFuel in Hfold.
Qed.

Lemma mergeRegions_keeps_flags (e : EdgeIdType) (s s' : Engine G) (f f' : F) :
  mergeRegions e (s, f) = Done (s', f') ->
  (forall x, x ∈ incEdges (_regionGraph s) (edge_u (_regionGraph s) e) \/
             _stale s x = true -> _stale s' x = true) /\
  (forall x, _deleted s x = true -> _deleted s' x = true).
Proof.
  intros Hm. unfold mergeRegions in Hm.
  set (a := edge_u (_regionGraph s) e) in *.
  set (b := edge_v (_regionGraph s) e) in *.
  set (s1 := set_rootPaths s _) in Hm.
  set (s2 := fold_left _ (incEdges _ a) s1) in Hm.
  destruct (markStale_flags (incEdges (_regionGraph s) a) s1) as [Hst Hdel].
  fold s2 in Hst, Hdel.
  assert (Hkeep : forall x, (_stale s2 x = true -> _stale s' x = true) /\
                            (_deleted s2 x = true -> _deleted s' x = true)).
  { intros x.
    apply (fold_bind_inv
             (fun sf : Engine G * F =>
                (_stale s2 x = true -> _stale (fst sf) x = true) /\
                (_deleted s2 x = true -> _deleted (fst sf) x = true))
             (updateIncidentEdge e a b) (incEdges (_regionGraph s) b)
             ltac:(intros y [sa fa] [sb fb] [Ha1 Ha2] Hk;
                   apply updateIncidentEdge_flags in Hk as (Hk1 & Hk2 & _);
                   simpl in *; split; auto)
             (s2, notifyNodeMerge f b a) (s', f')); [done | exact Hm]. }
  split.
  - intros x Hx. apply Hkeep, Hst. exact Hx.
  - intros x Hx. apply Hkeep. by rewrite Hdel.
Qed.

(** X20: the flags after a merge.  When [mergeRegions(e)] returns, every
    edge that was incident to the surviving region [a] is stale, every edge
    that was incident to the absorbed region [b], other than [e], is stale
    or deleted, and no stale or deleted flag that was set has been
    cleared. *)
Theorem mergeRegions_marks_incident_edges
    (e : EdgeIdType) (s s' : Engine G) (f f' : F) :
  mergeRegions e (s, f) = Done (s', f') ->
  let g := _regionGraph s in
  (forall x, x ∈ incEdges g (edge_u g e) -> _stale s' x = true) /\
  (forall x, x ∈ incEdges g (edge_v g e) -> x <> e ->
             _stale s' x = true \/ _deleted s' x = true) /\
  (forall x, _stale s x = true -> _stale s' x = true) /\
  (forall x, _deleted s x = true -> _deleted s' x = true).
Proof.
  intros Hm g. subst g.
  destruct (mergeRegions_keeps_flags _ _ _ _ _ Hm) as [Hst Hdel].
  split; [|split; [|split]].
  - intros x Hx. apply Hst. by left.
  - unfold mergeRegions in Hm. intros x Hx.
    apply (fold_bind_each
             (fun x (sf : Engine G * F) =>
                x <> e -> _stale (fst sf) x = true \/ _deleted (fst sf) x = true)
             (updateIncidentEdge e (edge_u (_regionGraph s) e)
                                 (edge_v (_regionGraph s) e))
             (incEdges (_regionGraph s) (edge_v (_regionGraph s) e))
             ltac:(intros y [sa fa] [sb fb] Hk;
                   by apply updateIncidentEdge_flags in Hk as (_ & _ & Hk))
             ltac:(intros y z [sa fa] [sb fb] Hy Hk Hne;
                   apply updateIncidentEdge_flags in Hk as (Hk1 & Hk2 & _);
                   simpl in *; destruct (Hy Hne); [left | right]; auto)
             _ (s', f') Hm x Hx).
  - intros x Hx. apply Hst. by right.
  - exact Hdel.
Qed.

(** *** What merging never undoes *)

(** From [s] to [s'] no deleted flag is cleared, no node that has a parent
    becomes a root, and no cached score decreases. *)
Definition neverUndone (s s' : Engine G) : Prop :=
  (forall x, _deleted s x = true -> _deleted s' x = true) /\
  (forall x, isRoot (_rootPaths s) x = false -> isRoot (_rootPaths s') x = false) /\
  (forall e, (_edgeScores s e <= _edgeScores s' e)%Q).

Lemma neverUndone_refl (s : Engine G) : neverUndone s s.
Proof. repeat split; auto. intros e. apply Qle_refl. Qed.

Lemma neverUndone_trans (s1 s2 s3 : Engine G) :
  neverUndone s1 s2 -> neverUndone s2 s3 -> neverUndone s1 s3.
Proof.
  intros (Hd1 & Hr1 & Hs1) (Hd2 & Hr2 & Hs2). repeat split; auto.
  intros e. eapply Qle_trans; [apply Hs1 | apply Hs2].
Qed.

Lemma loopRound_neverUndone (sf sf' : Engine G * F) :
  loopRound sf = Done sf' -> neverUndone (fst sf) (fst sf').
Proof.
  destruct sf as [s f], sf' as [s' f']. unfold loopRound. simpl.
  destruct (queue_top (_edgeScores s) (_edgeQueue s)) as [next|];
    [|intros [= <- <-]; apply neverUndone_refl].
  destruct (_deleted s next).
  { intros [= <- <-]. repeat split; auto. intros e. apply Qle_refl. }
  destruct (_stale s next).
  - unfold scoreEdge. destruct (scoreOf f next) as [newScore f2]. simpl.
    destruct (Qle_bool (_edgeScores s next) newScore) eqn:Hle; [|done].
    apply Qle_bool_iff in Hle. intros [= <- <-]. repeat split; auto. simpl.
    intros e. unfold set_at. case_decide; [by subst | apply Qle_refl].
  - intros Hm. destruct (mergeRegions_keeps_flags _ _ _ _ _ Hm) as (_ & Hdel).
    destruct (mergeRegions_frame _ _ _ _ _ Hm) as (Hroot & _ & Hsc & _).
    simpl in *. repeat split; [exact Hdel | |].
    + intros x. rewrite Hroot. unfold isRoot. rewrite !bool_decide_eq_false.
      intros Hx.
      destruct (decide (x = edge_v (_regionGraph s) next)) as [-> | Hne].
      * by rewrite lookup_insert_eq.
      * by rewrite lookup_insert_ne.
    + intros e. rewrite Hsc. apply Qle_refl.
Qed.

Lemma mergeLoop_neverUndone (n : nat) (threshold : Q) (sf sf' : Engine G * F) :
  mergeLoop n threshold sf = Done sf' -> neverUndone (fst sf) (fst sf').
Proof.
  revert sf. induction n as [|n IH]; intros sf; [done|].
  rewrite mergeLoop_S. destruct (continues threshold sf).
  - destruct (loopRound sf) as [sf1 | why |] eqn:Hr; simpl; [|done|done].
    intros Hl. eapply neverUndone_trans; [by apply loopRound_neverUndone | by apply IH].
  - intros [= <-]. apply neverUndone_refl.
Qed.

Lemma scoreAllEdges_frame (sf : Engine G * F) :
  _deleted (fst (scoreAllEdges sf)) = _deleted (fst sf) /\
  _rootPaths (fst (scoreAllEdges sf)) = _rootPaths (fst sf) /\
  _stale (fst (scoreAllEdges sf)) = _stale (fst sf).
Proof.
  unfold scoreAllEdges. generalize (seq 0 (numEdges (_regionGraph (fst sf)))).
  intros l. revert sf. induction l as [|e l IH]; intros [s f]; [done|].
  simpl. destruct (scoreEdge e s f) as [[score s1] f1] eqn:Hs.
  unfold scoreEdge in Hs. destruct (scoreOf f e) as [score' f1'].
  injection Hs as <- <- <-.
  destruct (IH (set_edgeQueue (set_edgeScore s e score')
                              (queue_push e (_edgeQueue s)), f1')) as (H1 & H2 & H3).
  rewrite H1, H2, H3. done.
Qed.

(** X21: what [mergeUntil] never undoes.  When a call returns, every
    edge that was deleted is still deleted and every node that had a parent
    in [_rootPaths] still has one; and unless the call computed the initial
    scores ([_mergedUntil] was zero), no cached edge score has decreased. *)
Theorem mergeUntil_never_undoes (threshold : Q) (s s' : Engine G) (f f' : F) :
  mergeUntil threshold (s, f) = Done (s', f') ->
  (forall x, _deleted s x = true -> _deleted s' x = true) /\
  (forall x, isRoot (_rootPaths s) x = false -> isRoot (_rootPaths s') x = false) /\
  (~ (_mergedUntil s == 0)%Q -> forall e, (_edgeScores s e <= _edgeScores s' e)%Q).
Proof.
  unfold mergeUntil. destruct (Qle_bool threshold (_mergedUntil s)).
  - intros [= <- <-]. repeat split; auto. intros _ e. apply Qle_refl.
  - destruct (Qeq_bool (_mergedUntil s) 0) eqn:Hz.
    + destruct (mergeLoop _ _ _) as [[s2 f2] | why |] eqn:Hloop; [|done|done].
      intros [= <- <-]. apply mergeLoop_neverUndone in Hloop as (Hd & Hr & _).
      destruct (scoreAllEdges_frame (s, f)) as (Hd0 & Hr0 & _).
      rewrite Hd0 in Hd. rewrite Hr0 in Hr. simpl in *.
      repeat split; auto. intros Hnz. apply Qeq_bool_iff in Hz. done.
    + destruct (mergeLoop _ _ _) as [[s2 f2] | why |] eqn:Hloop; [|done|done].
      intros [= <- <-]. apply mergeLoop_neverUndone in Hloop as (Hd & Hr & Hs).
      simpl in *. repeat split; auto.
Qed.

(** *** An edge from a region to itself *)

Lemma walkToRoot_self_parent (m : forest) (a : NodeIdType) (fuel : nat) :
  m !! a = Some a -> walkToRoot fuel m a = None.
Proof. intros Ha. induction fuel as [|fuel IH]; simpl; by rewrite Ha. Qed.

(** X22: merging along an edge whose two end points are the same region
    breaks the forest.  [mergeRegions(e)] with [edge(e).u == edge(e).v]
    makes that node its own parent in [_rootPaths]: it is no root any
    more, the walk to its root never ends, and [getRoot] does not return
    for it. *)
Theorem mergeRegions_self_loop_edge (e : EdgeIdType) (s s' : Engine G) (f f' : F) :
  mergeRegions e (s, f) = Done (s', f') ->
  edge_u (_regionGraph s) e = edge_v (_regionGraph s) e ->
  let a := edge_u (_regionGraph s) e in
  isRoot (_rootPaths s') a = false /\
  (forall fuel, walkToRoot fuel (_rootPaths s') a = None) /\
  getRoot (_rootPaths s') a = None.
Proof.
  intros Hm Hloop a.
  destruct (mergeRegions_frame _ _ _ _ _ Hm) as (Hroot & _).
  assert (Ha : _rootPaths s' !! a = Some a).
  { rewrite Hroot, <- Hloop. apply lookup_insert_eq. }
  split; [|split].
  - unfold isRoot. apply bool_decide_eq_false. by rewrite Ha.
  - intros fuel. by apply walkToRoot_self_parent.
  - unfold getRoot. rewrite Ha. by rewrite walkToRoot_self_parent.
Qed.

(** *** The seed phase *)

(** The scoring function after it has scored the edges of [l] in turn. *)
Definition scoredThrough (f : F) (l : list EdgeIdType) : F :=
  fold_left (fun f e => snd (scoreOf f e)) l f.

Lemma scoreEdges_fold (l : list EdgeIdType) (s : Engine G) (f : F) :
  let r := fold_left (fun '(s, f) e => let '(_, s', f') := scoreEdge e s f in (s', f'))
                     l (s, f) in
  _edgeQueue (fst r) = _edgeQueue s ++ l /\
  snd r = scoredThrough f l /\
  (forall e, e ∉ l -> _edgeScores (fst r) e = _edgeScores s e) /\
  (forall i e, l !! i = Some e -> e ∉ drop (S i) l ->
     _edgeScores (fst r) e = fst (scoreOf (scoredThrough f (take i l)) e)) /\
  _regionGraph (fst r) = _regionGraph s /\ _mergedUntil (fst r) = _mergedUntil s.
Proof.
  revert s f. induction l as [|x l IH]; intros s f.
  - simpl. rewrite app_nil_r. repeat split; done.
  - simpl. destruct (scoreEdge x s f) as [[score s1] f1] eqn:Hs.
    unfold scoreEdge in Hs. destruct (scoreOf f x) as [score' f1'] eqn:Hsc.
    injection Hs as <- <- <-.
    destruct (IH (set_edgeQueue (set_edgeScore s x score')
                                (queue_push x (_edgeQueue s))) f1')
      as (Hq & Hf & Hout & Hin & Hg & Hmu).
    cbv zeta in *.
    split; [rewrite Hq; simpl; unfold queue_push; by rewrite <- app_assoc|].
    split; [exact Hf|].
    split; [|split; [|split; [exact Hg | exact Hmu]]].
    + intros e He. apply not_elem_of_cons in He as [Hex Hel].
      rewrite (Hout _ Hel). simpl. unfold set_at. by rewrite decide_False.
    + intros [|i] e Hi Hlater; simpl in Hi.
      * injection Hi as ->. rewrite drop_0 in Hlater. rewrite (Hout _ Hlater).
        simpl. unfold set_at. rewrite decide_True by done.
        unfold scoredThrough. simpl. by rewrite Hsc.
      * rewrite (Hin i e Hi Hlater). unfold scoredThrough. simpl. by rewrite Hsc.
Qed.

(** X23: the seed phase of the first [mergeUntil] scores every edge of
    the graph once, in the order of the edge ids.  After the loop over
    [e = 0 .. edges().size()-1] the queue holds these edge ids behind what
    it held, the cached score of edge [e] is what the scoring function
    returned for [e] after it had scored the edges [0 .. e-1], the scoring
    function is in the state that scoring all the edges in turn leaves it
    in, and the cached scores of other ids, the graph and [_mergedUntil]
    are unchanged. *)
Theorem scoreAllEdges_scores_each_edge_once (sf : Engine G * F) :
  let n := numEdges (_regionGraph (fst sf)) in
  let sf' := scoreAllEdges sf in
  _edgeQueue (fst sf') = _edgeQueue (fst sf) ++ seq 0 n /\
  snd sf' = scoredThrough (snd sf) (seq 0 n) /\
  (forall e, (e < n)%nat ->
     _edgeScores (fst sf') e = fst (scoreOf (scoredThrough (snd sf) (seq 0 e)) e)) /\
  (forall e, (n <= e)%nat -> _edgeScores (fst sf') e = _edgeScores (fst sf) e) /\
  _regionGraph (fst sf') = _regionGraph (fst sf) /\
  _mergedUntil (fst sf') = _mergedUntil (fst sf).
Proof.
  intros n sf'. destruct sf as [s f]. subst sf'. unfold scoreAllEdges.
  simpl in n. simpl fst. simpl snd. fold n.
  destruct (scoreEdges_fold (seq 0 n) s f) as (Hq & Hf & Hout & Hin & Hg & Hmu).
  cbv zeta in *.
  split; [exact Hq|]. split; [exact Hf|]. split; [|split; [|done]].
  - intros e He. rewrite (Hin e e).
    + by rewrite take_seq, Nat.min_l by lia.
    + by apply lookup_seq.
    + rewrite drop_seq. intros Hel. apply elem_of_seq in Hel. lia.
  - intros e He. apply Hout. intros Hel. apply elem_of_seq in Hel. lia.
Qed.

End WithEngine.

End EngineMore.

Module EngineExamples.

Import IterativeRegionMerging EngineMore Collaborators.

(** The state after [mergeUntil], when the call returns. *)
Definition afterUntil (threshold : Q) (sf : Engine ListGraph * TableScoring)
    : Engine ListGraph * TableScoring :=
  match mergeUntil threshold sf with
  | Done sf' => sf'
  | _ => sf
  end.

(** A graph whose only edge leads from region 1 to itself. *)
Definition selfLoop : ListGraph := graph_of_edges [(1, 1)]%nat.

Lemma mergeUntil_reaches_threshold_witness :
  let sf' := afterUntil (1 # 4) (create chain, chainScores) in
  ((1 # 4) <= _mergedUntil (fst sf'))%Q /\
  ((_mergedUntil (create chain) < (1 # 4))%Q ->
   _mergedUntil (fst sf') = (1 # 4)%Q /\
   forall e, e ∈ _edgeQueue (fst sf') -> ((1 # 4) <= _edgeScores (fst sf') e)%Q).
Proof.
  intros sf'.
  apply (mergeUntil_reaches_threshold (1 # 4) (create chain) (fst sf')
           chainScores (snd sf')).
  vm_compute. reflexivity.
Defined.

Lemma mergeUntil_lower_threshold_skips_witness :
  let sf' := afterUntil (1 # 4) (create chain, chainScores) in
  mergeUntil (1 # 5) sf' = Done sf'.
Proof.
  intros sf'.
  apply (mergeUntil_lower_threshold_skips (1 # 4) (1 # 5)
           (create chain, chainScores) sf').
  - vm_compute. reflexivity.
  - vm_compute. discriminate.
Defined.

Lemma mergeUntilAll_largest_threshold_witness :
  let sf := (create chain, chainScores) in
  let sf' := afterUntil (1 # 4) (afterUntil (1 # 2) sf) in
  (_mergedUntil (fst sf') = _mergedUntil (fst sf) \/
   _mergedUntil (fst sf') ∈ [(1 # 2)%Q; (1 # 4)%Q]) /\
  (_mergedUntil (fst sf) <= _mergedUntil (fst sf'))%Q /\
  (forall t, t ∈ [(1 # 2)%Q; (1 # 4)%Q] -> (t <= _mergedUntil (fst sf'))%Q).
Proof.
  intros sf sf'.
  apply (mergeUntilAll_largest_threshold [(1 # 2)%Q; (1 # 4)%Q] sf sf').
  vm_compute. reflexivity.
Defined.

Lemma mergeRegions_marks_incident_edges_witness :
  let s := fst (scoreAllEdges (create chain, chainScores)) in
  let sf' := MergeExamples.afterMerge 1 (s, chainScores) in
  let g := _regionGraph s in
  (forall x, x ∈ incEdges g (edge_u g 1) -> _stale (fst sf') x = true) /\
  (forall x, x ∈ incEdges g (edge_v g 1) -> x <> 1%nat ->
             _stale (fst sf') x = true \/ _deleted (fst sf') x = true) /\
  (forall x, _stale s x = true -> _stale (fst sf') x = true) /\
  (forall x, _deleted s x = true -> _deleted (fst sf') x = true).
Proof.
  intros s sf'.
  apply (mergeRegions_marks_incident_edges 1 s (fst sf') chainScores (snd sf')).
  vm_compute. reflexivity.
Defined.

Lemma mergeUntil_never_undoes_witness :
  let sf := afterUntil (1 # 4) (create chain, chainScores) in
  let sf' := afterUntil 1 sf in
  (forall x, _deleted (fst sf) x = true -> _deleted (fst sf') x = true) /\
  (forall x, isRoot (_rootPaths (fst sf)) x = false ->
             isRoot (_rootPaths (fst sf')) x = false) /\
  (~ (_mergedUntil (fst sf) == 0)%Q ->
   forall e, (_edgeScores (fst sf) e <= _edgeScores (fst sf') e)%Q).
Proof.
  intros sf sf'.
  apply (mergeUntil_never_undoes 1 (fst sf) (fst sf') (snd sf) (snd sf')).
  vm_compute. reflexivity.
Defined.

Lemma mergeRegions_self_loop_edge_witness :
  let sf' := MergeExamples.afterMerge 0 (create selfLoop, chainScores) in
  let a := edge_u (_regionGraph (create selfLoop)) 0 in
  isRoot (_rootPaths (fst sf')) a = false /\
  (forall fuel, walkToRoot fuel (_rootPaths (fst sf')) a = None) /\
  getRoot (_rootPaths (fst sf')) a = None.
Proof.
  intros sf'.
  apply (mergeRegions_self_loop_edge 0 (create selfLoop) (fst sf')
           chainScores (snd sf')).
  - vm_compute. reflexivity.
  - reflexivity.
Defined.

End EngineExamples.
